(** * mlx-llm: the Llama decoder, the generation loop and the model turnstile

    A shallow embedding of [llm/llama.py] and of the serving core of
    [server/app.py].

    Conventions of the embedding.
    - Arrays are nested lists, written without their leading batch axis:
      [generate] always calls the model on [y[None]], a batch of one, and
      every operation of the forward pass acts on each batch element on
      its own.  A hidden state of shape [B, L, hidden] is a
      [list (list F)] of [L] rows; queries, keys and values of shape
      [B, heads, L, head_dim] are [list (list (list F))], heads first.
    - The element type [F] and its arithmetic (the MLX kernels: [+], [*],
      [exp], [rsqrt], the dtype casts ...) are not part of the
      repository.  They are the interface [Arith]; what a proof needs of
      them is stated in [ArithLaws].
    - Python's [int] fields of [ModelArgs] are sizes and counts: they are
      natural numbers here, and [//] by zero, [0 ** -0.5] and the
      [1 / input_dims] of the layer initialisers, which raise
      [ZeroDivisionError], are written out as [None].
    - MLX raises where the shapes of its operands do not fit; the list
      operations truncate there.  The exceptions that are written out as
      [None] or [Raised] are the out-of-range cache slot, the empty token
      sequence given to a layer (its [reshape] to [-1]) and an exception
      of the model callable.  The forward
      pass is otherwise modelled on models whose parameters fit
      ([model_wf], [model_shaped]); a theorem that says that a call
      returns carries these hypotheses. *)

From Stdlib Require Import ZArith Lia List Bool.
From Stdlib Require String Ascii.
From stdpp Require Import base option list.

Import String.StringSyntax.

#[local] Unset Default Proof Using.
#[local] Open Scope nat_scope.
Delimit Scope string_scope with string.

(** ** Element arithmetic *)

Class Arith (F : Type) := {
  fzero : F;
  fone : F;
  fadd : F -> F -> F;
  fmul : F -> F -> F;
  fdiv : F -> F -> F;
  fneg : F -> F;
  fexp : F -> F;
  frsqrt : F -> F;
  fsigmoid : F -> F;
  fcos : F -> F;
  fsin : F -> F;
  fpow : F -> F -> F;
  of_nat : nat -> F;
  (** [a < b] on array elements, as [argmax] compares them *)
  fltb : F -> F -> bool;
  (** [temp == 0] *)
  is_zero : F -> bool;
  (** [astype(mx.float32)] and the cast back to the working dtype *)
  to_float32 : F -> F;
  of_float32 : F -> F;
  (** the entry of the additive causal mask at a forbidden position *)
  mask_neg : F
}.

(** What the proofs about masking and caching use of the arithmetic:
    zero is neutral on the right of a sum and absorbing on the left of a
    product and of a quotient, the cast back maps zero to zero, and a
    masked score has softmax weight exactly zero (the mask entry, cast to
    the working dtype, is "effectively minus infinity").  Rounding is
    otherwise left abstract: sums are taken in one fixed order. *)
Class ArithLaws (F : Type) `{Arith F} : Prop := {
  fadd_zero_r : forall x, fadd x fzero = x;
  fmul_zero_l : forall x, fmul fzero x = fzero;
  fdiv_zero_l : forall x, fdiv fzero x = fzero;
  of_float32_zero : of_float32 fzero = fzero;
  fexp_masked : forall x, fexp (to_float32 (fadd x (of_float32 mask_neg))) = fzero
}.

(** The order [argmax] needs: [fltb] is a strict weak order
    (irreflexive, transitive, and incomparability is transitive). *)
Class ArithOrder (F : Type) `{Arith F} : Prop := {
  fltb_irrefl : forall x, fltb x x = false;
  fltb_trans : forall x y z, fltb x y = true -> fltb y z = true -> fltb x z = true;
  fltb_negtrans : forall x y z, fltb x y = false -> fltb y z = false -> fltb x z = false
}.

(** ** Array primitives on nested lists *)

Section Arrays.
Context {F : Type} `{Arith F}.

(** [x.shape[-1]] of a matrix (0 for the empty matrix). *)
Definition width {A} (m : list (list A)) : nat :=
  match m with [] => 0 | r :: _ => length r end.

(** The sequence axis ([shape[2]]) of a [B, heads, S, head_dim] array. *)
Definition seq_len {A} (t : list (list A)) : nat := width t.

Definition fsum (l : list F) : F := fold_left fadd l fzero.

Definition dot (u v : list F) : F := fsum (zip_with fmul u v).

(** Swap the last two axes of a matrix. *)
Definition transpose (m : list (list F)) : list (list F) :=
  map (fun d => map (fun r => nth d r fzero) m) (seq 0 (width m)).

(** [a @ b] on matrices. *)
Definition matmul (a b : list (list F)) : list (list F) :=
  map (fun r => map (dot r) (transpose b)) a.

(** Row-major [reshape] of a flat row into [count] rows of [size]. *)
Definition chunks {A} (count size : nat) (l : list A) : list (list A) :=
  map (fun h => take size (drop (h * size) l)) (seq 0 count).

(** [transpose(0, 2, 1, 3)]: swap the two outer axes of a
    [n0, n1, d] array, [n1] being the extent of the second. *)
Definition swap_axes {A} (n1 : nat) (t : list (list (list A))) : list (list (list A)) :=
  map (fun h => map (fun r => nth h r []) t) (seq 0 n1).

(** [mx.concatenate (ts, axis=2)] on arrays [heads, S, d] (axis 2 counts
    the batch axis): per head, the sequences one after the other. *)
Definition concat_seq {A} (a b : list (list A)) : list (list A) :=
  zip_with app a b.

(** [mx.softmax(x, axis=-1)] on one row, by its defining formula
    [exp x_j / sum_k exp x_k] (the primitive is MLX's). *)
Definition softmax_row (r : list F) : list F :=
  let e := map fexp r in
  let s := fsum e in
  map (fun x => fdiv x s) e.

(** Modelled from the spec: [nn.MultiHeadAttention.create_additive_causal_mask]
    is MLX's, not the repository's.  Additive, zero where position [i] may
    attend to [j] and a large negative value where [j > i]. *)
Definition create_additive_causal_mask (N : nat) : list (list F) :=
  map (fun i => map (fun j => if i <? j then mask_neg else fzero) (seq 0 N))
      (seq 0 N).

(** The mask as [Llama.__call__] hands it to the layers: built in
    [float32] and cast to the dtype of the hidden state
    ([mask.astype(x.dtype)]). *)
Definition causal_mask (T : nat) : list (list F) :=
  map (map of_float32) (create_additive_causal_mask T).

(** ** nn.Linear (bias=False), nn.Embedding, nn.RoPE *)

Record Linear := { weight : list (list F) }.

(** [x @ W.T] on a [L, in] matrix; [W] has one row per output feature. *)
Definition Linear_call (l : Linear) (x : list (list F)) : list (list F) :=
  map (fun r => map (dot r) (weight l)) x.

Record Embedding := { emb_weight : list (list F) }.

Definition Embedding_call (e : Embedding) (x : list nat) : list (list F) :=
  map (fun t => nth t (emb_weight e) []) x.

Record RoPE := { dims : nat; base : nat }.

(** Modelled from the spec: [nn.RoPE] is MLX's.  Position [p], pair index
    [k]: rotation by the angle [p * base^(-2k/dims)]. *)
Definition rope_angle (r : RoPE) (p k : nat) : F :=
  fmul (of_nat p)
       (fpow (of_nat (base r)) (fneg (fdiv (of_nat (2 * k)) (of_nat (dims r))))).

(** Non-traditional pairing: element [d] rotates with [d + dims/2]. *)
Definition rope_row (r : RoPE) (p : nat) (x : list F) : list F :=
  let half := dims r / 2 in
  let x1 := take half x in
  let x2 := take half (drop half x) in
  let ks := seq 0 half in
  let c := map (fun k => fcos (rope_angle r p k)) ks in
  let s := map (fun k => fsin (rope_angle r p k)) ks in
  let rx1 := zip_with fadd (zip_with fmul x1 c) (map fneg (zip_with fmul x2 s)) in
  let rx2 := zip_with fadd (zip_with fmul x1 s) (zip_with fmul x2 c) in
  rx1 ++ rx2 ++ drop (2 * half) x.

(** [rope(x, offset)] on [heads, L, d]: row [i] sits at position [offset + i]. *)
Definition RoPE_call (r : RoPE) (x : list (list (list F))) (offset : nat)
  : list (list (list F)) :=
  map (imap (fun i row => rope_row r (offset + i) row)) x.

End Arrays.

(** ** llm/llama.py *)

Section Llama.
Context {F : Type} `{Arith F}.

Record RopeScaling := { factor : F; type : String.string }.

Record ModelArgs := {
  hidden_size : nat;
  num_attention_heads : nat;
  num_hidden_layers : nat;
  num_key_value_heads : nat;
  max_position_embeddings : nat;
  rms_norm_eps : F;
  intermediate_size : nat;
  vocab_size : nat;
  rope_theta : nat;
  rope_scaling : option RopeScaling
}.

(** A key/value cache entry of one layer: [(keys, values)], each
    [heads, S, head_dim]. *)
Definition KV : Type := (list (list (list F)) * list (list (list F)))%type.

(** *** RMSNorm *)

Record RMSNorm := { norm_weight : list F; eps : F }.

(** [x * mx.rsqrt(x.square().mean(-1, keepdims=True) + eps)] on one row *)
Definition RMSNorm_norm (n : RMSNorm) (x : list F) : list F :=
  let ms := fdiv (fsum (map (fun a => fmul a a) x)) (of_nat (length x)) in
  map (fun a => fmul a (frsqrt (fadd ms (eps n)))) x.

Definition RMSNorm_call (n : RMSNorm) (x : list (list F)) : list (list F) :=
  map (fun r =>
         let output := map of_float32 (RMSNorm_norm n (map to_float32 r)) in
         zip_with fmul (norm_weight n) output) x.

(** *** FeedForward *)

Record FeedForward := {
  gate_proj : Linear (F:=F);
  down_proj : Linear (F:=F);
  up_proj : Linear (F:=F)
}.

(** [nn.silu]: [z * sigmoid(z)] *)
Definition silu (z : F) : F := fmul z (fsigmoid z).

Definition FeedForward_call (m : FeedForward) (x : list (list F)) : list (list F) :=
  Linear_call (down_proj m)
    (zip_with (zip_with fmul)
       (map (map silu) (Linear_call (gate_proj m) x))
       (Linear_call (up_proj m) x)).

(** *** Attention *)

Record Attention := {
  attn_hidden_size : nat;
  attn_num_attention_heads : nat;
  attn_num_key_value_heads : nat;
  repeats : nat;
  head_dim : nat;
  scale : F;
  q_proj : Linear (F:=F);
  k_proj : Linear (F:=F);
  v_proj : Linear (F:=F);
  o_proj : Linear (F:=F);
  rope : RoPE
}.

(** The local function [repeat] of [Attention.__call__], on an array
    [kv_heads, L, d]:
    [mx.concatenate([mx.expand_dims(a, 2)] * repeats, axis=2)] gives
    [kv_heads, repeats, L, d], and the row-major
    [reshape([B, num_attention_heads, L, -1])] cuts the flattened data
    into [num_attention_heads] blocks of [L] rows. *)
Definition expand_dims {A} (a : list A) : list (list A) := map (fun h => [h]) a.

Definition concatenate_copies {A} (copies : list (list (list A))) (n : nat)
  : list (list A) :=
  map (fun g => concat (map (fun c => nth g c []) copies)) (seq 0 n).

Definition reshape_heads (heads L : nat) (t : list (list (list (list F))))
  : list (list (list F)) :=
  let flat := concat (concat (concat t)) in
  let d := length flat / (heads * L) in
  map (chunks L d) (chunks heads (L * d) flat).

Definition Attention_repeat (a : Attention) (L : nat) (t : list (list (list F)))
  : list (list (list F)) :=
  let c := concatenate_copies (replicate (repeats a) (expand_dims t)) (length t) in
  reshape_heads (attn_num_attention_heads a) L c.

(** [(q * self.scale) @ k.transpose(0, 1, 3, 2)], head by head *)
Definition attn_scores (a : Attention) (q k : list (list (list F)))
  : list (list (list F)) :=
  zip_with (fun qh kh => matmul (map (map (fun x => fmul x (scale a))) qh)
                                (transpose kh)) q k.

(** [scores + mask]: the mask [L, S] is broadcast over the heads *)
Definition add_mask (scores : list (list (list F))) (mask : option (list (list F)))
  : list (list (list F)) :=
  match mask with
  | Some m => map (fun sh => zip_with (zip_with fadd) sh m) scores
  | None => scores
  end.

(** [mx.softmax(scores.astype(mx.float32), axis=-1).astype(scores.dtype)],
    on one row and on the whole array *)
Definition softmax_cast (r : list F) : list F :=
  map of_float32 (softmax_row (map to_float32 r)).

Definition attn_softmax (scores : list (list (list F))) : list (list (list F)) :=
  map (map softmax_cast) scores.

(** [t.reshape(B, L, self.num_key_value_heads, -1).transpose(0, 2, 1, 3)]:
    the [-1] is the row length divided by the number of heads.  (For
    [L = 0] the [-1] cannot be inferred and the reshape raises: see
    [run_layers].) *)
Definition Attention_kv_heads (a : Attention) (t : list (list F))
  : list (list (list F)) :=
  swap_axes (attn_num_key_value_heads a)
    (map (fun r => chunks (attn_num_key_value_heads a)
                     (length r / attn_num_key_value_heads a) r) t).

(** Lines 89-102: the projections, the split into heads and the
    expansion of the key/value heads. *)
Definition Attention_qkv (a : Attention) (x : list (list F))
  : list (list (list F)) * list (list (list F)) * list (list (list F)) :=
  let L := length x in
  let q := Linear_call (q_proj a) x in
  let k := Linear_call (k_proj a) x in
  let v := Linear_call (v_proj a) x in
  let q := swap_axes (attn_num_attention_heads a)
             (map (chunks (attn_num_attention_heads a) (head_dim a)) q) in
  let k := Attention_kv_heads a k in
  let v := Attention_kv_heads a v in
  let k := Attention_repeat a L k in
  let v := Attention_repeat a L v in
  (q, k, v).

(** Lines 115-123: scores, mask, softmax, weighted values, output
    projection. *)
Definition Attention_attend (a : Attention) (L : nat)
    (q k v : list (list (list F))) (mask : option (list (list F)))
  : list (list F) :=
  let scores := attn_scores a q k in
  let scores := add_mask scores mask in
  let scores := attn_softmax scores in
  let v_hat := map (fun r => concat r) (swap_axes L (zip_with matmul scores v)) in
  Linear_call (o_proj a) v_hat.

Definition Attention_call (a : Attention) (x : list (list F))
    (mask : option (list (list F))) (cache : option KV)
  : list (list F) * KV :=
  let L := length x in
  let '(q, k, v) := Attention_qkv a x in
  let '(q, k, v) :=
    match cache with
    | Some (k_cache, v_cache) =>
        let q := RoPE_call (rope a) q (seq_len k_cache) in
        let k := RoPE_call (rope a) k (seq_len k_cache) in
        (q, concat_seq k_cache k, concat_seq v_cache v)
    | None => (RoPE_call (rope a) q 0, RoPE_call (rope a) k 0, v)
    end in
  (Attention_attend a L q k v mask, (k, v)).

(** *** TransformerBlock *)

Record TransformerBlock := {
  self_attn : Attention;
  mlp : FeedForward;
  input_layernorm : RMSNorm;
  post_attention_layernorm : RMSNorm
}.

(** elementwise [x + r] on [L, hidden] *)
Definition add_rows (x r : list (list F)) : list (list F) :=
  zip_with (zip_with fadd) x r.

Definition TransformerBlock_call (b : TransformerBlock) (x : list (list F))
    (mask : option (list (list F))) (cache : option KV)
  : list (list F) * KV :=
  let '(r, cache) := Attention_call (self_attn b) (RMSNorm_call (input_layernorm b) x) mask cache in
  let h := add_rows x r in
  let r := FeedForward_call (mlp b) (RMSNorm_call (post_attention_layernorm b) h) in
  let out := add_rows h r in
  (out, cache).

(** *** Llama *)

Record Llama := {
  args : ModelArgs;
  llama_vocab_size : nat;
  embed_tokens : Embedding (F:=F);
  layers : list TransformerBlock;
  norm : RMSNorm;
  lm_head : Linear (F:=F)
}.

(** The loop [for e, layer in enumerate(self.layers): x, cache[e] =
    layer(x, mask, cache[e])].  [cache[e]] out of range raises
    [IndexError], and a layer raises on an empty sequence (the [reshape]
    to [-1] of line 95 has no head dimension to infer): [None]. *)
Fixpoint run_layers (ls : list TransformerBlock) (e : nat) (x : list (list F))
    (mask : option (list (list F))) (cache : list (option KV))
  : option (list (list F) * list (option KV)) :=
  match ls with
  | [] => Some (x, cache)
  | layer :: rest =>
      match cache !! e with
      | None => None
      | Some c =>
          match x with
          | [] => None
          | _ :: _ =>
              let '(x, c') := TransformerBlock_call layer x mask c in
              run_layers rest (S e) x mask (<[e := Some c']> cache)
          end
      end
  end.

(** [Llama.__call__(x, mask, cache)] on one token sequence.  The [mask]
    argument is overwritten before any use. *)
Definition Llama_call (m : Llama) (x : list nat) (mask : option (list (list F)))
    (cache : option (list (option KV)))
  : option (list (list F) * list (option KV)) :=
  let x := Embedding_call (embed_tokens m) x in
  let mask : option (list (list F)) := None in
  let T := length x in
  let mask := if 1 <? T
              then let mask := create_additive_causal_mask T in
                   Some (map (map of_float32) mask)
              else mask in
  let cache := match cache with
               | None => replicate (length (layers m)) None
               | Some c => c
               end in
  match run_layers (layers m) 0 x mask cache with
  | None => None
  | Some (x, cache) =>
      let x := RMSNorm_call (norm m) x in
      Some (Linear_call (lm_head m) x, cache)
  end.

(** What [Attention_attend] computes for one head, from the rows of its
    queries, keys and values: the four array operations of lines 115-121
    on that head. *)
Definition head_attend (sc : F) (mask : option (list (list F)))
    (qh kh vh : list (list F)) : list (list F) :=
  let scores := matmul (map (map (fun x => fmul x sc)) qh) (transpose kh) in
  let scores := match mask with
                | Some m => zip_with (zip_with fadd) scores m
                | None => scores
                end in
  matmul (map softmax_cast scores) vh.

(** *** Shapes

    An array [heads, S, d] as nested lists. *)
Definition heads_shape (heads S d : nat) (t : list (list (list F))) : Prop :=
  length t = heads
  /\ Forall (fun h => length h = S /\ Forall (fun r => length r = d) h) t.

(** A cache entry of [S] positions for the layer [a]. *)
Definition kv_shape (a : Attention) (S : nat) (c : KV) : Prop :=
  heads_shape (attn_num_attention_heads a) S (head_dim a) c.1
  /\ heads_shape (attn_num_attention_heads a) S (head_dim a) c.2.

(** An attention layer as [Attention.__init__] builds it from a
    configuration satisfying the invariants: the head counts divide, and
    the projections have the widths of their heads. *)
Definition attn_wf (a : Attention) : Prop :=
  0 < attn_num_key_value_heads a
  /\ 0 < repeats a
  /\ 0 < head_dim a
  /\ dims (rope a) = head_dim a
  /\ attn_num_attention_heads a = attn_num_key_value_heads a * repeats a
  /\ attn_hidden_size a = attn_num_attention_heads a * head_dim a
  /\ length (weight (q_proj a)) = attn_num_attention_heads a * head_dim a
  /\ length (weight (k_proj a)) = attn_num_key_value_heads a * head_dim a
  /\ length (weight (v_proj a)) = attn_num_key_value_heads a * head_dim a.

Definition model_wf (m : Llama) : Prop :=
  Forall (fun b => attn_wf (self_attn b)) (layers m).

(** The mask [Llama.__call__] builds for a sequence of [T] tokens. *)
Definition causal_mask_for (T : nat) : option (list (list F)) :=
  if 1 <? T then Some (causal_mask T) else None.

(** The loop of [Llama.__call__] on a cache with exactly one slot per
    layer, by recursion on the layers and the slots together; it returns
    the new entries. *)
Fixpoint stack (ls : list TransformerBlock) (x : list (list F))
    (mask : option (list (list F))) (cache : list (option KV))
  : list (list F) * list KV :=
  match ls, cache with
  | layer :: rest, c :: cache' =>
      let '(x, c') := TransformerBlock_call layer x mask c in
      let '(y, out) := stack rest x mask cache' in
      (y, c' :: out)
  | _, _ => (x, [])
  end.

End Llama.

(** ** Construction ([__init__]) *)

Section Construction.
Context {F : Type} `{Arith F}.

(** The initial weights ([mx.random.uniform], [mx.random.normal]) of a
    layer of the given shape; [load_model] overwrites them. *)
Variable initial_weight : nat -> nat -> list (list F).

(** [nn.Linear(input_dims, output_dims, bias=False)]: a weight of shape
    [output_dims, input_dims].  Its initialiser computes
    [math.sqrt(1 / input_dims)], which raises [ZeroDivisionError] for
    [input_dims = 0]. *)
Definition Linear_init (input_dims output_dims : nat) : option (Linear (F:=F)) :=
  if input_dims =? 0 then None
  else Some {| weight := initial_weight output_dims input_dims |}.

(** [nn.Embedding(num_embeddings, dims)]: [math.sqrt(1 / dims)] raises
    [ZeroDivisionError] for [dims = 0]. *)
Definition Embedding_init (num_embeddings dims : nat) : option (Embedding (F:=F)) :=
  if dims =? 0 then None
  else Some {| emb_weight := initial_weight num_embeddings dims |}.

Definition RMSNorm_init (dims : nat) (eps : F) : RMSNorm (F:=F) :=
  {| norm_weight := replicate dims fone; eps := eps |}.

Definition FeedForward_init (a : ModelArgs (F:=F)) : option (FeedForward (F:=F)) :=
  gate ← Linear_init (hidden_size a) (intermediate_size a);
  down ← Linear_init (intermediate_size a) (hidden_size a);
  up ← Linear_init (hidden_size a) (intermediate_size a);
  Some {| gate_proj := gate; down_proj := down; up_proj := up |}.

(** [Attention.__init__].  No statement of it compares [hidden_size] with
    [num_attention_heads * head_dim] or tests divisibility; the only
    failures are [ZeroDivisionError]s: of [//], of [0 ** -0.5] and of
    the initialisers of the projections. *)
Definition Attention_init (a : ModelArgs (F:=F)) : option (Attention (F:=F)) :=
  if num_key_value_heads a =? 0 then None            (* repeats: // by zero *)
  else if num_attention_heads a =? 0 then None       (* head_dim: // by zero *)
  else
    let repeats := num_attention_heads a / num_key_value_heads a in
    let head_dim := hidden_size a / num_attention_heads a in
    if head_dim =? 0 then None                        (* 0 ** -0.5 *)
    else
      q ← Linear_init (hidden_size a) (num_attention_heads a * head_dim);
      k ← Linear_init (hidden_size a) (num_key_value_heads a * head_dim);
      v ← Linear_init (hidden_size a) (num_key_value_heads a * head_dim);
      o ← Linear_init (num_attention_heads a * head_dim) (hidden_size a);
      Some
        {| attn_hidden_size := hidden_size a;
           attn_num_attention_heads := num_attention_heads a;
           attn_num_key_value_heads := num_key_value_heads a;
           repeats := repeats;
           head_dim := head_dim;
           scale := fpow (of_nat head_dim) (fneg (fdiv fone (of_nat 2)));
           q_proj := q;
           k_proj := k;
           v_proj := v;
           o_proj := o;
           rope := {| dims := head_dim; base := rope_theta a |} |}.

Definition TransformerBlock_init (a : ModelArgs (F:=F))
  : option (TransformerBlock (F:=F)) :=
  at_ ← Attention_init a;
  ff ← FeedForward_init a;
  Some {| self_attn := at_;
          mlp := ff;
          input_layernorm := RMSNorm_init (hidden_size a) (rms_norm_eps a);
          post_attention_layernorm := RMSNorm_init (hidden_size a) (rms_norm_eps a) |}.

(** [Llama.__init__]; the list comprehension builds one block per layer
    and fails as soon as one construction fails. *)
Definition Llama_init (a : ModelArgs (F:=F)) : option (Llama (F:=F)) :=
  embed ← Embedding_init (vocab_size a) (hidden_size a);
  ls ← mapM (fun _ : nat => TransformerBlock_init a) (seq 0 (num_hidden_layers a));
  head ← Linear_init (hidden_size a) (vocab_size a);
  Some {| args := a;
          llama_vocab_size := vocab_size a;
          embed_tokens := embed;
          layers := ls;
          norm := RMSNorm_init (hidden_size a) (rms_norm_eps a);
          lm_head := head |}.

(** The configuration invariants of the specification. *)
Definition config_valid (a : ModelArgs (F:=F)) : Prop :=
  hidden_size a = num_attention_heads a * (hidden_size a / num_attention_heads a)
  /\ num_attention_heads a mod num_key_value_heads a = 0.

(** *** Models a call runs on

    MLX raises where the shapes of its operands do not fit; the list
    operations of this embedding truncate there.  The two agree on the
    models whose parameters have the shapes [__init__] gives them from a
    configuration that satisfies the invariants and has an even
    [head_dim] ([nn.RoPE] rotates the two halves of a head against each
    other); [load_model] keeps these shapes. *)
Definition has_shape (rows cols : nat) (w : list (list F)) : Prop :=
  length w = rows /\ Forall (fun r => length r = cols) w.

Definition config_runs (a : ModelArgs (F:=F)) : Prop :=
  config_valid a
  /\ 0 < hidden_size a
  /\ Nat.even (hidden_size a / num_attention_heads a) = true.

Definition attn_shaped (a : ModelArgs (F:=F)) (at_ : Attention (F:=F)) : Prop :=
  let d := hidden_size a / num_attention_heads a in
  attn_hidden_size at_ = hidden_size a
  /\ attn_num_attention_heads at_ = num_attention_heads a
  /\ attn_num_key_value_heads at_ = num_key_value_heads a
  /\ repeats at_ = num_attention_heads a / num_key_value_heads a
  /\ head_dim at_ = d
  /\ scale at_ = fpow (of_nat d) (fneg (fdiv fone (of_nat 2)))
  /\ rope at_ = {| dims := d; base := rope_theta a |}
  /\ has_shape (num_attention_heads a * d) (hidden_size a) (weight (q_proj at_))
  /\ has_shape (num_key_value_heads a * d) (hidden_size a) (weight (k_proj at_))
  /\ has_shape (num_key_value_heads a * d) (hidden_size a) (weight (v_proj at_))
  /\ has_shape (hidden_size a) (num_attention_heads a * d) (weight (o_proj at_)).

Definition block_shaped (a : ModelArgs (F:=F)) (b : TransformerBlock (F:=F)) : Prop :=
  attn_shaped a (self_attn b)
  /\ has_shape (intermediate_size a) (hidden_size a) (weight (gate_proj (mlp b)))
  /\ has_shape (hidden_size a) (intermediate_size a) (weight (down_proj (mlp b)))
  /\ has_shape (intermediate_size a) (hidden_size a) (weight (up_proj (mlp b)))
  /\ length (norm_weight (input_layernorm b)) = hidden_size a
  /\ length (norm_weight (post_attention_layernorm b)) = hidden_size a.

Definition model_shaped (a : ModelArgs (F:=F)) (m : Llama (F:=F)) : Prop :=
  config_runs a
  /\ has_shape (vocab_size a) (hidden_size a) (emb_weight (embed_tokens m))
  /\ length (layers m) = num_hidden_layers a
  /\ Forall (block_shaped a) (layers m)
  /\ length (norm_weight (norm m)) = hidden_size a
  /\ has_shape (vocab_size a) (hidden_size a) (weight (lm_head m)).

End Construction.

(** ** server/app.py: sampling and the generation loop *)

Section Generation.
Context {F : Type} `{Arith F}.

(** The state of MLX's global random source and the sampling primitive
    [mx.random.categorical], which consumes it. *)
Context {Key : Type}.
Variable categorical : Key -> list F -> nat * Key.

(** Modelled from the spec: [mx.argmax] is MLX's.  A left-to-right scan
    that keeps the first maximum: a later entry replaces the running best
    only when it is strictly greater. *)
Fixpoint argmax_from (best : nat) (bv : F) (i : nat) (l : list F) : nat :=
  match l with
  | [] => best
  | x :: r => if fltb bv x then argmax_from i x (S i) r
              else argmax_from best bv (S i) r
  end.

Definition argmax (l : list F) : nat :=
  match l with
  | [] => 0
  | x :: r => argmax_from 0 x 1 r
  end.

(** The local function [sample] of [generate], on the logits of the one
    sequence of the batch. *)
Definition sample (temp : F) (key : Key) (logits : list F) : nat * Key :=
  if is_zero temp then (argmax logits, key)
  else categorical key (map (fun x => fmul x (fdiv fone temp)) logits).

(** The generator [generate(prompt, model, temp)] as a state machine: the
    local variables [y] and [cache] (and the random source) between two
    [yield]s. *)
Record GenState := {
  gen_y : list nat;
  gen_cache : option (list (option (KV (F:=F))));
  gen_key : Key
}.

(** The [model] argument of [generate]: any callable used as
    [model(y[None], cache=cache)]; [None] when the call raises. *)
Definition Model : Type :=
  list nat -> option (list (option (KV (F:=F))))
  -> option (list (list F) * list (option (KV (F:=F)))).

(** A [Llama] called this way; [mask] takes its default [None]. *)
Definition Llama_model (m : Llama (F:=F)) : Model :=
  fun y cache => Llama_call m y None cache.

(** What one [next()] on the generator does. *)
Inductive GenStep :=
| Yielded (y : nat) (st : GenState)   (** [yield y] *)
| Raised                              (** an exception of the model call propagates *)
| Stopped.                            (** the generator returns ([StopIteration]) *)

(** [y = prompt; cache = None] *)
Definition generate_init (prompt : list nat) (key : Key) : GenState :=
  {| gen_y := prompt; gen_cache := None; gen_key := key |}.

(** One iteration of [while True]: lines 85-88.  The exception written
    out is that of the model call; the last position and [sample] are
    modelled on logits that are not empty ([mx.argmax] raises on an
    empty axis, which a model with an empty vocabulary would give). *)
Definition generate_next (model : Model) (temp : F) (st : GenState) : GenStep :=
  match model (gen_y st) (gen_cache st) with
  | None => Raised
  | Some (logits, cache) =>
      let logits := List.last logits [] in
      let '(y, key) := sample temp (gen_key st) logits in
      Yielded y {| gen_y := [y]; gen_cache := Some cache; gen_key := key |}
  end.

(** The first [n] tokens the generator yields, with the state it is
    suspended in; [None] when a step does not yield. *)
Fixpoint generate_take (model : Model) (temp : F) (n : nat) (st : GenState)
  : option (list nat * GenState) :=
  match n with
  | 0 => Some ([], st)
  | S n =>
      match generate_next model temp st with
      | Yielded y st' =>
          match generate_take model temp n st' with
          | Some (ys, st'') => Some (y :: ys, st'')
          | None => None
          end
      | _ => None
      end
  end.

(** Every state the generator is suspended in after a [yield] carries one
    token and a cache with a slot per layer. *)
Definition gen_running (m : Llama (F:=F)) (st : GenState) : Prop :=
  exists y c, gen_y st = [y] /\ gen_cache st = Some c
              /\ length c = length (layers m).

End Generation.

(** ** server/app.py: the two locks and [get_llama_model] *)

Inductive lock := llama_outer_lock | llama_inner_lock.

#[export] Instance lock_eq_dec : EqDecision lock.
Proof. solve_decision. Defined.

Inductive exn :=
| GeneratorExit          (** raised at the [yield] by [close()] *)
| RuntimeError           (** [release()] of an unlocked lock *)
| OtherError (n : nat).  (** any other exception *)

(** How the consumer resumes a suspended generator. *)
Inductive resume :=
| Next                   (** [next()]: the request is done with the model *)
| Throw (e : exn).       (** [throw(e)], and [close()] as [Throw GeneratorExit] *)

(** Generator bodies over the two locks and the local variable
    [release_outer_lock].  The continuation of a lock operation receives
    [None] when the call returned and [Some e] when it raised [e]. *)
Inductive prog (A : Type) : Type :=
| Ret (a : A)
| Raise (e : exn)
| Acquire (l : lock) (k : option exn -> prog A)
| Release (l : lock) (k : option exn -> prog A)
| Assign (b : bool) (k : prog A)
| Read (k : bool -> prog A)
| Yield (k : resume -> prog A).

Arguments Ret {A} a.
Arguments Raise {A} e.
Arguments Acquire {A} l k.
Arguments Release {A} l k.
Arguments Assign {A} b k.
Arguments Read {A} k.
Arguments Yield {A} k.

Fixpoint bind {A B} (p : prog A) (f : A -> prog B) : prog B :=
  match p with
  | Ret a => f a
  | Raise e => Raise e
  | Acquire l k => Acquire l (fun r => bind (k r) f)
  | Release l k => Release l (fun r => bind (k r) f)
  | Assign b k => Assign b (bind k f)
  | Read k => Read (fun b => bind (k b) f)
  | Yield k => Yield (fun r => bind (k r) f)
  end.

Declare Scope prog_scope.
Delimit Scope prog_scope with prog.
Notation "p ;; q" := (bind p (fun _ => q))
  (at level 100, q at level 200, right associativity) : prog_scope.
#[local] Open Scope prog_scope.

Definition raise_if (r : option exn) : prog unit :=
  match r with None => Ret tt | Some e => Raise e end.

(** [l.acquire()], [l.release()], [release_outer_lock = b], [yield _llama_model] *)
Definition acquire (l : lock) : prog unit := Acquire l raise_if.
Definition release (l : lock) : prog unit := Release l raise_if.
Definition assign (b : bool) : prog unit := Assign b (Ret tt).
Definition yield : prog unit :=
  Yield (fun r => match r with Next => Ret tt | Throw e => Raise e end).

(** [try: body finally: fin].  [fin] runs when [body] returns and when it
    raises (then the exception is raised again, unless [fin] raises
    itself); a [yield] inside [body] stays protected after it resumes. *)
Fixpoint try_finally (body fin : prog unit) : prog unit :=
  match body with
  | Ret a => fin
  | Raise e => fin ;; Raise e
  | Acquire l k => Acquire l (fun r => try_finally (k r) fin)
  | Release l k => Release l (fun r => try_finally (k r) fin)
  | Assign b k => Assign b (try_finally k fin)
  | Read k => Read (fun b => try_finally (k b) fin)
  | Yield k => Yield (fun r => try_finally (k r) fin)
  end.

Definition get_llama_model : prog unit :=
  acquire llama_outer_lock ;;
  assign true ;;
  try_finally
    (acquire llama_inner_lock ;;
     try_finally
       (release llama_outer_lock ;;
        assign false ;;
        yield)
       (release llama_inner_lock))
    (Read (fun release_outer_lock =>
       if release_outer_lock then release llama_outer_lock else Ret tt)).

(** *** One request running the generator

    [held_outer] and [held_inner] record which locks this request has
    acquired and not released. *)
Record Frame := {
  release_outer_lock : bool;
  held_outer : bool;
  held_inner : bool
}.

Definition holds (f : Frame) (l : lock) : bool :=
  match l with llama_outer_lock => held_outer f | llama_inner_lock => held_inner f end.

Definition set_held (f : Frame) (l : lock) (b : bool) : Frame :=
  match l with
  | llama_outer_lock =>
      {| release_outer_lock := release_outer_lock f; held_outer := b; held_inner := held_inner f |}
  | llama_inner_lock =>
      {| release_outer_lock := release_outer_lock f; held_outer := held_outer f; held_inner := b |}
  end.

Definition set_flag (f : Frame) (b : bool) : Frame :=
  {| release_outer_lock := b; held_outer := held_outer f; held_inner := held_inner f |}.

Definition frame0 : Frame :=
  {| release_outer_lock := false; held_outer := false; held_inner := false |}.

(** Where a run of the generator stops. *)
Inductive status :=
| Suspended (k : resume -> prog unit)   (** at the [yield] *)
| Returned                              (** the body ran to its end *)
| Failed (e : exn).                     (** an exception left the generator *)

(** Run until the next [yield] or the exit.  [fails] tells, for each
    [acquire()] in turn, whether it raises (an acquisition that returns
    has waited for the lock); [release()] raises [RuntimeError] on a lock
    the request does not hold. *)
Fixpoint run (p : prog unit) (fails : list (option exn)) (f : Frame)
  : status * Frame * list (option exn) :=
  match p with
  | Ret _ => (Returned, f, fails)
  | Raise e => (Failed e, f, fails)
  | Acquire l k =>
      match fails with
      | Some e :: rest => run (k (Some e)) rest f
      | None :: rest => run (k None) rest (set_held f l true)
      | [] => run (k None) [] (set_held f l true)
      end
  | Release l k =>
      if holds f l then run (k None) fails (set_held f l false)
      else run (k (Some RuntimeError)) fails f
  | Assign b k => run k fails (set_flag f b)
  | Read k => run (k (release_outer_lock f)) fails f
  | Yield k => (Suspended k, f, fails)
  end.

(** *** Concurrent requests

    The two module-level [threading.Lock]s are two booleans (a [Lock] has
    no owner); every request runs its own copy of [get_llama_model]. *)
Record Thread := { code : prog unit; frame : Frame }.

Record System := {
  outer_locked : bool;
  inner_locked : bool;
  threads : list Thread
}.

Definition locked (s : System) (l : lock) : bool :=
  match l with llama_outer_lock => outer_locked s | llama_inner_lock => inner_locked s end.

Definition update (s : System) (l : option (lock * bool)) (i : nat) (t : Thread) : System :=
  let ts := <[i := t]> (threads s) in
  match l with
  | Some (llama_outer_lock, b) =>
      {| outer_locked := b; inner_locked := inner_locked s; threads := ts |}
  | Some (llama_inner_lock, b) =>
      {| outer_locked := outer_locked s; inner_locked := b; threads := ts |}
  | None =>
      {| outer_locked := outer_locked s; inner_locked := inner_locked s; threads := ts |}
  end.

(** What happens at a thread's next operation: it goes through, an
    [acquire()] raises, or the consumer resumes the suspended generator. *)
Inductive choice :=
| Go
| Raises (e : exn)
| Resume (r : resume).

(** One atomic step of request [i]; [None] when the request cannot move
    (it is blocked on a locked lock, it has exited, or the choice does
    not apply). *)
Definition exec (s : System) (i : nat) (c : choice) : option System :=
  match threads s !! i with
  | None => None
  | Some t =>
      match code t, c with
      | Acquire l k, Go =>
          if locked s l then None
          else Some (update s (Some (l, true)) i
                       {| code := k None; frame := set_held (frame t) l true |})
      | Acquire l k, Raises e =>
          Some (update s None i {| code := k (Some e); frame := frame t |})
      | Release l k, Go =>
          if locked s l
          then Some (update s (Some (l, false)) i
                       {| code := k None; frame := set_held (frame t) l false |})
          else Some (update s None i
                       {| code := k (Some RuntimeError); frame := frame t |})
      | Assign b k, Go =>
          Some (update s None i {| code := k; frame := set_flag (frame t) b |})
      | Read k, Go =>
          Some (update s None i
                  {| code := k (release_outer_lock (frame t)); frame := frame t |})
      | Yield k, Resume r =>
          Some (update s None i {| code := k r; frame := frame t |})
      | _, _ => None
      end
  end.

Definition init (n : nat) : System :=
  {| outer_locked := false; inner_locked := false;
     threads := replicate n {| code := get_llama_model; frame := frame0 |} |}.

Inductive reachable (n : nat) : System -> Prop :=
| reachable_init : reachable n (init n)
| reachable_step s i c s' :
    reachable n s -> exec s i c = Some s' -> reachable n s'.

(** A schedule run from a state, for concrete executions. *)
Fixpoint exec_all (s : System) (sched : list (nat * choice)) : option System :=
  match sched with
  | [] => Some s
  | (i, c) :: rest =>
      match exec s i c with
      | Some s' => exec_all s' rest
      | None => None
      end
  end.

(** The program points of [get_llama_model] a request rests at. *)
Definition at_entry (t : Thread) : Prop := code t = get_llama_model.

Definition exited (t : Thread) : Prop :=
  match code t with Ret _ | Raise _ => True | _ => False end.

Definition waits_for_inner (t : Thread) : Prop :=
  match code t with Acquire llama_inner_lock _ => True | _ => False end.

Definition using_model (t : Thread) : Prop :=
  match code t with Yield _ => True | _ => False end.

(** *** The program points of [get_llama_model]

    The continuation of a program after its first operation. *)
Definition after_call (p : prog unit) (r : option exn) : prog unit :=
  match p with Acquire _ k | Release _ k => k r | _ => p end.

Definition after_assign (p : prog unit) : prog unit :=
  match p with Assign _ k => k | _ => p end.

Definition after_read (p : prog unit) (b : bool) : prog unit :=
  match p with Read k => k b | _ => p end.

Definition after_yield (p : prog unit) (r : resume) : prog unit :=
  match p with Yield k => k r | _ => p end.

Inductive point :=
| AtEntry                     (** line 35, before [llama_outer_lock.acquire()] *)
| GotOuter                    (** line 36 *)
| WaitInner                   (** line 38, before [llama_inner_lock.acquire()] *)
| InnerFailed (e : exn)       (** line 46 after line 38 raised [e] *)
| GiveBackOuter (e : exn)     (** line 47 *)
| GotInner                    (** line 40, before [llama_outer_lock.release()] *)
| Through                   (** line 41 *)
| AtYield                     (** line 42, the request uses the model *)
| Leaving (r : resume)        (** line 44, before [llama_inner_lock.release()] *)
| LeftInner (r : resume)      (** line 46 after line 44 *)
| Exit (r : option exn).      (** the generator has returned or raised *)

Definition code_at (pt : point) : prog unit :=
  let p_got_outer := after_call get_llama_model None in
  let p_wait_inner := after_assign p_got_outer in
  let p_got_inner := after_call p_wait_inner None in
  let p_through := after_call p_got_inner None in
  let p_yield := after_assign p_through in
  match pt with
  | AtEntry => get_llama_model
  | GotOuter => p_got_outer
  | WaitInner => p_wait_inner
  | InnerFailed e => after_call p_wait_inner (Some e)
  | GiveBackOuter e => after_read (after_call p_wait_inner (Some e)) true
  | GotInner => p_got_inner
  | Through => p_through
  | AtYield => p_yield
  | Leaving r => after_yield p_yield r
  | LeftInner r => after_call (after_yield p_yield r) None
  | Exit None => Ret tt
  | Exit (Some e) => Raise e
  end.

(** Which locks a request holds at a point, and what
    [release_outer_lock] is there ([None]: not yet assigned). *)
Definition point_holds (pt : point) (l : lock) : bool :=
  match pt, l with
  | (GotOuter | WaitInner | InnerFailed _ | GiveBackOuter _ | GotInner), llama_outer_lock => true
  | (GotInner | Through | AtYield | Leaving _), llama_inner_lock => true
  | _, _ => false
  end.

Definition point_flag (pt : point) : option bool :=
  match pt with
  | WaitInner | InnerFailed _ | GiveBackOuter _ | GotInner | Through => Some true
  | AtYield | Leaving _ | LeftInner _ => Some false
  | AtEntry | GotOuter | Exit _ => None
  end.

Definition thread_at (t : Thread) (pt : point) : Prop :=
  code t = code_at pt
  /\ (forall l, holds (frame t) l = point_holds pt l)
  /\ (forall b, point_flag pt = Some b -> release_outer_lock (frame t) = b).

(** The invariant of the turnstile: every request is at a program point
    of [get_llama_model], holding what the point says; a lock some
    request holds is locked, and no other request holds it. *)
Definition lock_ok (s : System) (l : lock) : Prop :=
  forall i t, threads s !! i = Some t -> holds (frame t) l = true ->
    locked s l = true
    /\ forall j t', threads s !! j = Some t' -> holds (frame t') l = true -> j = i.

Definition turnstile_inv (s : System) : Prop :=
  (forall i t, threads s !! i = Some t -> exists pt, thread_at t pt)
  /\ forall l, lock_ok s l.

(** A concrete run of three requests: request 0 goes through the
    turnstile and is suspended at its [yield]; request 1 takes the outer
    lock and waits for the inner one; request 2 has not moved. *)
Definition turnstile_schedule : list (nat * choice) :=
  [(0, Go); (0, Go); (0, Go); (0, Go); (0, Go); (1, Go); (1, Go)].

Definition turnstile_demo : System :=
  default (init 3) (exec_all (init 3) turnstile_schedule).

(** The requests of the turnstile that can move.  A lock that is taken
    has a holder among the requests. *)
Definition lock_has_holder (s : System) (l : lock) : Prop :=
  locked s l = true ->
  exists i t, threads s !! i = Some t /\ holds (frame t) l = true.

(** A choice that is no exception raised into the request: the
    operation goes through, or the consumer asks for the next value. *)
Definition plain (c : choice) : Prop :=
  match c with Go | Resume Next => True | _ => False end.

(** The operations a generator body still has before it, along its
    longest path, when [release_outer_lock] has the value [flag]; the sum
    over the requests bounds the steps the system can still take. *)
Fixpoint height (p : prog unit) (flag : bool) : nat :=
  match p with
  | Ret _ | Raise _ => 0
  | Acquire _ k | Release _ k =>
      S (Nat.max (height (k None) flag) (height (k (Some RuntimeError)) flag))
  | Assign b k => S (height k b)
  | Read k => S (height (k flag) flag)
  | Yield k =>
      S (Nat.max (height (k Next) flag) (height (k (Throw GeneratorExit)) flag))
  end.

Definition work_left (s : System) : nat :=
  list_sum (map (fun t => height (code t) (release_outer_lock (frame t))) (threads s)).

(** Every choice of a schedule is plain. *)
Definition plain_schedule (sched : list (nat * choice)) : Prop :=
  Forall (fun ic => plain ic.2) sched.

(** ** server/app.py: [convert_chat]

    Python strings as [String.string]; the function concatenates them
    and compares roles with ASCII constants. *)

Record CompletionRequestMessage := {
  role : String.string;
  content : String.string
}.

(** The characters [str.rstrip()] removes, among the first 256 code
    points: those with [str.isspace()]. *)
Definition is_space (c : Ascii.ascii) : bool :=
  let n := Ascii.nat_of_ascii c in
  ((9 <=? n) && (n <=? 13)) || ((28 <=? n) && (n <=? 32))
  || (n =? 133) || (n =? 160).

Fixpoint rstrip (s : String.string) : String.string :=
  match s with
  | String.EmptyString => String.EmptyString
  | String.String c r =>
      match rstrip r with
      | String.EmptyString =>
          if is_space c then String.EmptyString else String.String c String.EmptyString
      | r' => String.String c r'
      end
  end.

Definition newline : String.string :=
  String.String (Ascii.ascii_of_nat 10) String.EmptyString.

(** One iteration of [for line in messages]: the three [if]s in turn. *)
Definition convert_chat_line (system user assistant prompt : String.string)
    (line : CompletionRequestMessage) : String.string :=
  let prompt :=
    if String.eqb (role line) "system"%string
    then String.append prompt (String.append system (String.append (content line) newline))
    else prompt in
  let prompt :=
    if String.eqb (role line) "user"%string
    then String.append prompt (String.append user (String.append (content line) newline))
    else prompt in
  let prompt :=
    if String.eqb (role line) "assistant"%string
    then String.append prompt (String.append assistant (String.append (content line) newline))
    else prompt in
  prompt.

Definition convert_chat (messages : list CompletionRequestMessage) : String.string :=
  let prompt := String.EmptyString in
  let system := String.EmptyString in
  let user := "### Instruction: "%string in
  let assistant := "### Response: "%string in
  let prompt := fold_left (convert_chat_line system user assistant) messages prompt in
  String.append prompt (rstrip assistant).

(** The text one message adds to the prompt. *)
Definition chat_line (line : CompletionRequestMessage) : String.string :=
  convert_chat_line String.EmptyString "### Instruction: "%string
    "### Response: "%string String.EmptyString line.

(** ** server/app.py: the token loops of [chat_completions] *)

Section Completion.
Context {F : Type} `{Arith F}.
Context {Key : Type}.
Variable categorical : Key -> list F -> nat * Key.

(** [tokenizer.decode], on a list of token ids; on one id ([token.item()])
    it is the decoding of the one-element list. *)
Variable decode : list nat -> String.string.

(** Lines 165-172:
    [for token, _ in zip(generate(prompt, model, temperature), range(max_tokens))]
    with [break] on the end-of-sequence token.  [zip] asks the generator
    first and the range second, so the generator runs once more when the
    range is exhausted, and that token is dropped.  The result is
    [tokens] and the state the generator is left in; [None] when the
    model call raises. *)
Fixpoint collect_tokens (model : Model (F:=F)) (temp : F) (eos_token_id : nat)
    (max_tokens : nat) (st : GenState (F:=F) (Key:=Key)) (tokens : list nat)
  : option (list nat * GenState (F:=F) (Key:=Key)) :=
  match generate_next categorical model temp st with
  | Raised => None
  | Stopped => Some (tokens, st)
  | Yielded token st' =>
      match max_tokens with
      | 0 => Some (tokens, st')
      | S remaining =>
          if token =? eos_token_id then Some (tokens, st')
          else collect_tokens model temp eos_token_id remaining st' (tokens ++ [token])
      end
  end.

(** What the loop has done when it ends: it has kept the tokens [ys]
    and dropped the token [y] the generator yielded after them. *)
Definition loop_ends (model : Model (F:=F)) (temp : F) (eos max_tokens : nat)
    (st : GenState (F:=F) (Key:=Key)) (ys : list nat) (st' : GenState (F:=F) (Key:=Key))
  : Prop :=
  length ys <= max_tokens
  /\ Forall (fun t => t <> eos) ys
  /\ exists y,
       generate_take categorical model temp (S (length ys)) st = Some (ys ++ [y], st')
       /\ (length ys < max_tokens -> y = eos).

Record CompletionUsage := {
  prompt_tokens : nat;
  completion_tokens : nat;
  total_tokens : nat
}.

(** What the response depends on besides identifiers and the clock. *)
Record CreateChatCompletionResponse := {
  message_content : String.string;
  usage : CompletionUsage
}.

(** The non-streaming branch, lines 165-194. *)
Definition chat_completion (model : Model (F:=F)) (temp : F) (eos_token_id : nat)
    (max_tokens : nat) (prompt : list nat) (key : Key)
  : option CreateChatCompletionResponse :=
  match collect_tokens model temp eos_token_id max_tokens
          (generate_init prompt key) [] with
  | None => None
  | Some (tokens, _) =>
      let s := decode tokens in
      Some {| message_content := s;
              usage := {| prompt_tokens := length prompt;
                          completion_tokens := length tokens;
                          total_tokens := length prompt + length tokens |} |}
  end.

(** The streaming branch, lines 137-161: the [content] of the chunks
    sent, and the state the generator is left in ([None] when the model
    call raised after these chunks). *)
Fixpoint event_generator (model : Model (F:=F)) (temp : F) (eos_token_id : nat)
    (max_tokens : nat) (st : GenState (F:=F) (Key:=Key))
  : list String.string * option (GenState (F:=F) (Key:=Key)) :=
  match generate_next categorical model temp st with
  | Raised => ([], None)
  | Stopped => ([], Some st)
  | Yielded token st' =>
      match max_tokens with
      | 0 => ([], Some st')
      | S remaining =>
          if token =? eos_token_id then ([], Some st')
          else
            let s := decode [token] in
            let '(rest, final) := event_generator model temp eos_token_id remaining st' in
            (s :: rest, final)
      end
  end.

End Completion.

(** ** A concrete arithmetic

    Fixed-point numbers with ten fractional bits, extended with minus
    infinity; it instantiates [Arith] and its laws for concrete runs. *)
Inductive fixed := NegInf | Fix (z : Z).

Definition fx_one : Z := 1024.

Definition fx_add (a b : fixed) : fixed :=
  match a, b with
  | Fix x, Fix y => Fix (x + y)
  | _, _ => NegInf
  end.

Definition fx_mul (a b : fixed) : fixed :=
  match a, b with
  | Fix 0, _ => Fix 0
  | Fix x, Fix y => Fix (x * y / fx_one)
  | _, _ => NegInf
  end.

Definition fx_div (a b : fixed) : fixed :=
  match a, b with
  | Fix 0, _ => Fix 0
  | Fix x, Fix y => Fix (x * fx_one / y)
  | Fix _, NegInf => Fix 0
  | NegInf, _ => NegInf
  end.

Definition fx_neg (a : fixed) : fixed :=
  match a with Fix x => Fix (- x) | NegInf => NegInf end.

Definition clamp (lo hi x : Z) : Z := Z.max lo (Z.min hi x).

(** [2^x] with the exponent clamped, a stand-in for the exponential *)
Definition fx_exp (a : fixed) : fixed :=
  match a with
  | Fix x => Fix (Z.shiftl fx_one (clamp (-30) 30 (x / fx_one)))
  | NegInf => Fix 0
  end.

Definition fx_rsqrt (a : fixed) : fixed :=
  match a with
  | Fix x => Fix (fx_one * fx_one / Z.sqrt (x * fx_one))
  | NegInf => Fix 0
  end.

Definition fx_sigmoid (a : fixed) : fixed :=
  match fx_exp a with
  | Fix e => Fix (e * fx_one / (fx_one + e))
  | NegInf => Fix 0
  end.

(** Coarse bounded stand-ins for cosine and sine *)
Definition fx_cos (a : fixed) : fixed :=
  match a with
  | Fix x => Fix (fx_one - clamp 0 (2 * fx_one) (x * x / (2 * fx_one)))
  | NegInf => Fix 0
  end.

Definition fx_sin (a : fixed) : fixed :=
  match a with
  | Fix x => Fix (clamp (- fx_one) fx_one x)
  | NegInf => Fix 0
  end.

(** [a ^ b] for the two exponents the model uses: a negative power is
    taken as the inverse, a zero power as one. *)
Definition fx_pow (a b : fixed) : fixed :=
  match a, b with
  | Fix x, Fix y =>
      if (y <? 0)%Z then Fix (fx_one * fx_one / x)
      else if (y =? 0)%Z then Fix fx_one
      else Fix x
  | _, _ => NegInf
  end.

Definition fx_ltb (a b : fixed) : bool :=
  match a, b with
  | Fix x, Fix y => (x <? y)%Z
  | NegInf, Fix _ => true
  | _, NegInf => false
  end.

Definition fx_is_zero (a : fixed) : bool :=
  match a with Fix 0 => true | _ => false end.

#[export] Instance fixed_arith : Arith fixed := {|
  fzero := Fix 0;
  fone := Fix fx_one;
  fadd := fx_add;
  fmul := fx_mul;
  fdiv := fx_div;
  fneg := fx_neg;
  fexp := fx_exp;
  frsqrt := fx_rsqrt;
  fsigmoid := fx_sigmoid;
  fcos := fx_cos;
  fsin := fx_sin;
  fpow := fx_pow;
  of_nat := fun n => Fix (fx_one * Z.of_nat n);
  fltb := fx_ltb;
  is_zero := fx_is_zero;
  to_float32 := fun x => x;
  of_float32 := fun x => x;
  mask_neg := NegInf
|}.

(** *** A small concrete model

    Two layers, four attention heads sharing two key/value heads,
    [head_dim = 2], ten tokens. *)
Definition tiny_weight (rows cols : nat) : list (list fixed) :=
  map (fun i =>
         map (fun j => Fix (Z.of_nat ((7 * i + 13 * j + 3) mod 11) * 100 - 500))
             (seq 0 cols))
      (seq 0 rows).

Definition tiny_args : ModelArgs (F:=fixed) :=
  {| hidden_size := 8; num_attention_heads := 4; num_hidden_layers := 2;
     num_key_value_heads := 2; max_position_embeddings := 16;
     rms_norm_eps := Fix 1; intermediate_size := 6; vocab_size := 10;
     rope_theta := 100; rope_scaling := None |}.

(** A configuration violating both invariants: [10] is no multiple of
    [3], and [3] is no multiple of [2]. *)
Definition skewed_args : ModelArgs (F:=fixed) :=
  {| hidden_size := 10; num_attention_heads := 3; num_hidden_layers := 2;
     num_key_value_heads := 2; max_position_embeddings := 16;
     rms_norm_eps := Fix 1; intermediate_size := 6; vocab_size := 10;
     rope_theta := 100; rope_scaling := None |}.

Definition empty_model : Llama (F:=fixed) :=
  {| args := tiny_args; llama_vocab_size := 0;
     embed_tokens := {| emb_weight := [] |}; layers := [];
     norm := {| norm_weight := []; eps := Fix 0 |};
     lm_head := {| weight := [] |} |}.

Definition tiny_model : Llama (F:=fixed) :=
  default empty_model (Llama_init tiny_weight tiny_args).

Definition empty_attention : Attention (F:=fixed) :=
  {| attn_hidden_size := 0; attn_num_attention_heads := 0;
     attn_num_key_value_heads := 0; repeats := 0; head_dim := 0;
     scale := Fix 0;
     q_proj := {| weight := [] |}; k_proj := {| weight := [] |};
     v_proj := {| weight := [] |}; o_proj := {| weight := [] |};
     rope := {| dims := 0; base := 0 |} |}.

Definition tiny_attention : Attention (F:=fixed) :=
  default empty_attention (Attention_init tiny_weight tiny_args).

(** Three rows of hidden state for the small model. *)
Definition tiny_hidden : list (list fixed) :=
  map (fun i => map (fun j => Fix (Z.of_nat ((5 * i + 3 * j + 1) mod 7) * 300 - 900))
                    (seq 0 8))
      (seq 0 3).

(** The small configuration with as many key/value heads as attention
    heads, and its attention layer. *)
Definition mha_args : ModelArgs (F:=fixed) :=
  {| hidden_size := 8; num_attention_heads := 4; num_hidden_layers := 2;
     num_key_value_heads := 4; max_position_embeddings := 16;
     rms_norm_eps := Fix 1; intermediate_size := 6; vocab_size := 10;
     rope_theta := 100; rope_scaling := None |}.

Definition mha_attention : Attention (F:=fixed) :=
  default empty_attention (Attention_init tiny_weight mha_args).

(** Two random sources for the small model: one without state, one that
    counts its draws. *)
Definition tiny_categorical (k : unit) (_ : list fixed) : nat * unit := (0, k).

Definition counting_categorical (k : nat) (_ : list fixed) : nat * nat :=
  (k mod 10, S k).

(** Request 0 at [llama_outer_lock.release()], holding both locks. *)
Definition turnstile_releasing : System :=
  default (init 3) (exec_all (init 3) [(0, Go); (0, Go); (0, Go)]).

(** Two requests served one after the other; the second is closed by its
    consumer. *)
Definition turnstile_full_schedule : list (nat * choice) :=
  [(0, Go); (0, Go); (0, Go); (0, Go); (0, Go); (1, Go); (1, Go);
   (0, Resume Next); (0, Go); (0, Go);
   (1, Go); (1, Go); (1, Go); (1, Resume (Throw GeneratorExit)); (1, Go); (1, Go)].

Definition turnstile_finished : System :=
  default (init 2) (exec_all (init 2) turnstile_full_schedule).

(** A tokenizer's [decode] for the small model: one letter per token. *)
Definition tiny_decode (tokens : list nat) : String.string :=
  String.concat String.EmptyString
    (map (fun t => String.String (Ascii.ascii_of_nat (97 + t)) String.EmptyString) tokens).

(** * Properties *)

(** ** Construction *)

Section ConstructionFacts.
Context {F : Type} `{Arith F}.
Variable initial_weight : nat -> nat -> list (list F).

Lemma Linear_init_Some (i o : nat) :
  i <> 0 ->
  Linear_init initial_weight i o = Some {| weight := initial_weight o i |}.
Proof.
  intros Hi. unfold Linear_init.
  destruct (Nat.eqb_spec i 0); [contradiction | reflexivity].
Qed.

Lemma Linear_init_inv (i o : nat) (l : Linear (F:=F)) :
  Linear_init initial_weight i o = Some l ->
  i <> 0 /\ weight l = initial_weight o i.
Proof.
  unfold Linear_init. destruct (Nat.eqb_spec i 0); [discriminate|].
  intros [= <-]. split; [assumption | reflexivity].
Qed.

Lemma Linear_init_None (i o : nat) :
  Linear_init initial_weight i o = None <-> i = 0.
Proof.
  unfold Linear_init. destruct (Nat.eqb_spec i 0); split; congruence.
Qed.

(** What [Attention.__init__] stores when it returns. *)
Lemma Attention_init_inv (a : ModelArgs (F:=F)) (at_ : Attention (F:=F)) :
  Attention_init initial_weight a = Some at_ ->
  let d := hidden_size a / num_attention_heads a in
  num_key_value_heads a <> 0 /\ num_attention_heads a <> 0 /\ d <> 0
  /\ attn_hidden_size at_ = hidden_size a
  /\ attn_num_attention_heads at_ = num_attention_heads a
  /\ attn_num_key_value_heads at_ = num_key_value_heads a
  /\ repeats at_ = num_attention_heads a / num_key_value_heads a
  /\ head_dim at_ = d
  /\ scale at_ = fpow (of_nat d) (fneg (fdiv fone (of_nat 2)))
  /\ rope at_ = {| dims := d; base := rope_theta a |}
  /\ weight (q_proj at_) = initial_weight (num_attention_heads a * d) (hidden_size a)
  /\ weight (k_proj at_) = initial_weight (num_key_value_heads a * d) (hidden_size a)
  /\ weight (v_proj at_) = initial_weight (num_key_value_heads a * d) (hidden_size a)
  /\ weight (o_proj at_) = initial_weight (hidden_size a) (num_attention_heads a * d).
Proof.
  unfold Attention_init. cbv zeta.
  destruct (Nat.eqb_spec (num_key_value_heads a) 0) as [|Hkv]; [discriminate|].
  destruct (Nat.eqb_spec (num_attention_heads a) 0) as [|Hah]; [discriminate|].
  destruct (Nat.eqb_spec (hidden_size a / num_attention_heads a) 0) as [|Hd];
    [discriminate|].
  assert (Hhid : hidden_size a <> 0)
    by (intros E; rewrite E in Hd; apply Hd; apply Nat.Div0.div_0_l).
  rewrite !Linear_init_Some by (try assumption; nia). simpl.
  intros [= <-]. simpl. repeat split; assumption.
Qed.

Lemma Attention_init_None (a : ModelArgs (F:=F)) :
  Attention_init initial_weight a = None <->
  num_key_value_heads a = 0 \/ num_attention_heads a = 0
  \/ hidden_size a < num_attention_heads a.
Proof.
  unfold Attention_init.
  destruct (Nat.eqb_spec (num_key_value_heads a) 0) as [Hk|Hk]; [tauto|].
  destruct (Nat.eqb_spec (num_attention_heads a) 0) as [Hh|Hh]; [tauto|].
  destruct (Nat.eqb_spec (hidden_size a / num_attention_heads a) 0) as [Hd|Hd].
  - apply Nat.div_small_iff in Hd; [tauto | assumption].
  - assert (Hhid : hidden_size a <> 0) by (intros E; rewrite E in Hd; apply Hd; apply Nat.Div0.div_0_l).
    rewrite !Linear_init_Some by (try assumption; nia). simpl.
    split; [discriminate|].
    intros [?|[?|Hlt]]; try contradiction.
    apply Nat.div_small_iff in Hlt; [contradiction | assumption].
Qed.

Lemma FeedForward_init_None (a : ModelArgs (F:=F)) :
  FeedForward_init initial_weight a = None <->
  hidden_size a = 0 \/ intermediate_size a = 0.
Proof.
  unfold FeedForward_init.
  destruct (Nat.eq_dec (hidden_size a) 0) as [Hh|Hh].
  - rewrite (proj2 (Linear_init_None _ _) Hh). simpl. tauto.
  - rewrite !(Linear_init_Some (hidden_size a)) by assumption. simpl.
    destruct (Nat.eq_dec (intermediate_size a) 0) as [Hi|Hi].
    + rewrite (proj2 (Linear_init_None _ _) Hi). simpl. tauto.
    + rewrite Linear_init_Some by assumption. simpl. split; [discriminate | tauto].
Qed.

Lemma TransformerBlock_init_None (a : ModelArgs (F:=F)) :
  TransformerBlock_init initial_weight a = None <->
  num_key_value_heads a = 0 \/ num_attention_heads a = 0
  \/ hidden_size a < num_attention_heads a \/ intermediate_size a = 0.
Proof.
  unfold TransformerBlock_init.
  destruct (Attention_init initial_weight a) as [at_|] eqn:Ea; simpl.
  - assert (Hn : ~ (num_key_value_heads a = 0 \/ num_attention_heads a = 0
                    \/ hidden_size a < num_attention_heads a)).
    { intros Hz. apply Attention_init_None in Hz. congruence. }
    destruct (FeedForward_init initial_weight a) as [ff|] eqn:Ef; simpl.
    + assert (Hf : ~ (hidden_size a = 0 \/ intermediate_size a = 0)).
      { intros Hz. apply FeedForward_init_None in Hz. congruence. }
      split; [discriminate | tauto].
    + apply FeedForward_init_None in Ef. split; [|reflexivity]. intros _.
      destruct Ef as [Ef|Ef]; [|tauto]. right. left.
      destruct (Nat.eq_dec (num_attention_heads a) 0); [assumption|].
      exfalso. apply Hn. right. right. lia.
  - apply Attention_init_None in Ea. split; [tauto | reflexivity].
Qed.

Lemma TransformerBlock_init_inv (a : ModelArgs (F:=F)) (b : TransformerBlock (F:=F)) :
  TransformerBlock_init initial_weight a = Some b ->
  Attention_init initial_weight a = Some (self_attn b)
  /\ FeedForward_init initial_weight a = Some (mlp b)
  /\ input_layernorm b = RMSNorm_init (hidden_size a) (rms_norm_eps a)
  /\ post_attention_layernorm b = RMSNorm_init (hidden_size a) (rms_norm_eps a).
Proof.
  unfold TransformerBlock_init.
  destruct (Attention_init initial_weight a) as [at_|]; simpl; [|discriminate].
  destruct (FeedForward_init initial_weight a) as [ff|]; simpl; [|discriminate].
  intros [= <-]. repeat split.
Qed.

(** What [Llama.__init__] puts into the model. *)
Lemma Llama_init_inv (a : ModelArgs (F:=F)) (m : Llama (F:=F)) :
  Llama_init initial_weight a = Some m ->
  hidden_size a <> 0
  /\ emb_weight (embed_tokens m) = initial_weight (vocab_size a) (hidden_size a)
  /\ length (layers m) = num_hidden_layers a
  /\ Forall (fun b => TransformerBlock_init initial_weight a = Some b) (layers m)
  /\ norm m = RMSNorm_init (hidden_size a) (rms_norm_eps a)
  /\ weight (lm_head m) = initial_weight (vocab_size a) (hidden_size a).
Proof.
  unfold Llama_init, Embedding_init.
  destruct (Nat.eqb_spec (hidden_size a) 0) as [|Hh]; [discriminate|]. simpl.
  destruct (mapM _ _) as [ls|] eqn:E; simpl; [|discriminate].
  rewrite Linear_init_Some by assumption. simpl. intros [= <-]. simpl.
  split; [assumption|]. split; [reflexivity|]. split.
  { apply length_mapM in E. rewrite length_seq in E. congruence. }
  split; [|split; reflexivity].
  apply mapM_Some_1 in E.
  induction E as [|x b l k Hb _ IH]; constructor; assumption.
Qed.

(** C5 (as amended): construction does not check the configuration
    invariants.  It fails, with [ZeroDivisionError], when
    [hidden_size = 0], or when at least one layer is built and
    [num_key_value_heads = 0], [num_attention_heads = 0],
    [hidden_size < num_attention_heads] (then [head_dim = 0] and
    [0 ** -0.5] raises) or [intermediate_size = 0].  Every configuration
    with positive sizes and [num_attention_heads <= hidden_size] is
    built, whether or not the invariants hold; and whatever is built has
    [head_dim] and [repeats] the rounded-down quotients. *)
Theorem Llama_init_does_not_check_invariants (a : ModelArgs (F:=F)) :
  ((hidden_size a = 0
    \/ (num_hidden_layers a <> 0
        /\ (num_key_value_heads a = 0 \/ num_attention_heads a = 0
            \/ hidden_size a < num_attention_heads a
            \/ intermediate_size a = 0))) ->
   Llama_init initial_weight a = None)
  /\ ((0 < num_key_value_heads a /\ 0 < num_attention_heads a
       /\ num_attention_heads a <= hidden_size a
       /\ 0 < intermediate_size a /\ 0 < vocab_size a) ->
      exists m, Llama_init initial_weight a = Some m)
  /\ (forall m, Llama_init initial_weight a = Some m ->
        length (layers m) = num_hidden_layers a /\
        Forall (fun b =>
                  head_dim (self_attn b) = hidden_size a / num_attention_heads a /\
                  repeats (self_attn b) = num_attention_heads a / num_key_value_heads a)
               (layers m)).
Proof.
  split; [|split].
  - intros Hz. destruct (Llama_init initial_weight a) as [m|] eqn:E; [|reflexivity].
    exfalso. apply Llama_init_inv in E as (Hh & _ & Hn & Hls & _).
    destruct Hz as [Hz|[Hl Hz]]; [contradiction|].
    apply TransformerBlock_init_None in Hz.
    destruct (layers m) as [|b ls]; [simpl in Hn; congruence|].
    inversion Hls; subst. congruence.
  - intros (Hkv & Hah & Hle & Hi & _).
    assert (Hb : is_Some (TransformerBlock_init initial_weight a)).
    { destruct (TransformerBlock_init initial_weight a) eqn:E; [eexists; reflexivity|].
      apply TransformerBlock_init_None in E. lia. }
    destruct Hb as [b Hb].
    unfold Llama_init, Embedding_init.
    destruct (Nat.eqb_spec (hidden_size a) 0) as [|Hh]; [lia|]. simpl.
    assert (Hm : mapM (fun _ : nat => TransformerBlock_init initial_weight a)
                   (seq 0 (num_hidden_layers a))
                 = Some (replicate (num_hidden_layers a) b)).
    { apply mapM_Some_2. generalize 0.
      induction (num_hidden_layers a) as [|n IH]; intros s; simpl; constructor;
        [exact Hb | apply IH]. }
    rewrite Hm. simpl. rewrite Linear_init_Some by assumption. simpl.
    eexists; reflexivity.
  - intros m Hm. apply Llama_init_inv in Hm as (_ & _ & Hn & Hls & _).
    split; [exact Hn|].
    eapply Forall_impl; [exact Hls|]. intros b Hb. simpl in Hb.
    apply TransformerBlock_init_inv in Hb as (Ha & _).
    apply Attention_init_inv in Ha. cbv zeta in Ha.
    destruct Ha as (_ & _ & _ & _ & _ & _ & Hr & Hd & _). split; assumption.
Qed.

(** A configuration satisfying the invariants is built into layers of
    the shape [attn_wf] describes. *)
Lemma Attention_init_wf (a : ModelArgs (F:=F)) (at_ : Attention (F:=F)) :
  config_valid a ->
  (forall r c, length (initial_weight r c) = r) ->
  Attention_init initial_weight a = Some at_ ->
  attn_wf at_.
Proof.
  intros [Hh Hm] Hw Hi. apply Attention_init_inv in Hi. cbv zeta in Hi.
  destruct Hi as (Hkv & Hah & Hd & E1 & E2 & E3 & E4 & E5 & _ & E7 & E8 & E9 & E10 & _).
  unfold attn_wf. rewrite E1, E2, E3, E4, E5, E7, E8, E9, E10, !Hw. simpl.
  assert (HH : num_attention_heads a
               = num_key_value_heads a * (num_attention_heads a / num_key_value_heads a))
    by (apply Nat.Div0.div_exact; assumption).
  repeat split; try lia; try assumption.
Qed.

Lemma Llama_init_wf (a : ModelArgs (F:=F)) (m : Llama (F:=F)) :
  config_valid a ->
  (forall r c, length (initial_weight r c) = r) ->
  Llama_init initial_weight a = Some m ->
  model_wf m.
Proof.
  intros Hv Hw Hi. apply Llama_init_inv in Hi as (_ & _ & _ & Hls & _).
  unfold model_wf. eapply Forall_impl; [exact Hls|]. intros b Hb. simpl in Hb.
  apply TransformerBlock_init_inv in Hb as (Ha & _).
  eapply Attention_init_wf; eassumption.
Qed.

(** A model whose parameters have the shapes of a configuration that
    runs is well formed. *)
Lemma attn_shaped_wf (a : ModelArgs (F:=F)) (at_ : Attention (F:=F)) :
  config_runs a -> attn_shaped a at_ -> attn_wf at_.
Proof.
  intros ([Hh Hm] & Hpos & _).
  intros (E1 & E2 & E3 & E4 & E5 & _ & E7 & [Hq _] & [Hk _] & [Hv _] & _).
  assert (Hah : num_attention_heads a <> 0) by (intros E; rewrite E in Hh; simpl in Hh; lia).
  assert (Hkv : num_key_value_heads a <> 0) by (intros E; rewrite E in Hm; simpl in Hm; lia).
  assert (Hd : hidden_size a / num_attention_heads a <> 0)
    by (intros E; rewrite E in Hh; lia).
  assert (HH : num_attention_heads a
               = num_key_value_heads a * (num_attention_heads a / num_key_value_heads a))
    by (apply Nat.Div0.div_exact; assumption).
  unfold attn_wf. rewrite E1, E2, E3, E4, E5, E7, Hq, Hk, Hv. simpl.
  repeat split; try lia; try assumption.
Qed.

Lemma model_shaped_wf (a : ModelArgs (F:=F)) (m : Llama (F:=F)) :
  model_shaped a m -> model_wf m.
Proof.
  intros (Hc & _ & _ & Hls & _). unfold model_wf.
  eapply Forall_impl; [exact Hls|]. intros b (Hb & _). simpl.
  eapply attn_shaped_wf; eassumption.
Qed.

(** [__init__] gives the parameters their shapes. *)
Lemma Llama_init_shaped (a : ModelArgs (F:=F)) (m : Llama (F:=F)) :
  config_valid a ->
  Nat.even (hidden_size a / num_attention_heads a) = true ->
  (forall r c, has_shape r c (initial_weight r c)) ->
  Llama_init initial_weight a = Some m ->
  model_shaped a m.
Proof.
  intros Hv He Hw Hi.
  apply Llama_init_inv in Hi as (Hh & Hemb & Hn & Hls & Hnorm & Hhead).
  split; [split; [exact Hv | split; [lia | exact He]]|].
  split; [rewrite Hemb; apply Hw|]. split; [exact Hn|].
  split; [|split; [rewrite Hnorm; apply length_replicate | rewrite Hhead; apply Hw]].
  eapply Forall_impl; [exact Hls|]. intros b Hb. simpl in Hb.
  apply TransformerBlock_init_inv in Hb as (Ha & Hf & Hn1 & Hn2).
  apply Attention_init_inv in Ha. cbv zeta in Ha.
  destruct Ha as (_ & _ & _ & E1 & E2 & E3 & E4 & E5 & E6 & E7 & E8 & E9 & E10 & E11).
  unfold FeedForward_init in Hf.
  destruct (Linear_init initial_weight (hidden_size a) (intermediate_size a))
    as [g|] eqn:Eg; simpl in Hf; [|discriminate].
  destruct (Linear_init initial_weight (intermediate_size a) (hidden_size a))
    as [d|] eqn:Ed; simpl in Hf; [|discriminate].
  injection Hf as Hf.
  apply Linear_init_inv in Eg as [_ Eg], Ed as [_ Ed].
  split.
  { unfold attn_shaped. cbv zeta. rewrite E8, E9, E10, E11.
    repeat split; try assumption; apply Hw. }
  rewrite <- Hf. simpl. rewrite Eg, Ed, Hn1, Hn2. simpl.
  repeat split; try apply Hw; apply length_replicate.
Qed.

End ConstructionFacts.

(** C5 (counterexample): a configuration violating both invariants is
    built all the same. *)
Lemma skewed_config_is_built :
  ~ (hidden_size skewed_args
       = num_attention_heads skewed_args
         * (hidden_size skewed_args / num_attention_heads skewed_args))
  /\ ~ (num_attention_heads skewed_args mod num_key_value_heads skewed_args = 0)
  /\ ~ config_valid skewed_args
  /\ Llama_init tiny_weight skewed_args <> None.
Proof.
  assert (Hh : hidden_size skewed_args
                <> num_attention_heads skewed_args
                   * (hidden_size skewed_args / num_attention_heads skewed_args))
    by (vm_compute; discriminate).
  split; [exact Hh|].
  split; [vm_compute; discriminate|].
  split; [intros [Hv _]; exact (Hh Hv)|].
  vm_compute; discriminate.
Qed.

(** ** The decoder stack: cache slots and the mask argument *)

Section StackFacts.
Context {F : Type} `{Arith F}.

Lemma run_layers_length ls : forall e x mask cache y cache',
  run_layers (F:=F) ls e x mask cache = Some (y, cache') ->
  length cache' = length cache.
Proof.
  induction ls as [|layer rest IH]; intros e x mask cache y cache' Hr; simpl in Hr.
  - congruence.
  - destruct (cache !! e) as [c|]; [|discriminate].
    destruct x as [|r x]; [discriminate|].
    destruct (TransformerBlock_call layer (r :: x) mask c) as [x1 c1].
    apply IH in Hr. rewrite length_insert in Hr. exact Hr.
Qed.

(** C10: the [mask] argument of [Llama.__call__] has no effect on the
    result: for every input [x], cache [c] and any two masks [m1], [m2],
    the calls return the same logits and cache (including the same
    failure).  The mask used is the one built inside the call: the causal
    mask when the sequence is longer than one token, none otherwise. *)
Theorem Llama_call_ignores_mask (m : Llama (F:=F)) (x : list nat)
    (m1 m2 : option (list (list F))) (c : option (list (option KV))) :
  Llama_call m x m1 c = Llama_call m x m2 c
  /\ Llama_call m x m1 c =
     match run_layers (layers m) 0 (Embedding_call (embed_tokens m) x)
             (if 1 <? length x then Some (causal_mask (length x))
              else None)
             (match c with
              | None => replicate (length (layers m)) None
              | Some c => c
              end) with
     | None => None
     | Some (h, cache) => Some (Linear_call (lm_head m) (RMSNorm_call (norm m) h), cache)
     end.
Proof.
  split; [reflexivity|].
  unfold Llama_call, Embedding_call. rewrite length_map. reflexivity.
Qed.

End StackFacts.

(** ** Sampling and the generation loop *)

Section GenerationFacts.
Context {F : Type} `{Arith F}.
Context {Key : Type}.
Variable categorical : Key -> list F -> nat * Key.

(** The scan invariant: [best] indexes a maximum of the entries seen so
    far, and is the first such index. *)
Lemma argmax_from_spec `{!ArithOrder F} (l : list F) :
  forall (pre : list F) (best : nat) (bv : F),
    pre !! best = Some bv ->
    (forall j x, pre !! j = Some x -> fltb bv x = false) ->
    (forall j x, j < best -> pre !! j = Some x -> fltb x bv = true) ->
    exists v, (pre ++ l) !! argmax_from best bv (length pre) l = Some v
      /\ (forall j x, (pre ++ l) !! j = Some x -> fltb v x = false)
      /\ (forall j x, j < argmax_from best bv (length pre) l ->
                      (pre ++ l) !! j = Some x -> fltb x v = true).
Proof.
  induction l as [|a l IH]; intros pre best bv Hb Hmax Hfirst; simpl.
  - rewrite app_nil_r. exists bv. auto.
  - replace (pre ++ a :: l) with ((pre ++ [a]) ++ l) by (rewrite <- app_assoc; reflexivity).
    replace (S (length pre)) with (length (pre ++ [a])) by (rewrite length_app; simpl; lia).
    destruct (fltb bv a) eqn:Hlt.
    + apply IH.
      * rewrite lookup_app_r by lia. rewrite Nat.sub_diag. reflexivity.
      * intros j x Hj.
        destruct (lookup_app_Some pre [a] j x) as [[Hj'|[Hge Hj']] _]; [exact Hj| |].
        -- destruct (fltb a x) eqn:Hax; [|reflexivity].
           pose proof (fltb_trans _ _ _ Hlt Hax) as Hbx.
           rewrite (Hmax _ _ Hj') in Hbx. discriminate.
        -- destruct (j - length pre) as [|n]; simpl in Hj'; [|discriminate].
           injection Hj' as <-. apply fltb_irrefl.
      * intros j x Hj Hjx.
        rewrite lookup_app_l in Hjx by exact Hj.
        destruct (fltb x a) eqn:Hxa; [reflexivity|].
        pose proof (fltb_negtrans _ _ _ (Hmax _ _ Hjx) Hxa). congruence.
    + apply IH.
      * rewrite lookup_app_l; [exact Hb | eapply lookup_lt_Some; exact Hb].
      * intros j x Hj.
        destruct (lookup_app_Some pre [a] j x) as [[Hj'|[Hge Hj']] _]; [exact Hj| |].
        -- eapply Hmax; exact Hj'.
        -- destruct (j - length pre) as [|n]; simpl in Hj'; [|discriminate].
           injection Hj' as <-. exact Hlt.
      * intros j x Hj Hjx.
        assert (j < length pre) by (apply lookup_lt_Some in Hb; lia).
        rewrite lookup_app_l in Hjx by assumption.
        eapply Hfirst; eassumption.
Qed.

(** C8: with [temp == 0] the sampled token is the index of a maximum
    logit, the lowest such index, and it does not depend on the random
    source, which is left untouched: every call on the same logits
    returns the same token id. *)
Theorem sample_greedy_is_first_argmax `{!ArithOrder F}
    (temp : F) (key : Key) (logits : list F) :
  is_zero temp = true ->
  logits <> [] ->
  exists (i : nat) (v : F),
    logits !! i = Some v
    /\ (forall j x, logits !! j = Some x -> fltb v x = false)
    /\ (forall j x, j < i -> logits !! j = Some x -> fltb x v = true)
    /\ forall key', sample categorical temp key' logits = (i, key').
Proof.
  intros Ht Hne. destruct logits as [|a l]; [congruence|].
  destruct (argmax_from_spec l [a] 0 a) as (v & Hv & Hmax & Hfirst).
  - reflexivity.
  - intros [|j] x Hj; simpl in Hj; [|discriminate].
    injection Hj as <-. apply fltb_irrefl.
  - intros j x Hj. lia.
  - exists (argmax_from 0 a 1 l), v. simpl in *.
    repeat split; try assumption.
    intros key'. unfold sample. rewrite Ht. reflexivity.
Qed.

Lemma generate_take_snoc (model : Model) temp n :
  forall (st0 : GenState (F:=F) (Key:=Key)) ys st y st',
    generate_take categorical model temp n st0 = Some (ys, st) ->
    generate_next categorical model temp st = Yielded y st' ->
    generate_take categorical model temp (S n) st0 = Some (ys ++ [y], st').
Proof.
  induction n as [|n IH]; intros st0 ys st y st' Ht Hn.
  - simpl in Ht. injection Ht as <- <-. simpl. rewrite Hn. reflexivity.
  - change (generate_take categorical model temp (S n) st0) with
      (match generate_next categorical model temp st0 with
       | Yielded y1 st1 =>
           match generate_take categorical model temp n st1 with
           | Some (ys1, st2) => Some (y1 :: ys1, st2)
           | None => None
           end
       | _ => None
       end) in Ht.
    change (generate_take categorical model temp (S (S n)) st0) with
      (match generate_next categorical model temp st0 with
       | Yielded y1 st1 =>
           match generate_take categorical model temp (S n) st1 with
           | Some (ys1, st2) => Some (y1 :: ys1, st2)
           | None => None
           end
       | _ => None
       end).
    destruct (generate_next categorical model temp st0) as [y1 st1| |]; try discriminate.
    destruct (generate_take categorical model temp n st1) as [[ys1 st2]|] eqn:E; [|discriminate].
    injection Ht as <- <-.
    rewrite (IH _ _ _ _ _ E Hn). reflexivity.
Qed.

End GenerationFacts.

(** ** The admission routine: every exit releases what was acquired *)

(** C6: on every exit path of [get_llama_model] no lock that was acquired
    is still held.  Whatever acquisitions raise: if the generator exits
    before its [yield] (an [acquire()] raised), both locks are released,
    and in particular when [llama_inner_lock.acquire()] raises after the
    outer lock was taken, the outer lock is released; otherwise it is
    suspended at the [yield] holding the inner lock only, and however the
    consumer resumes it ([next()], [throw(e)] or [close()]) it exits
    with both locks released. *)
Theorem get_llama_model_releases_locks :
  (forall fails : list (option exn),
     match run get_llama_model fails frame0 with
     | (Suspended k, f, _) =>
         held_inner f = true /\ held_outer f = false
         /\ forall (r : resume) (fails' : list (option exn)),
              exists f',
                run (k r) fails' f =
                  (match r with Next => Returned | Throw e => Failed e end, f', fails')
                /\ held_outer f' = false /\ held_inner f' = false
     | (Returned, _, _) => False
     | (Failed e, f, _) => held_outer f = false /\ held_inner f = false
     end)
  /\ (forall (e : exn) (rest : list (option exn)),
        exists f,
          run get_llama_model (None :: Some e :: rest) frame0 = (Failed e, f, rest)
          /\ held_outer f = false /\ held_inner f = false).
Proof.
  split.
  - intros fails.
    destruct fails as [|[e|] [|[e'|] rest]]; simpl; try (split; reflexivity);
      (split; [reflexivity|]; split; [reflexivity|];
       intros [|e1] fails'; simpl; eexists; repeat split).
  - intros e rest. simpl. eexists. repeat split.
Qed.

(** ** The turnstile *)

Lemma threads_update s lk i t : threads (update s lk i t) = <[i := t]> (threads s).
Proof. destruct lk as [[[] b]|]; reflexivity. Qed.

Lemma locked_update s lk i t l :
  locked (update s lk i t) l =
  match lk with
  | Some (l', b) => if decide (l = l') then b else locked s l
  | None => locked s l
  end.
Proof. destruct lk as [[[] b]|], l; reflexivity. Qed.

Lemma turnstile_inv_init n : turnstile_inv (init n).
Proof.
  split.
  - intros i t Ht. apply lookup_replicate in Ht as [-> _].
    exists AtEntry. split; [reflexivity|]. split; [intros []; reflexivity | discriminate].
  - intros l i t Ht Hh. apply lookup_replicate in Ht as [-> _].
    destruct l; discriminate.
Qed.

(** A step of request [i] that changes at most the lock [lk] keeps the
    invariant when the request's record of what it holds follows the
    lock, and an acquired lock was free. *)
Lemma turnstile_inv_update s i t t' lk :
  turnstile_inv s ->
  threads s !! i = Some t ->
  (exists pt, thread_at t' pt) ->
  (forall l,
     match lk with
     | Some (l', b) =>
         if decide (l = l')
         then holds (frame t) l = negb b /\ holds (frame t') l = b
              /\ (b = true -> locked s l = false)
         else holds (frame t') l = holds (frame t) l
     | None => holds (frame t') l = holds (frame t) l
     end) ->
  turnstile_inv (update s lk i t').
Proof.
  intros [Hloc Hlocks] Ht Hpt Hkind. split.
  - intros j tj. rewrite threads_update. intros Hj.
    destruct (decide (j = i)) as [->|Hne].
    + rewrite list_lookup_insert_eq in Hj by (eapply lookup_lt_Some; exact Ht).
      injection Hj as <-. exact Hpt.
    + rewrite list_lookup_insert_ne in Hj by congruence. eapply Hloc; exact Hj.
  - intros l j tj. rewrite threads_update, locked_update. intros Hj Hh.
    assert (Hother : forall j' t'', j' <> i ->
              <[i:=t']> (threads s) !! j' = Some t'' -> threads s !! j' = Some t'').
    { intros j' t'' Hne' Hl'. rewrite list_lookup_insert_ne in Hl' by congruence. exact Hl'. }
    specialize (Hkind l).
    destruct (decide (j = i)) as [->|Hne].
    + rewrite list_lookup_insert_eq in Hj by (eapply lookup_lt_Some; exact Ht).
      injection Hj as <-.
      destruct lk as [[l' b]|]; [destruct (decide (l = l')) as [->|Hdiff]|].
      * destruct Hkind as (Hold & Hnew & Hfree).
        rewrite Hh in Hnew. subst b. split; [reflexivity|].
        intros j' t'' Hj' Hh'. destruct (decide (j' = i)) as [->|Hne']; [reflexivity|].
        apply Hother in Hj'; [|exact Hne'].
        destruct (Hlocks l' j' t'' Hj' Hh') as [Hl _].
        rewrite Hfree in Hl by reflexivity. discriminate.
      * rewrite Hkind in Hh. destruct (Hlocks l i t Ht Hh) as [Hl Huniq].
        split; [exact Hl|].
        intros j' t'' Hj' Hh'. destruct (decide (j' = i)) as [->|Hne']; [reflexivity|].
        apply Hother in Hj'; [|exact Hne']. eapply Huniq; eassumption.
      * rewrite Hkind in Hh. destruct (Hlocks l i t Ht Hh) as [Hl Huniq].
        split; [exact Hl|].
        intros j' t'' Hj' Hh'. destruct (decide (j' = i)) as [->|Hne']; [reflexivity|].
        apply Hother in Hj'; [|exact Hne']. eapply Huniq; eassumption.
    + apply Hother in Hj; [|exact Hne].
      destruct (Hlocks l j tj Hj Hh) as [Hl Huniq].
      assert (Hti : holds (frame t) l = true -> False).
      { intros Hi. apply Hne. symmetry. eapply Huniq; eassumption. }
      assert (Hkeep : holds (frame t') l = holds (frame t) l ->
                forall j' t'', <[i:=t']> (threads s) !! j' = Some t'' ->
                  holds (frame t'') l = true -> j' = j).
      { intros Heq j' t'' Hj' Hh'. destruct (decide (j' = i)) as [->|Hne'].
        - rewrite list_lookup_insert_eq in Hj' by (eapply lookup_lt_Some; exact Ht).
          injection Hj' as <-. rewrite Heq in Hh'. destruct (Hti Hh').
        - apply Hother in Hj'; [|exact Hne']. eapply Huniq; eassumption. }
      destruct lk as [[l' b]|]; [destruct (decide (l = l')) as [->|Hl']|].
      * destruct Hkind as (Hold & Hnew & Hfree). destruct b.
        -- rewrite Hfree in Hl by reflexivity. discriminate.
        -- destruct (Hti Hold).
      * split; [exact Hl | exact (Hkeep Hkind)].
      * split; [exact Hl | exact (Hkeep Hkind)].
Qed.

#[local] Arguments locked : simpl never.
#[local] Arguments update : simpl never.

Ltac arrive PT :=
  exists PT; split; [reflexivity|]; split;
  [ intros []; simpl; congruence
  | intros b Hb; simpl in Hb; try discriminate; injection Hb as <-; simpl; congruence ].

Ltac step_to Hinv Ht PT :=
  eapply turnstile_inv_update;
  [ exact Hinv | exact Ht | arrive PT
  | intros []; simpl; repeat split; intros; congruence ].

Lemma turnstile_inv_step s i c s' :
  turnstile_inv s -> exec s i c = Some s' -> turnstile_inv s'.
Proof.
  intros Hinv Hex. unfold exec in Hex.
  destruct (threads s !! i) as [t|] eqn:Ht; [|discriminate].
  pose proof Hinv as [Hloc Hlocks].
  destruct (Hloc i t Ht) as (pt & Hcode & Hholds & Hflag).
  rewrite Hcode in Hex.
  pose proof (Hholds llama_outer_lock) as Hho.
  pose proof (Hholds llama_inner_lock) as Hhi.
  destruct pt as [| | |e|e| | | |[|e]|[|e]|[e|]]; simpl in Hflag, Hho, Hhi;
    try (pose proof (Hflag _ eq_refl) as Hfl; rewrite Hfl in Hex);
    cbn in Hex; destruct c; try discriminate;
    try (destruct (locked s _) eqn:Hlk; cbn in Hex; try discriminate);
    injection Hex as <-.
  - step_to Hinv Ht GotOuter.
  - step_to Hinv Ht (Exit (Some e)).
  - step_to Hinv Ht WaitInner.
  - step_to Hinv Ht GotInner.
  - step_to Hinv Ht (InnerFailed e).
  - step_to Hinv Ht (GiveBackOuter e).
  - step_to Hinv Ht (Exit (Some e)).
  - destruct (Hlocks llama_outer_lock i t Ht Hho) as [Hl _]. congruence.
  - step_to Hinv Ht Through.
  - destruct (Hlocks llama_outer_lock i t Ht Hho) as [Hl _]. congruence.
  - step_to Hinv Ht AtYield.
  - step_to Hinv Ht (Leaving r).
  - step_to Hinv Ht (LeftInner Next).
  - destruct (Hlocks llama_inner_lock i t Ht Hhi) as [Hl _]. congruence.
  - step_to Hinv Ht (LeftInner (Throw e)).
  - destruct (Hlocks llama_inner_lock i t Ht Hhi) as [Hl _]. congruence.
  - step_to Hinv Ht (Exit None).
  - step_to Hinv Ht (Exit (Some e)).
Qed.

Lemma reachable_inv n s : reachable n s -> turnstile_inv s.
Proof.
  induction 1 as [|s i c s' _ IH Hex]; [apply turnstile_inv_init|].
  eapply turnstile_inv_step; eassumption.
Qed.

Lemma exec_all_reachable n sched : forall s s',
  reachable n s -> exec_all s sched = Some s' -> reachable n s'.
Proof.
  induction sched as [|[i c] rest IH]; intros s s' Hr He; simpl in He.
  - injection He as <-. exact Hr.
  - destruct (exec s i c) as [s1|] eqn:E; [|discriminate].
    eapply IH; [|exact He]. eapply reachable_step; eassumption.
Qed.

(** What a request holds tells where it is: at the [yield] it holds the
    inner lock, and before [llama_inner_lock.acquire()] it holds the
    outer lock and not the inner one. *)
Lemma thread_at_position t pt :
  thread_at t pt ->
  (using_model t -> pt = AtYield)
  /\ (waits_for_inner t -> pt = WaitInner)
  /\ (forall l k, code t = Acquire l k ->
        (pt = AtEntry /\ l = llama_outer_lock) \/ (pt = WaitInner /\ l = llama_inner_lock)).
Proof.
  intros (Hcode & _ & _). unfold using_model, waits_for_inner. rewrite Hcode.
  destruct pt as [| | |e|e| | | |[|e]|[|e]|[e|]]; cbn;
    (split; [try tauto; try reflexivity | split; [try tauto; try reflexivity|]]);
    intros l k Hk; try discriminate; injection Hk as <- _; auto.
Qed.

(** C7: in every reachable state of the two-lock turnstile, at most one
    request holds the inner lock and at most one holds the outer lock; a
    request using the model (suspended at the [yield]) holds the inner
    lock, and a request waiting to acquire the inner lock holds the outer
    lock; every request that is about to acquire a lock without holding
    the outer lock is at the entry, at [llama_outer_lock.acquire()]; and
    a step that takes the inner lock is made by the request that holds
    the outer lock. *)
Theorem turnstile_one_at_a_time (n : nat) (s : System) :
  reachable n s ->
  (forall i j ti tj,
     threads s !! i = Some ti -> threads s !! j = Some tj ->
     held_inner (frame ti) = true -> held_inner (frame tj) = true -> i = j)
  /\ (forall i j ti tj,
        threads s !! i = Some ti -> threads s !! j = Some tj ->
        held_outer (frame ti) = true -> held_outer (frame tj) = true -> i = j)
  /\ (forall i t, threads s !! i = Some t ->
        (using_model t -> held_inner (frame t) = true /\ inner_locked s = true)
        /\ (waits_for_inner t ->
              held_outer (frame t) = true /\ held_inner (frame t) = false
              /\ outer_locked s = true))
  /\ (forall i t l k, threads s !! i = Some t ->
        code t = Acquire l k -> held_outer (frame t) = false ->
        l = llama_outer_lock /\ at_entry t)
  /\ (forall i c s', exec s i c = Some s' ->
        inner_locked s = false -> inner_locked s' = true ->
        exists t, threads s !! i = Some t /\ waits_for_inner t
                  /\ held_outer (frame t) = true)
  /\ (forall i j ti tj,
        threads s !! i = Some ti -> threads s !! j = Some tj ->
        waits_for_inner ti -> at_entry tj -> exec s j Go = None).
Proof.
  intros Hr. pose proof (reachable_inv n s Hr) as [Hloc Hlocks].
  split; [|split; [|split; [|split; [|split]]]].
  - intros i j ti tj Hi Hj Hhi Hhj.
    destruct (Hlocks llama_inner_lock i ti Hi Hhi) as [_ Hu].
    symmetry. eapply Hu; eassumption.
  - intros i j ti tj Hi Hj Hhi Hhj.
    destruct (Hlocks llama_outer_lock i ti Hi Hhi) as [_ Hu].
    symmetry. eapply Hu; eassumption.
  - intros i t Ht. destruct (Hloc i t Ht) as (pt & Hat).
    destruct (thread_at_position t pt Hat) as (Hy & Hw & _).
    destruct Hat as (_ & Hholds & _).
    pose proof (Hholds llama_outer_lock) as Hho.
    pose proof (Hholds llama_inner_lock) as Hhi.
    split.
    + intros Hu. rewrite (Hy Hu) in Hhi. simpl in Hhi. split; [exact Hhi|].
      apply (Hlocks llama_inner_lock i t Ht Hhi).
    + intros Hu. rewrite (Hw Hu) in Hho, Hhi. simpl in Hho, Hhi.
      split; [exact Hho|]. split; [exact Hhi|].
      apply (Hlocks llama_outer_lock i t Ht Hho).
  - intros i t l k Ht Hk Hno. destruct (Hloc i t Ht) as (pt & Hat).
    destruct (thread_at_position t pt Hat) as (_ & _ & Hacq).
    destruct Hat as (Hcode & Hholds & _).
    destruct (Hacq l k Hk) as [[-> ->]|[-> ->]].
    + split; [reflexivity | exact Hcode].
    + pose proof (Hholds llama_outer_lock) as Hho. simpl in Hho. congruence.
  - intros i c s' Hex Hfree Htaken. unfold exec in Hex.
    destruct (threads s !! i) as [t|] eqn:Ht; [|discriminate].
    exists t. split; [reflexivity|].
    destruct (Hloc i t Ht) as (pt & Hat).
    pose proof Hat as (Hcode & Hholds & _).
    pose proof (Hholds llama_outer_lock) as Hho.
    change (inner_locked s') with (locked s' llama_inner_lock) in Htaken.
    change (inner_locked s) with (locked s llama_inner_lock) in Hfree.
    rewrite Hcode in Hex.
    destruct pt as [| | |e|e| | | |[|e]|[|e]|[e|]]; simpl in Hho;
      cbn in Hex; destruct c; try discriminate;
      try (destruct (locked s _) eqn:Hlk; cbn in Hex; try discriminate);
      injection Hex as <-; rewrite locked_update in Htaken; simpl in Htaken;
      try congruence.
    split; [|exact Hho]. unfold waits_for_inner. rewrite Hcode. exact I.
  - intros i j ti tj Hi Hj Hw He.
    destruct (Hloc i ti Hi) as (pt & Hat).
    destruct (thread_at_position ti pt Hat) as (_ & Hwp & _).
    destruct Hat as (_ & Hholds & _).
    pose proof (Hholds llama_outer_lock) as Hho.
    rewrite (Hwp Hw) in Hho. simpl in Hho.
    destruct (Hlocks llama_outer_lock i ti Hi Hho) as [Hl _].
    unfold exec. rewrite Hj. unfold at_entry in He. rewrite He.
    cbn. rewrite Hl. reflexivity.
Qed.

Lemma turnstile_demo_reachable : reachable 3 turnstile_demo.
Proof.
  apply (exec_all_reachable 3 turnstile_schedule (init 3));
    [apply reachable_init | vm_compute; reflexivity].
Qed.

Lemma turnstile_one_at_a_time_witness :
  reachable 3 turnstile_demo
  /\ (forall i j ti tj,
        threads turnstile_demo !! i = Some ti -> threads turnstile_demo !! j = Some tj ->
        held_inner (frame ti) = true -> held_inner (frame tj) = true -> i = j)
  /\ exec turnstile_demo 2 Go = None.
Proof.
  pose proof (turnstile_one_at_a_time 3 turnstile_demo turnstile_demo_reachable)
    as (Hinner & _ & _ & _ & _ & Hblocked).
  split; [exact turnstile_demo_reachable|]. split; [exact Hinner|].
  eapply (Hblocked 1 2); [reflexivity | reflexivity | exact I | reflexivity].
Defined.

(** ** Array lemmas *)

Section ArrayFacts.
Context {A : Type}.

Lemma chunks_cons (n size : nat) (x : list A) (l : list A) :
  length x = size ->
  chunks (S n) size (x ++ l) = x :: chunks n size l.
Proof.
  intros Hx. unfold chunks. rewrite <- cons_seq, <- seq_shift. cbn [map].
  change (0 * size) with 0. rewrite drop_0.
  rewrite take_app_length' by (symmetry; exact Hx). f_equal.
  rewrite map_map. apply map_ext. intros h.
  change (S h * size) with (size + h * size).
  rewrite drop_app_add' by (symmetry; exact Hx). reflexivity.
Qed.

(** Cutting a concatenation of rows of one length gives the rows back. *)
Lemma chunks_concat (size : nat) (ls : list (list A)) :
  Forall (fun x => length x = size) ls ->
  chunks (length ls) size (concat ls) = ls.
Proof.
  induction 1 as [|x ls Hx _ IH]; [reflexivity|].
  simpl. rewrite chunks_cons by exact Hx. rewrite IH. reflexivity.
Qed.

Lemma length_concat_uniform (size : nat) (ls : list (list A)) :
  Forall (fun x => length x = size) ls ->
  length (concat ls) = length ls * size.
Proof.
  induction 1 as [|x ls Hx _ IH]; [reflexivity|].
  simpl. rewrite length_app, IH, Hx. reflexivity.
Qed.

Lemma chunks_nil_size (n : nat) (l : list A) :
  chunks n 0 l = replicate n [].
Proof.
  unfold chunks. generalize 0 at 3. induction n as [|n IH]; intros s; [reflexivity|].
  simpl. f_equal. apply IH.
Qed.

Lemma length_chunks (n size : nat) (l : list A) : length (chunks n size l) = n.
Proof. unfold chunks. rewrite length_map, length_seq. reflexivity. Qed.

(** The block repeat: every element [r] times, in order. *)
Lemma lookup_block_repeat (r : nat) (t : list A) (g j : nat) :
  j < r ->
  concat (map (replicate r) t) !! (g * r + j) = t !! g.
Proof.
  intros Hj. revert g. induction t as [|x t IH]; intros g; simpl.
  - rewrite !lookup_nil. reflexivity.
  - destruct g as [|g]; simpl.
    + rewrite lookup_app_l by (rewrite length_replicate; exact Hj).
      apply lookup_replicate_2. exact Hj.
    + rewrite lookup_app_r by (rewrite length_replicate; lia).
      rewrite length_replicate.
      replace (r + g * r + j - r) with (g * r + j) by lia. apply IH.
Qed.

Lemma length_block_repeat (r : nat) (t : list A) :
  length (concat (map (replicate r) t)) = length t * r.
Proof.
  rewrite (length_concat_uniform r).
  - rewrite length_map. reflexivity.
  - apply Forall_map, Forall_forall. intros x _. apply length_replicate.
Qed.

Lemma Forall_block_repeat (P : A -> Prop) (r : nat) (t : list A) :
  Forall P t -> Forall P (concat (map (replicate r) t)).
Proof.
  induction 1 as [|x t Hx _ IH]; simpl; [constructor|].
  apply Forall_app. split; [|exact IH].
  apply Forall_forall. intros y Hy. apply elem_of_replicate in Hy as [-> _]. exact Hx.
Qed.

Lemma concatenate_copies_replicate (r : nat) (t : list (list A)) :
  concatenate_copies (replicate r (expand_dims t)) (length t)
  = map (replicate r) t.
Proof.
  unfold concatenate_copies, expand_dims.
  apply list_eq. intros g.
  rewrite !list_lookup_fmap.
  destruct (t !! g) as [x|] eqn:Hg; simpl.
  - rewrite lookup_seq_lt by (eapply lookup_lt_Some; exact Hg). simpl. f_equal.
    assert (Hn : nth g (map (fun h => [h]) t) [] = [x]).
    { apply nth_lookup_Some. rewrite list_lookup_fmap, Hg. reflexivity. }
    induction r as [|r IH]; [reflexivity|].
    cbn [replicate map concat]. rewrite Hn, IH. reflexivity.
  - rewrite lookup_seq_ge by (apply lookup_ge_None; exact Hg). reflexivity.
Qed.

End ArrayFacts.

Section ReshapeFacts.
Context {F : Type} `{Arith F}.

Lemma heads_shape_block_repeat (heads S d r : nat) (t : list (list (list F))) :
  heads_shape heads S d t ->
  heads_shape (heads * r) S d (concat (map (replicate r) t)).
Proof.
  intros [Hlen Hall]. split.
  - rewrite length_block_repeat, Hlen. reflexivity.
  - apply Forall_block_repeat. exact Hall.
Qed.

Lemma concat_concat_map {A} (E : list (list (list A))) :
  concat (concat E) = concat (map (fun h => concat h) E).
Proof.
  induction E as [|h E IH]; [reflexivity|].
  simpl. rewrite concat_app, IH. reflexivity.
Qed.

Lemma map_chunks_empty {A} (d : nat) (X : list (list A)) (E : list (list (list A))) :
  length X = length E ->
  Forall (fun h => length h = 0) E ->
  map (chunks 0 d) X = E.
Proof.
  intros Hlen Hall. revert X Hlen.
  induction Hall as [|h E Hh _ IH]; intros [|x X] Hlen; try discriminate; [reflexivity|].
  simpl. destruct h; [|discriminate]. f_equal. apply IH. simpl in Hlen. lia.
Qed.

(** On an array that has the target shape already, the row-major reshape
    to [heads, L, -1] is the identity. *)
Lemma reshape_heads_concat (heads L d : nat) (c : list (list (list (list F)))) :
  heads_shape heads L d (concat c) ->
  reshape_heads heads L c = concat c.
Proof.
  unfold reshape_heads. generalize (concat c). clear c.
  intros E [Hlen Hall].
  assert (Hrows : Forall (fun h : list F => length h = L * d)
                         (map (fun h => concat h) E)).
  { apply Forall_map. eapply Forall_impl; [exact Hall|]. intros h [Hh Hr]. simpl.
    rewrite (length_concat_uniform d) by exact Hr. rewrite Hh. reflexivity. }
  destruct (Nat.eq_dec L 0) as [->|HL].
  - apply map_chunks_empty.
    + rewrite length_chunks. symmetry. exact Hlen.
    + eapply Forall_impl; [exact Hall|]. intros h [Hh _]. exact Hh.
  - rewrite concat_concat_map.
    destruct (Nat.eq_dec heads 0) as [->|HH].
    + destruct E; [reflexivity | discriminate].
    + rewrite (length_concat_uniform (L * d)) by exact Hrows.
      rewrite length_map, Hlen.
      replace (heads * (L * d)) with (d * (heads * L)) by lia.
      rewrite Nat.div_mul by lia.
      rewrite <- Hlen at 1. rewrite <- (length_map (fun h => concat h) E).
      rewrite chunks_concat by exact Hrows.
      rewrite map_map. rewrite <- (map_id E) at 2.
      apply map_ext_Forall. eapply Forall_impl; [exact Hall|].
      intros h [Hh Hr]. simpl. rewrite <- Hh. apply chunks_concat. exact Hr.
Qed.

(** The expansion of the key/value heads is the block repeat. *)
Lemma Attention_repeat_block (a : Attention (F:=F)) (L d : nat) (t : list (list (list F))) :
  attn_num_attention_heads a = attn_num_key_value_heads a * repeats a ->
  heads_shape (attn_num_key_value_heads a) L d t ->
  Attention_repeat a L t = concat (map (replicate (repeats a)) t).
Proof.
  intros HH Ht. unfold Attention_repeat.
  rewrite concatenate_copies_replicate.
  apply (reshape_heads_concat _ _ d).
  rewrite HH. apply heads_shape_block_repeat. exact Ht.
Qed.

End ReshapeFacts.

Section HeadFacts.
Context {F : Type} `{Arith F}.

Lemma zip_with_map_same {A B C D} (f : B -> C -> D) (g : A -> B) (h : A -> C) (l : list A) :
  zip_with f (map g l) (map h l) = map (fun x => f (g x) (h x)) l.
Proof. induction l as [|x l IH]; [reflexivity|]. simpl. rewrite IH. reflexivity. Qed.

Lemma swap_axes_app {A} (n : nat) (t1 t2 : list (list (list A))) :
  swap_axes n (t1 ++ t2) = zip_with app (swap_axes n t1) (swap_axes n t2).
Proof.
  unfold swap_axes. rewrite zip_with_map_same.
  apply map_ext. intros h. apply map_app.
Qed.

Lemma length_swap_axes {A} (n : nat) (t : list (list (list A))) :
  length (swap_axes n t) = n.
Proof. unfold swap_axes. rewrite length_map, length_seq. reflexivity. Qed.

Lemma Forall_swap_axes {A} (n : nat) (t : list (list (list A))) :
  Forall (fun h => length h = length t) (swap_axes n t).
Proof.
  unfold swap_axes. apply Forall_map, Forall_forall. intros h _. simpl.
  apply length_map.
Qed.

Lemma block_repeat_zip_app {A} (r : nat) (t1 t2 : list (list A)) :
  concat (map (replicate r) (zip_with app t1 t2))
  = zip_with app (concat (map (replicate r) t1)) (concat (map (replicate r) t2)).
Proof.
  revert t2. induction t1 as [|x t1 IH]; intros [|y t2]; simpl; try reflexivity.
  - destruct (replicate r x ++ _); reflexivity.
  - rewrite IH. rewrite zip_with_app by (rewrite !length_replicate; reflexivity).
    f_equal. clear. induction r as [|r IH]; [reflexivity|]. simpl. rewrite IH. reflexivity.
Qed.

Lemma Linear_call_app (l : Linear (F:=F)) (x1 x2 : list (list F)) :
  Linear_call l (x1 ++ x2) = Linear_call l x1 ++ Linear_call l x2.
Proof. apply map_app. Qed.

Lemma Linear_call_rows (l : Linear (F:=F)) (x : list (list F)) :
  length (Linear_call l x) = length x
  /\ Forall (fun r => length r = length (weight l)) (Linear_call l x).
Proof.
  unfold Linear_call. split; [apply length_map|].
  apply Forall_map, Forall_forall. intros r _. simpl. apply length_map.
Qed.

Lemma Attention_kv_heads_app (a : Attention (F:=F)) (t1 t2 : list (list F)) :
  Attention_kv_heads a (t1 ++ t2)
  = zip_with app (Attention_kv_heads a t1) (Attention_kv_heads a t2).
Proof. unfold Attention_kv_heads. rewrite map_app. apply swap_axes_app. Qed.

Lemma Attention_kv_heads_shape (a : Attention (F:=F)) (d : nat) (t : list (list F)) :
  0 < attn_num_key_value_heads a ->
  Forall (fun r => length r = attn_num_key_value_heads a * d) t ->
  heads_shape (attn_num_key_value_heads a) (length t) d (Attention_kv_heads a t).
Proof.
  intros Hkv Hrows. unfold Attention_kv_heads. split; [apply length_swap_axes|].
  unfold swap_axes. apply Forall_map, Forall_forall. intros h Hh. simpl.
  apply elem_of_seq in Hh.
  split; [rewrite !length_map; reflexivity|].
  rewrite map_map. apply Forall_map.
  eapply Forall_impl; [exact Hrows|]. intros r Hr. simpl.
  rewrite Hr. replace (attn_num_key_value_heads a * d / attn_num_key_value_heads a) with d
    by (rewrite Nat.mul_comm, Nat.div_mul by lia; reflexivity).
  unfold chunks. erewrite nth_lookup_Some;
    [| rewrite list_lookup_fmap, lookup_seq_lt by lia; reflexivity].
  simpl. rewrite length_take, length_drop.
  assert (S h * d <= attn_num_key_value_heads a * d) by (apply Nat.mul_le_mono_r; lia).
  simpl in *. lia.
Qed.

End HeadFacts.

(** ** Masked attention, row by row *)

Section RowFacts.
Context {F : Type} {AF : Arith F} {AL : ArithLaws F}.

Lemma fold_fadd_zeros (z : list F) (acc : F) :
  Forall (fun x => x = fzero) z -> fold_left fadd z acc = acc.
Proof.
  intros Hz. revert acc. induction Hz as [|x z -> _ IH]; intros acc; [reflexivity|].
  simpl. rewrite fadd_zero_r. apply IH.
Qed.

Lemma fsum_app_zeros (l z : list F) :
  Forall (fun x => x = fzero) z -> fsum (l ++ z) = fsum l.
Proof.
  intros Hz. unfold fsum. rewrite fold_left_app. apply fold_fadd_zeros. exact Hz.
Qed.

(** Zero weights contribute nothing to a weighted sum. *)
Lemma dot_app_zeros (p c c' : list F) (m : nat) :
  length p = length c ->
  dot (p ++ replicate m fzero) (c ++ c') = dot p c.
Proof.
  intros Hlen. unfold dot. rewrite zip_with_app by exact Hlen.
  apply fsum_app_zeros.
  apply Forall_forall. intros x Hx.
  apply elem_of_lookup_zip_with in Hx as (i & a & b & -> & Ha & _).
  apply lookup_replicate_1 in Ha as [-> _]. apply fmul_zero_l.
Qed.

(** A row of scores whose last [m] entries are masked: after the
    softmax, these entries are zero and the others are the softmax of
    the row without them. *)
Lemma softmax_masked_tail (s s' mr : list F) :
  length s = length mr ->
  map of_float32
    (softmax_row (map to_float32
       (zip_with fadd (s ++ s') (mr ++ replicate (length s') (of_float32 mask_neg)))))
  = map of_float32 (softmax_row (map to_float32 (zip_with fadd s mr)))
    ++ replicate (length s') fzero.
Proof.
  intros Hlen. rewrite zip_with_app by exact Hlen.
  unfold softmax_row. rewrite !map_app.
  set (e := map fexp (map to_float32 (zip_with fadd s mr))).
  assert (Hz : map fexp (map to_float32 (zip_with fadd s' (replicate (length s') (of_float32 mask_neg))))
               = replicate (length s') fzero).
  { clear -AL. induction s' as [|x s' IH]; [reflexivity|].
    simpl. rewrite fexp_masked. f_equal. exact IH. }
  rewrite Hz. rewrite fsum_app_zeros
    by (apply Forall_forall; intros x Hx; apply elem_of_replicate in Hx as [-> _]; reflexivity).
  f_equal. generalize (length s'). clear -AL.
  intros k. induction k as [|k IH]; [reflexivity|].
  simpl. rewrite fdiv_zero_l, of_float32_zero. f_equal. exact IH.
Qed.

(** Adding a row of zeros changes nothing. *)
Lemma zip_fadd_zeros (s : list F) :
  zip_with fadd s (replicate (length s) fzero) = s.
Proof.
  induction s as [|x s IH]; [reflexivity|]. simpl. rewrite fadd_zero_r, IH. reflexivity.
Qed.

End RowFacts.

Section TransposeFacts.
Context {F : Type} {AF : Arith F}.

Lemma map_nth_seq_id {A} (d : A) (l : list A) :
  map (fun i => nth i l d) (seq 0 (length l)) = l.
Proof.
  induction l as [|x l IH]; [reflexivity|].
  simpl. f_equal. rewrite <- seq_shift, map_map. exact IH.
Qed.

Lemma width_transpose_rows (m : list (list F)) :
  Forall (fun c => length c = length m) (transpose m).
Proof.
  unfold transpose. apply Forall_map, Forall_forall. intros d _. simpl. apply length_map.
Qed.

Lemma transpose_involutive (d : nat) (m : list (list F)) :
  0 < d -> Forall (fun r => length r = d) m ->
  transpose (transpose m) = m.
Proof.
  intros Hd Hm. destruct m as [|r0 m']; [reflexivity|].
  set (m := r0 :: m') in *.
  assert (Hw : width m = d) by (inversion Hm; assumption).
  unfold transpose at 1.
  assert (Hwt : width (transpose m) = length m).
  { unfold transpose. rewrite Hw. destruct d; [lia|]. simpl. rewrite length_map. reflexivity. }
  rewrite Hwt.
  transitivity (map (fun i => nth i m []) (seq 0 (length m)));
    [|apply map_nth_seq_id].
  apply map_ext_in. intros j Hj. apply in_seq in Hj.
  unfold transpose. rewrite map_map, Hw.
  assert (Hrow : length (nth j m []) = d).
  { rewrite Forall_forall in Hm. apply Hm. apply list_elem_of_In. apply nth_In. lia. }
  rewrite <- Hrow.
  transitivity (map (fun i => nth i (nth j m []) fzero) (seq 0 (length (nth j m []))));
    [|apply map_nth_seq_id].
  apply map_ext. intros k.
  rewrite (nth_indep _ fzero ((fun r : list F => nth k r fzero) []))
    by (rewrite length_map; lia).
  apply (map_nth (fun r : list F => nth k r fzero)).
Qed.

(** [a @ k.T] against a rectangular [k]: entry [i, j] is the dot product
    of row [i] of [a] with row [j] of [k]. *)
Lemma matmul_transpose (d : nat) (a k : list (list F)) :
  0 < d -> Forall (fun r => length r = d) k ->
  matmul a (transpose k) = map (fun r => map (dot r) k) a.
Proof.
  intros Hd Hk. unfold matmul. rewrite (transpose_involutive d) by assumption.
  reflexivity.
Qed.

Lemma matmul_app (a1 a2 b : list (list F)) :
  matmul (a1 ++ a2) b = matmul a1 b ++ matmul a2 b.
Proof. apply map_app. Qed.

Lemma length_matmul (a b : list (list F)) : length (matmul a b) = length a.
Proof. apply length_map. Qed.

(** The columns of two stacked matrices are the columns stacked. *)
Lemma transpose_app (v1 v2 : list (list F)) :
  v1 <> [] ->
  transpose (v1 ++ v2)
  = map (fun d => map (fun r => nth d r fzero) v1 ++ map (fun r => nth d r fzero) v2)
        (seq 0 (width v1)).
Proof.
  intros Hne. unfold transpose.
  replace (width (v1 ++ v2)) with (width v1) by (destruct v1; [congruence | reflexivity]).
  apply map_ext. intros d. apply map_app.
Qed.

End TransposeFacts.

Section HeadAttend.
Context {F : Type} {AF : Arith F} {AL : ArithLaws F}.

Lemma causal_mask_rows (N : nat) :
  length (causal_mask (F:=F) N) = N
  /\ Forall (fun r => length r = N) (causal_mask (F:=F) N).
Proof.
  unfold causal_mask, create_additive_causal_mask. split.
  - rewrite !length_map, length_seq. reflexivity.
  - rewrite map_map. apply Forall_map, Forall_forall. intros i _. cbv beta.
    rewrite !length_map, length_seq. reflexivity.
Qed.

(** The first [n] rows of the mask for [n + m] positions: the rows of
    the mask for [n] positions, each followed by [m] masked entries. *)
Lemma causal_mask_take (n m : nat) :
  take n (causal_mask (F:=F) (n + m))
  = map (fun r => r ++ replicate m (of_float32 mask_neg)) (causal_mask n).
Proof.
  unfold causal_mask, create_additive_causal_mask.
  rewrite !firstn_map, take_seq, Nat.min_l by lia. rewrite !map_map.
  apply map_ext_in. intros i Hi. apply in_seq in Hi.
  rewrite seq_app, !map_app. f_equal. rewrite map_map.
  transitivity (replicate (length (seq (0 + n) m)) (of_float32 (mask_neg (F:=F))));
    [|rewrite length_seq; reflexivity].
  apply (const_fmap (fun j : nat => of_float32 (if i <? j then mask_neg else fzero))).
  intros k j Hj. apply lookup_seq in Hj as [-> _].
  destruct (Nat.ltb_spec i (0 + n + k)); [reflexivity | lia].
Qed.

(** The last row of the mask for [n + 1] positions forbids nothing. *)
Lemma causal_mask_last (n : nat) :
  drop n (causal_mask (F:=F) (n + 1)) = [replicate (n + 1) fzero].
Proof.
  unfold causal_mask, create_additive_causal_mask.
  rewrite !skipn_map, drop_seq. replace (n + 1 - n) with 1 by lia.
  simpl. f_equal. rewrite map_map.
  transitivity (replicate (length (seq 0 (n + 1))) (fzero (F:=F)));
    [|rewrite length_seq; reflexivity].
  apply (const_fmap (fun j : nat => of_float32 (if n <? j then mask_neg else fzero))).
  intros k j Hj. apply lookup_seq in Hj as [-> ?].
  destruct (Nat.ltb_spec n (0 + k)); [lia | apply of_float32_zero].
Qed.

Lemma causal_mask_one :
  causal_mask (F:=F) 1 = replicate 1 (replicate 1 fzero).
Proof. unfold causal_mask. simpl. rewrite of_float32_zero. reflexivity. Qed.

End HeadAttend.

Section HeadDecomposition.
Context {F : Type} {AF : Arith F} {AL : ArithLaws F}.


(** Rows of queries against keys and values that extend [kp], [vp] by
    [m] masked positions: the extension changes nothing. *)
Lemma masked_rows_ignore_tail (kp ks vp vs : list (list F)) (n : nat) :
  0 < n -> length kp = n -> length vp = n -> length vs = length ks ->
  forall (X M : list (list F)),
    Forall (fun r => length r = n) M ->
    matmul (map softmax_cast
              (zip_with (zip_with fadd)
                 (map (fun r => map (dot r) (kp ++ ks)) X)
                 (map (fun r => r ++ replicate (length ks) (of_float32 mask_neg)) M)))
           (vp ++ vs)
    = matmul (map softmax_cast
                (zip_with (zip_with fadd) (map (fun r => map (dot r) kp) X) M))
             vp.
Proof.
  intros Hn Hkp Hvp Hvs X M HM. revert X.
  induction HM as [|mr M Hmr _ IH]; intros [|x X]; try reflexivity.
  simpl. f_equal; [|apply IH].
  unfold softmax_cast. rewrite map_app.
  replace (length ks) with (length (map (dot x) ks)) by apply length_map.
  rewrite softmax_masked_tail by (rewrite length_map; lia).
  rewrite length_map.
  rewrite transpose_app by (destruct vp; [simpl in Hvp; lia | discriminate]).
  unfold transpose. rewrite !map_map. apply map_ext. intros d.
  apply dot_app_zeros.
  unfold softmax_row. rewrite !length_map, length_zip_with, length_map. lia.
Qed.

Lemma head_attend_app (sc : F) (d n m : nat) (qp qs kp ks vp vs : list (list F)) :
  0 < n -> 0 < d ->
  length qp = n -> length kp = n -> length vp = n ->
  length ks = m -> length vs = m ->
  Forall (fun r => length r = d) kp ->
  Forall (fun r => length r = d) ks ->
  head_attend sc (Some (causal_mask (n + m)))
    (qp ++ qs) (kp ++ ks) (vp ++ vs)
  = head_attend sc (Some (causal_mask n)) qp kp vp
    ++ head_attend sc (Some (drop n (causal_mask (n + m))))
         qs (kp ++ ks) (vp ++ vs).
Proof.
  intros Hn Hd Hqp Hkp Hvp Hks Hvs Hrp Hrs. unfold head_attend.
  assert (Hr : Forall (fun r : list F => length r = d) (kp ++ ks))
    by (apply Forall_app; split; assumption).
  rewrite !(matmul_transpose d) by assumption.
  rewrite !map_app.
  rewrite <- (take_drop n (causal_mask (n + m))) at 1.
  rewrite zip_with_app.
  2:{ rewrite !length_map, length_take.
      destruct (causal_mask_rows (F:=F) (n + m)) as [-> _]. lia. }
  rewrite map_app, matmul_app. f_equal.
  rewrite causal_mask_take. subst m.
  apply (masked_rows_ignore_tail kp ks vp vs n); try assumption; try lia.
  apply causal_mask_rows.
Qed.

(** A mask of zeros is no mask. *)
Lemma head_attend_zero_mask (sc : F) (d : nat) (qh kh vh : list (list F)) :
  0 < d -> Forall (fun r => length r = d) kh ->
  head_attend sc (Some (replicate (length qh) (replicate (length kh) fzero))) qh kh vh
  = head_attend sc None qh kh vh.
Proof.
  intros Hd Hk. unfold head_attend. rewrite !(matmul_transpose d) by assumption.
  f_equal. f_equal.
  induction qh as [|x qh IH]; [reflexivity|].
  simpl. f_equal; [|exact IH].
  replace (length kh) with (length (map (dot (map (fun x0 => fmul x0 sc) x)) kh))
    by apply length_map.
  apply zip_fadd_zeros.
Qed.

End HeadDecomposition.

Section AttentionFacts.
Context {F : Type} {AF : Arith F}.

Lemma length_rope_row (r : RoPE) (p : nat) (x : list F) :
  dims r <= length x -> length (rope_row r p x) = length x.
Proof.
  intros Hd. unfold rope_row.
  assert (2 * (dims r / 2) <= dims r).
  { pose proof (Nat.div_mod_eq (dims r) 2). lia. }
  rewrite !length_app, !length_zip_with, !length_map, !length_zip_with,
    !length_map, !length_take, !length_drop, !length_seq.
  lia.
Qed.

Lemma RoPE_call_zip_app (r : RoPE) (n off : nat) (t1 t2 : list (list (list F))) :
  Forall (fun h => length h = n) t1 ->
  RoPE_call r (zip_with app t1 t2) off
  = zip_with app (RoPE_call r t1 off) (RoPE_call r t2 (off + n)).
Proof.
  intros Ht1. revert t2. unfold RoPE_call.
  induction Ht1 as [|h t1 Hh _ IH]; intros [|h2 t2]; try reflexivity.
  simpl. f_equal; [|apply IH].
  rewrite imap_app. f_equal. apply imap_ext. intros i x _. simpl.
  rewrite Hh, Nat.add_assoc. reflexivity.
Qed.

Lemma RoPE_call_shape (r : RoPE) (heads S d off : nat) (t : list (list (list F))) :
  dims r <= d ->
  heads_shape heads S d t -> heads_shape heads S d (RoPE_call r t off).
Proof.
  intros Hd [Hlen Hall]. unfold RoPE_call. split; [rewrite length_map; exact Hlen|].
  apply Forall_map. eapply Forall_impl; [exact Hall|]. intros h [Hh Hr]. simpl.
  split; [rewrite length_imap; exact Hh|].
  apply Forall_forall. intros x Hx.
  apply list_elem_of_lookup in Hx as [i Hi].
  rewrite list_lookup_imap in Hi.
  destruct (h !! i) as [y|] eqn:Hy; [|discriminate]. simpl in Hi. injection Hi as <-.
  assert (length y = d).
  { rewrite Forall_forall in Hr. apply Hr. eapply list_elem_of_lookup_2; exact Hy. }
  rewrite length_rope_row; lia.
Qed.

Lemma RoPE_call_lengths (r : RoPE) (S off : nat) (t : list (list (list F))) :
  Forall (fun h => length h = S) t -> Forall (fun h => length h = S) (RoPE_call r t off).
Proof.
  intros Hall. unfold RoPE_call. apply Forall_map.
  eapply Forall_impl; [exact Hall|]. intros h Hh. simpl. rewrite length_imap. exact Hh.
Qed.

(** What [Attention_qkv] returns for a well-formed layer. *)
Lemma Attention_qkv_spec (a : Attention (F:=F)) (x : list (list F)) :
  attn_wf a ->
  Attention_qkv a x =
    (swap_axes (attn_num_attention_heads a)
       (map (chunks (attn_num_attention_heads a) (head_dim a)) (Linear_call (q_proj a) x)),
     concat (map (replicate (repeats a)) (Attention_kv_heads a (Linear_call (k_proj a) x))),
     concat (map (replicate (repeats a)) (Attention_kv_heads a (Linear_call (v_proj a) x)))).
Proof.
  intros (Hkv & Hr & Hd & _ & HH & _ & _ & Hk & Hv). unfold Attention_qkv.
  assert (Hshape : forall l : Linear (F:=F),
            length (weight l) = attn_num_key_value_heads a * head_dim a ->
            heads_shape (attn_num_key_value_heads a) (length x) (head_dim a)
              (Attention_kv_heads a (Linear_call l x))).
  { intros l Hl. rewrite <- (proj1 (Linear_call_rows l x)).
    apply Attention_kv_heads_shape; [exact Hkv|].
    rewrite <- Hl. apply Linear_call_rows. }
  rewrite !(Attention_repeat_block a (length x) (head_dim a)) by auto.
  reflexivity.
Qed.

Lemma Attention_qkv_shape (a : Attention (F:=F)) (x : list (list F)) :
  attn_wf a ->
  length (Attention_qkv a x).1.1 = attn_num_attention_heads a
  /\ Forall (fun h => length h = length x) (Attention_qkv a x).1.1
  /\ heads_shape (attn_num_attention_heads a) (length x) (head_dim a) (Attention_qkv a x).1.2
  /\ heads_shape (attn_num_attention_heads a) (length x) (head_dim a) (Attention_qkv a x).2.
Proof.
  intros Hwf. rewrite Attention_qkv_spec by exact Hwf. simpl.
  destruct Hwf as (Hkv & Hr & Hd & _ & HH & _ & _ & Hk & Hv).
  assert (Hshape : forall l : Linear (F:=F),
            length (weight l) = attn_num_key_value_heads a * head_dim a ->
            heads_shape (attn_num_attention_heads a) (length x) (head_dim a)
              (concat (map (replicate (repeats a)) (Attention_kv_heads a (Linear_call l x))))).
  { intros l Hl. rewrite HH. apply heads_shape_block_repeat.
    rewrite <- (proj1 (Linear_call_rows l x)).
    apply Attention_kv_heads_shape; [exact Hkv|].
    rewrite <- Hl. apply Linear_call_rows. }
  split; [apply length_swap_axes|]. split; [|split; apply Hshape; assumption].
  eapply Forall_impl; [apply Forall_swap_axes|]. intros h Hh. simpl in Hh.
  rewrite Hh, length_map. apply Linear_call_rows.
Qed.

Lemma Attention_qkv_app (a : Attention (F:=F)) (p s : list (list F)) :
  attn_wf a ->
  Attention_qkv a (p ++ s) =
    (zip_with app (Attention_qkv a p).1.1 (Attention_qkv a s).1.1,
     zip_with app (Attention_qkv a p).1.2 (Attention_qkv a s).1.2,
     zip_with app (Attention_qkv a p).2 (Attention_qkv a s).2).
Proof.
  intros Hwf. rewrite !Attention_qkv_spec by exact Hwf. simpl.
  rewrite !Linear_call_app, map_app, swap_axes_app, !Attention_kv_heads_app,
    !block_repeat_zip_app.
  reflexivity.
Qed.

End AttentionFacts.

Section AttendFacts.
Context {F : Type} {AF : Arith F} {AL : ArithLaws F}.

(** The array operations of [Attention_attend], head by head. *)
Lemma attend_heads_lookup (a : Attention (F:=F)) mask (q k v : list (list (list F))) (h : nat) :
  zip_with matmul (attn_softmax (add_mask (attn_scores a q k) mask)) v !! h
  = (qh ← q !! h; kh ← k !! h; vh ← v !! h;
     Some (head_attend (scale a) mask qh kh vh)).
Proof.
  rewrite lookup_zip_with. unfold attn_softmax, add_mask, attn_scores, head_attend.
  destruct mask as [m|].
  - rewrite !list_lookup_fmap, lookup_zip_with.
    destruct (q !! h) as [qh|]; [|reflexivity]. simpl.
    destruct (k !! h) as [kh|]; [|reflexivity]. simpl.
    destruct (v !! h) as [vh|]; reflexivity.
  - rewrite !list_lookup_fmap, lookup_zip_with.
    destruct (q !! h) as [qh|]; [|reflexivity]. simpl.
    destruct (k !! h) as [kh|]; [|reflexivity]. simpl.
    destruct (v !! h) as [vh|]; reflexivity.
Qed.

Lemma attend_heads_length (a : Attention (F:=F)) mask (q k v : list (list (list F))) :
  length (zip_with matmul (attn_softmax (add_mask (attn_scores a q k) mask)) v)
  = Nat.min (Nat.min (length q) (length k)) (length v).
Proof.
  unfold attn_softmax, add_mask, attn_scores.
  rewrite length_zip_with, length_map.
  destruct mask; rewrite ?length_map, length_zip_with; reflexivity.
Qed.

Lemma head_attend_length_causal (sc : F) (n : nat) (qh kh vh : list (list F)) :
  length qh = n ->
  length (head_attend sc (Some (causal_mask n)) qh kh vh) = n.
Proof.
  intros Hq. unfold head_attend.
  rewrite length_matmul, length_map, length_zip_with, length_matmul, length_map.
  rewrite (proj1 (causal_mask_rows n)). lia.
Qed.

(** Gathering the heads of two stacked blocks of positions. *)
Lemma swap_axes_zip_app {A} (n m : nat) (t1 t2 : list (list (list A))) :
  length t1 = length t2 ->
  Forall (fun h => length h = n) t1 ->
  swap_axes (n + m) (zip_with app t1 t2) = swap_axes n t1 ++ swap_axes m t2.
Proof.
  intros Hlen Hall. unfold swap_axes. rewrite seq_app, map_app. f_equal.
  - apply map_ext_in. intros l Hl. apply in_seq in Hl.
    clear -Hlen Hall Hl. revert t2 Hlen.
    induction Hall as [|h t1 Hh _ IH]; intros [|h2 t2] Hlen; try discriminate; [reflexivity|].
    simpl. rewrite app_nth1 by lia. f_equal. apply IH. simpl in Hlen. lia.
  - replace (seq (0 + n) m) with (map (Nat.add n) (seq 0 m))
      by (change (map (Nat.add n) (seq 0 m)) with (Nat.add n <$> seq 0 m);
          rewrite fmap_add_seq; f_equal; lia).
    rewrite map_map. apply map_ext. intros l.
    clear -Hlen Hall. revert t2 Hlen.
    induction Hall as [|h t1 Hh _ IH]; intros [|h2 t2] Hlen; try discriminate; [reflexivity|].
    simpl. rewrite <- Hh at 1. rewrite app_nth2_plus. f_equal. apply IH. simpl in Hlen. lia.
Qed.

Lemma Attention_attend_app (a : Attention (F:=F)) (n m : nat)
    (qp qs kp ks vp vs : list (list (list F))) :
  0 < n -> 0 < head_dim a ->
  length qp = attn_num_attention_heads a ->
  length qs = attn_num_attention_heads a ->
  Forall (fun h => length h = n) qp ->
  heads_shape (attn_num_attention_heads a) n (head_dim a) kp ->
  heads_shape (attn_num_attention_heads a) m (head_dim a) ks ->
  heads_shape (attn_num_attention_heads a) n (head_dim a) vp ->
  heads_shape (attn_num_attention_heads a) m (head_dim a) vs ->
  Attention_attend a (n + m) (zip_with app qp qs) (zip_with app kp ks)
    (zip_with app vp vs) (Some (causal_mask (n + m)))
  = Attention_attend a n qp kp vp (Some (causal_mask n))
    ++ Attention_attend a m qs (zip_with app kp ks) (zip_with app vp vs)
         (Some (drop n (causal_mask (n + m)))).
Proof.
  intros Hn Hd Hqp Hqs Hqn [Hkp Hkpr] [Hks Hksr] [Hvp Hvpr] [Hvs Hvsr].
  unfold Attention_attend.
  set (OP := zip_with matmul
               (attn_softmax (add_mask (attn_scores a qp kp)
                                (Some (causal_mask n)))) vp).
  set (OS := zip_with matmul
               (attn_softmax (add_mask (attn_scores a qs (zip_with app kp ks))
                                (Some (drop n (causal_mask (n + m))))))
               (zip_with app vp vs)).
  assert (HOP : length OP = attn_num_attention_heads a).
  { subst OP. rewrite attend_heads_length. lia. }
  assert (HOS : length OS = attn_num_attention_heads a).
  { subst OS. rewrite attend_heads_length, !length_zip_with. lia. }
  assert (Heq : zip_with matmul
                  (attn_softmax (add_mask (attn_scores a (zip_with app qp qs)
                                             (zip_with app kp ks))
                                   (Some (causal_mask (n + m)))))
                  (zip_with app vp vs)
                = zip_with app OP OS).
  { apply list_eq. intros h.
    rewrite attend_heads_lookup, (lookup_zip_with app OP OS).
    subst OP OS. rewrite !attend_heads_lookup, !(lookup_zip_with app).
    destruct (qp !! h) as [qph|] eqn:E1; [|reflexivity]. simpl.
    assert (Hh : h < attn_num_attention_heads a)
      by (rewrite <- Hqp; eapply lookup_lt_Some; exact E1).
    destruct (lookup_lt_is_Some_2 qs h) as [qsh E2]; [lia|].
    destruct (lookup_lt_is_Some_2 kp h) as [kph E3]; [lia|].
    destruct (lookup_lt_is_Some_2 ks h) as [ksh E4]; [lia|].
    destruct (lookup_lt_is_Some_2 vp h) as [vph E5]; [lia|].
    destruct (lookup_lt_is_Some_2 vs h) as [vsh E6]; [lia|].
    rewrite E2, E3, E4, E5, E6. simpl. f_equal.
    pose proof (proj1 (Forall_lookup _ _) Hqn _ _ E1) as Hq1.
    pose proof (proj1 (Forall_lookup _ _) Hkpr _ _ E3) as [Hk1 Hk1r].
    pose proof (proj1 (Forall_lookup _ _) Hksr _ _ E4) as [Hk2 Hk2r].
    pose proof (proj1 (Forall_lookup _ _) Hvpr _ _ E5) as [Hv1 _].
    pose proof (proj1 (Forall_lookup _ _) Hvsr _ _ E6) as [Hv2 _].
    apply (head_attend_app _ (head_dim a)); assumption. }
  rewrite Heq.
  rewrite swap_axes_zip_app.
  - rewrite map_app. apply Linear_call_app.
  - lia.
  - apply Forall_lookup. intros h o Ho. subst OP.
    rewrite attend_heads_lookup in Ho.
    destruct (qp !! h) as [qph|] eqn:E1; [|discriminate]. simpl in Ho.
    destruct (kp !! h) as [kph|]; [|discriminate]. simpl in Ho.
    destruct (vp !! h) as [vph|]; [|discriminate]. simpl in Ho. injection Ho as <-.
    apply head_attend_length_causal.
    exact (proj1 (Forall_lookup _ _) Hqn _ _ E1).
Qed.

(** A mask of zeros of the right shape changes nothing. *)
Lemma Attention_attend_zero_mask (a : Attention (F:=F)) (L S : nat)
    (q k v : list (list (list F))) :
  0 < head_dim a ->
  Forall (fun h => length h = L) q ->
  Forall (fun h => length h = S /\ Forall (fun r => length r = head_dim a) h) k ->
  Attention_attend a L q k v (Some (replicate L (replicate S fzero)))
  = Attention_attend a L q k v None.
Proof.
  intros Hd Hq Hk. unfold Attention_attend. f_equal. f_equal. f_equal.
  apply list_eq. intros h. rewrite !attend_heads_lookup.
  destruct (q !! h) as [qh|] eqn:E1; [|reflexivity]. simpl.
  destruct (k !! h) as [kh|] eqn:E2; [|reflexivity]. simpl.
  destruct (v !! h) as [vh|] eqn:E3; [|reflexivity]. simpl. f_equal.
  pose proof (proj1 (Forall_lookup _ _) Hq _ _ E1) as Hq1.
  pose proof (proj1 (Forall_lookup _ _) Hk _ _ E2) as [Hk1 Hk1r].
  rewrite <- Hq1, <- Hk1. apply (head_attend_zero_mask _ (head_dim a)); assumption.
Qed.

End AttendFacts.

Section AttentionCall.
Context {F : Type} {AF : Arith F} {AL : ArithLaws F}.

Lemma heads_shape_zip_app (heads n m d : nat) (t1 t2 : list (list (list F))) :
  heads_shape heads n d t1 -> heads_shape heads m d t2 ->
  heads_shape heads (n + m) d (zip_with app t1 t2).
Proof.
  intros [H1 A1] [H2 A2]. split; [rewrite length_zip_with; lia|].
  apply Forall_lookup. intros h x Hx.
  apply lookup_zip_with_Some in Hx as (x1 & x2 & -> & E1 & E2).
  destruct (proj1 (Forall_lookup _ _) A1 _ _ E1) as [L1 R1].
  destruct (proj1 (Forall_lookup _ _) A2 _ _ E2) as [L2 R2].
  split; [rewrite length_app; lia | apply Forall_app; split; assumption].
Qed.

Lemma heads_shape_lengths (heads n d : nat) (t : list (list (list F))) :
  heads_shape heads n d t -> Forall (fun h => length h = n) t.
Proof. intros [_ Hall]. eapply Forall_impl; [exact Hall|]. intros h [Hh _]. exact Hh. Qed.

Lemma seq_len_heads (heads n d : nat) (t : list (list (list F))) :
  0 < heads -> heads_shape heads n d t -> seq_len t = n.
Proof.
  intros Hh [Hlen Hall]. destruct t as [|h t]; [simpl in Hlen; lia|].
  inversion Hall as [|? ? [Hn _] _]; subst. reflexivity.
Qed.

Lemma attn_wf_heads (a : Attention (F:=F)) :
  attn_wf a -> 0 < attn_num_attention_heads a /\ 0 < head_dim a
               /\ dims (rope a) <= head_dim a.
Proof. intros (Hkv & Hr & Hd & Hdims & HH & _). rewrite HH, Hdims. split; [nia|lia]. Qed.

Lemma length_Attention_attend (a : Attention (F:=F)) L q k v mask :
  length (Attention_attend a L q k v mask) = L.
Proof.
  unfold Attention_attend, Linear_call.
  rewrite !length_map, length_swap_axes. reflexivity.
Qed.

(** The shape of what an attention call returns: as many output rows as
    input rows, and a cache entry longer than the given one by the
    length of the input. *)
Lemma Attention_call_shape (a : Attention (F:=F)) (x : list (list F)) mask cache (n : nat) :
  attn_wf a ->
  match cache with Some c => kv_shape a n c | None => n = 0 end ->
  length (Attention_call a x mask cache).1 = length x
  /\ kv_shape a (n + length x) (Attention_call a x mask cache).2.
Proof.
  intros Hwf Hc. unfold Attention_call.
  destruct (Attention_qkv_shape a x Hwf) as (Hq & Hql & Hk & Hv).
  destruct (attn_wf_heads a Hwf) as (HH & Hd & Hdims).
  destruct (Attention_qkv a x) as [[q k] v]. simpl in *.
  destruct cache as [[kc vc]|].
  - destruct Hc as [Hkc Hvc]. simpl in *.
    split; [apply length_Attention_attend|]. split; simpl.
    + apply heads_shape_zip_app; [exact Hkc|]. apply RoPE_call_shape; assumption.
    + apply heads_shape_zip_app; assumption.
  - subst n. simpl. split; [apply length_Attention_attend|]. split; simpl.
    + apply RoPE_call_shape; assumption.
    + exact Hv.
Qed.

(** A call on [p ++ s] under the causal mask splits into the call on
    [p] and the call on [s] with the cache the first one returns, under
    the rows of the mask that belong to [s]. *)
Lemma Attention_call_app (a : Attention (F:=F)) (p s : list (list F)) :
  attn_wf a -> 0 < length p ->
  let full := Attention_call a (p ++ s)
                (Some (causal_mask (length p + length s))) None in
  let pre := Attention_call a p (Some (causal_mask (length p))) None in
  let suf := Attention_call a s
               (Some (drop (length p)
                        (causal_mask (length p + length s))))
               (Some pre.2) in
  full = (pre.1 ++ suf.1, suf.2).
Proof.
  intros Hwf Hn. cbv zeta. unfold Attention_call.
  rewrite Attention_qkv_app by exact Hwf.
  destruct (Attention_qkv_shape a p Hwf) as (Hqp & Hqpl & Hkp & Hvp).
  destruct (Attention_qkv_shape a s Hwf) as (Hqs & Hqsl & Hks & Hvs).
  destruct (attn_wf_heads a Hwf) as (HH & Hd & Hdims).
  destruct (Attention_qkv a p) as [[qp kp] vp].
  destruct (Attention_qkv a s) as [[qs ks] vs]. simpl in *.
  rewrite (seq_len_heads (attn_num_attention_heads a) (length p) (head_dim a))
    by (try apply RoPE_call_shape; assumption).
  rewrite !(RoPE_call_zip_app _ (length p)) by first [eassumption | eapply heads_shape_lengths; eassumption].
  simpl. unfold concat_seq. rewrite length_app. f_equal.
  apply Attention_attend_app; try assumption.
  - unfold RoPE_call. rewrite length_map. exact Hqp.
  - unfold RoPE_call. rewrite length_map. exact Hqs.
  - apply RoPE_call_lengths. exact Hqpl.
  - apply RoPE_call_shape; assumption.
  - apply RoPE_call_shape; assumption.
Qed.

Lemma Attention_call_causal_one (a : Attention (F:=F)) (x : list (list F)) :
  attn_wf a -> length x = 1 ->
  Attention_call a x (Some (causal_mask 1)) None
  = Attention_call a x None None.
Proof.
  intros Hwf Hx. unfold Attention_call.
  destruct (Attention_qkv_shape a x Hwf) as (Hq & Hql & Hk & Hv).
  destruct (attn_wf_heads a Hwf) as (HH & Hd & Hdims).
  destruct (Attention_qkv a x) as [[q k] v]. simpl in *. f_equal.
  rewrite Hx in *.
  rewrite causal_mask_one.
  apply Attention_attend_zero_mask; [exact Hd | apply RoPE_call_lengths; exact Hql |].
  apply (RoPE_call_shape _ (attn_num_attention_heads a)); assumption.
Qed.

Lemma Attention_call_last_row (a : Attention (F:=F)) (x : list (list F)) (c : KV) (n : nat) :
  attn_wf a -> kv_shape a n c -> length x = 1 ->
  Attention_call a x (Some (drop n (causal_mask (n + 1)))) (Some c)
  = Attention_call a x None (Some c).
Proof.
  intros Hwf [Hkc Hvc] Hx. unfold Attention_call.
  destruct (Attention_qkv_shape a x Hwf) as (Hq & Hql & Hk & Hv).
  destruct (attn_wf_heads a Hwf) as (HH & Hd & Hdims).
  destruct (Attention_qkv a x) as [[q k] v]. destruct c as [kc vc]. simpl in *. f_equal.
  rewrite Hx in *. rewrite causal_mask_last.
  change [replicate (n + 1) (fzero (F:=F))] with (replicate 1 (replicate (n + 1) (fzero (F:=F)))).
  apply Attention_attend_zero_mask; [exact Hd | apply RoPE_call_lengths; exact Hql |].
  apply (heads_shape_zip_app (attn_num_attention_heads a)); [exact Hkc|].
  apply RoPE_call_shape; assumption.
Qed.

End AttentionCall.

Section BlockFacts.
Context {F : Type} {AF : Arith F} {AL : ArithLaws F}.

Lemma RMSNorm_call_app (n : RMSNorm (F:=F)) (x1 x2 : list (list F)) :
  RMSNorm_call n (x1 ++ x2) = RMSNorm_call n x1 ++ RMSNorm_call n x2.
Proof. apply map_app. Qed.

Lemma length_RMSNorm_call (n : RMSNorm (F:=F)) (x : list (list F)) :
  length (RMSNorm_call n x) = length x.
Proof. apply length_map. Qed.

Lemma FeedForward_call_app (m : FeedForward (F:=F)) (x1 x2 : list (list F)) :
  FeedForward_call m (x1 ++ x2) = FeedForward_call m x1 ++ FeedForward_call m x2.
Proof.
  unfold FeedForward_call. rewrite !Linear_call_app, map_app.
  rewrite zip_with_app by (unfold Linear_call; rewrite !length_map; reflexivity).
  apply Linear_call_app.
Qed.

Lemma length_FeedForward_call (m : FeedForward (F:=F)) (x : list (list F)) :
  length (FeedForward_call m x) = length x.
Proof.
  unfold FeedForward_call, Linear_call.
  rewrite length_map, length_zip_with, !length_map. lia.
Qed.

Lemma add_rows_app (x1 x2 r1 r2 : list (list F)) :
  length x1 = length r1 ->
  add_rows (x1 ++ x2) (r1 ++ r2) = add_rows x1 r1 ++ add_rows x2 r2.
Proof. intros Hl. unfold add_rows. apply zip_with_app. exact Hl. Qed.

Lemma length_add_rows (x r : list (list F)) :
  length r = length x -> length (add_rows x r) = length x.
Proof. intros Hl. unfold add_rows. rewrite length_zip_with. lia. Qed.

Lemma TransformerBlock_call_shape (b : TransformerBlock (F:=F)) x mask cache (n : nat) :
  attn_wf (self_attn b) ->
  match cache with Some c => kv_shape (self_attn b) n c | None => n = 0 end ->
  length (TransformerBlock_call b x mask cache).1 = length x
  /\ kv_shape (self_attn b) (n + length x) (TransformerBlock_call b x mask cache).2.
Proof.
  intros Hwf Hc. unfold TransformerBlock_call.
  destruct (Attention_call_shape (self_attn b) (RMSNorm_call (input_layernorm b) x)
              mask cache n Hwf Hc) as [Hl Hs].
  destruct (Attention_call (self_attn b) _ mask cache) as [r c']. simpl in *.
  rewrite length_RMSNorm_call in *. split; [|exact Hs].
  rewrite length_add_rows; [apply length_add_rows; exact Hl|].
  rewrite length_FeedForward_call, length_RMSNorm_call. reflexivity.
Qed.

Lemma TransformerBlock_call_app (b : TransformerBlock (F:=F)) (p s : list (list F)) :
  attn_wf (self_attn b) -> 0 < length p ->
  let full := TransformerBlock_call b (p ++ s)
                (Some (causal_mask (length p + length s))) None in
  let pre := TransformerBlock_call b p
               (Some (causal_mask (length p))) None in
  let suf := TransformerBlock_call b s
               (Some (drop (length p)
                        (causal_mask (length p + length s))))
               (Some pre.2) in
  full = (pre.1 ++ suf.1, suf.2).
Proof.
  intros Hwf Hn. cbv zeta. unfold TransformerBlock_call.
  rewrite RMSNorm_call_app.
  pose proof (Attention_call_app (self_attn b) (RMSNorm_call (input_layernorm b) p)
                (RMSNorm_call (input_layernorm b) s) Hwf) as Happ.
  rewrite !length_RMSNorm_call in Happ. cbv zeta in Happ. rewrite (Happ Hn). clear Happ.
  pose proof (Attention_call_shape (self_attn b) (RMSNorm_call (input_layernorm b) p)
                (Some (causal_mask (length p))) None 0 Hwf eq_refl) as [Hl _].
  rewrite length_RMSNorm_call in Hl.
  destruct (Attention_call (self_attn b) (RMSNorm_call (input_layernorm b) p)
              (Some (causal_mask (length p))) None) as [rp cp].
  simpl in *.
  destruct (Attention_call (self_attn b) (RMSNorm_call (input_layernorm b) s) _ (Some cp))
    as [rs cs].
  simpl. f_equal.
  rewrite (add_rows_app p s rp rs) by (symmetry; exact Hl).
  rewrite RMSNorm_call_app, FeedForward_call_app.
  apply add_rows_app.
  rewrite length_FeedForward_call, length_RMSNorm_call. reflexivity.
Qed.

Lemma TransformerBlock_call_causal_one (b : TransformerBlock (F:=F)) (x : list (list F)) :
  attn_wf (self_attn b) -> length x = 1 ->
  TransformerBlock_call b x (Some (causal_mask 1)) None
  = TransformerBlock_call b x None None.
Proof.
  intros Hwf Hx. unfold TransformerBlock_call.
  rewrite Attention_call_causal_one; [reflexivity | exact Hwf |].
  rewrite length_RMSNorm_call. exact Hx.
Qed.

Lemma TransformerBlock_call_last_row (b : TransformerBlock (F:=F)) (x : list (list F))
    (c : KV) (n : nat) :
  attn_wf (self_attn b) -> kv_shape (self_attn b) n c -> length x = 1 ->
  TransformerBlock_call b x (Some (drop n (causal_mask (n + 1)))) (Some c)
  = TransformerBlock_call b x None (Some c).
Proof.
  intros Hwf Hc Hx. unfold TransformerBlock_call.
  rewrite (Attention_call_last_row _ _ _ n); [reflexivity | exact Hwf | exact Hc |].
  rewrite length_RMSNorm_call. exact Hx.
Qed.

Lemma length_TransformerBlock_call (b : TransformerBlock (F:=F)) x mask cache :
  length (TransformerBlock_call b x mask cache).1 = length x.
Proof.
  unfold TransformerBlock_call, Attention_call.
  destruct (Attention_qkv _ _) as [[q k] v].
  destruct cache as [[kc vc]|]; cbn [fst];
    rewrite !length_add_rows; try reflexivity;
    try (rewrite length_FeedForward_call, length_RMSNorm_call);
    rewrite ?length_add_rows; try reflexivity;
    rewrite length_Attention_attend, length_RMSNorm_call; reflexivity.
Qed.

End BlockFacts.

Section StackDecomposition.
Context {F : Type} {AF : Arith F} {AL : ArithLaws F}.

Lemma stack_shape (ls : list (TransformerBlock (F:=F))) mask (n : nat) :
  Forall (fun b => attn_wf (self_attn b)) ls ->
  forall x cs,
    Forall2 (fun b c => match c with
                        | Some c => kv_shape (self_attn b) n c
                        | None => n = 0
                        end) ls cs ->
    length (stack ls x mask cs).1 = length x
    /\ Forall2 (fun b c => kv_shape (self_attn b) (n + length x) c)
         ls (stack ls x mask cs).2.
Proof.
  induction 1 as [|b ls Hb _ IH]; intros x cs Hcs.
  - inversion Hcs; subst. simpl. split; [reflexivity | constructor].
  - inversion Hcs as [|? c ? cs' Hc Hcs']; subst. simpl.
    destruct (TransformerBlock_call_shape b x mask c n Hb Hc) as [Hl Hs].
    destruct (TransformerBlock_call b x mask c) as [x1 c1]. simpl in *.
    destruct (IH x1 cs' Hcs') as [Hl' Hs'].
    destruct (stack ls x1 mask cs') as [y out]. simpl in *.
    split; [congruence|]. constructor; [exact Hs|]. rewrite <- Hl. exact Hs'.
Qed.

Lemma Forall2_replicate_None (ls : list (TransformerBlock (F:=F))) :
  Forall2 (fun b (c : option KV) => match c with
                      | Some c => kv_shape (self_attn b) 0 c
                      | None => 0 = 0
                      end) ls (replicate (length ls) None).
Proof. induction ls; constructor; [reflexivity | assumption]. Qed.

Lemma Forall2_map_Some (ls : list (TransformerBlock (F:=F))) (n : nat) (cs : list KV) :
  Forall2 (fun b c => kv_shape (self_attn b) n c) ls cs ->
  Forall2 (fun b (c : option KV) => match c with
                      | Some c => kv_shape (self_attn b) n c
                      | None => n = 0
                      end) ls (map Some cs).
Proof. induction 1; constructor; assumption. Qed.

(** The stack on [p ++ s] under the causal mask: the stack on [p], then
    the stack on [s] with the caches of the first run. *)
Lemma stack_app (ls : list (TransformerBlock (F:=F))) (n m : nat) :
  Forall (fun b => attn_wf (self_attn b)) ls -> 0 < n ->
  forall p s, length p = n -> length s = m ->
    let pre := stack ls p (Some (causal_mask n))
                 (replicate (length ls) None) in
    let suf := stack ls s (Some (drop n (causal_mask (n + m))))
                 (map Some pre.2) in
    stack ls (p ++ s) (Some (causal_mask (n + m)))
      (replicate (length ls) None)
    = (pre.1 ++ suf.1, suf.2).
Proof.
  intros Hwf Hn. induction Hwf as [|b ls Hb _ IH]; intros p s Hp Hs; cbv zeta.
  - reflexivity.
  - cbn [stack replicate length].
    pose proof (TransformerBlock_call_app b p s Hb) as Happ.
    rewrite Hp, Hs in Happ. cbv zeta in Happ. rewrite (Happ Hn). clear Happ.
    destruct (TransformerBlock_call_shape b p (Some (causal_mask n))
                None 0 Hb eq_refl) as [Hl1 Hk1].
    destruct (TransformerBlock_call b p (Some (causal_mask n)) None)
      as [p1 c1]. cbn [fst snd] in *.
    destruct (TransformerBlock_call_shape b s
                (Some (drop n (causal_mask (n + m))))
                (Some c1) (length p) Hb Hk1) as [Hl2 _].
    specialize (IH p1).
    destruct (stack ls p1 (Some (causal_mask n))
                (replicate (length ls) None)) as [yp outp].
    cbn [fst snd map stack] in *.
    destruct (TransformerBlock_call b s _ (Some c1)) as [s1 c2]. cbn [fst snd] in *.
    rewrite (IH s1) by congruence.
    destruct (stack ls s1 _ (map Some outp)) as [ys outs]. reflexivity.
Qed.

Lemma stack_causal_one (ls : list (TransformerBlock (F:=F))) :
  Forall (fun b => attn_wf (self_attn b)) ls ->
  forall x, length x = 1 ->
    stack ls x (Some (causal_mask 1)) (replicate (length ls) None)
    = stack ls x None (replicate (length ls) None).
Proof.
  induction 1 as [|b ls Hb _ IH]; intros x Hx; [reflexivity|].
  cbn [stack replicate length].
  rewrite TransformerBlock_call_causal_one by assumption.
  destruct (TransformerBlock_call_shape b x None None 0 Hb eq_refl) as [Hl _].
  destruct (TransformerBlock_call b x None None) as [x1 c1]. simpl in *.
  rewrite IH by congruence. reflexivity.
Qed.

Lemma stack_last_row (ls : list (TransformerBlock (F:=F))) (n : nat) :
  Forall (fun b => attn_wf (self_attn b)) ls ->
  forall x cs,
    Forall2 (fun b c => kv_shape (self_attn b) n c) ls cs -> length x = 1 ->
    stack ls x (Some (drop n (causal_mask (n + 1)))) (map Some cs)
    = stack ls x None (map Some cs).
Proof.
  induction 1 as [|b ls Hb _ IH]; intros x cs Hcs Hx; [reflexivity|].
  inversion Hcs as [|? c ? cs' Hc Hcs']; subst. cbn [stack map].
  rewrite TransformerBlock_call_last_row by assumption.
  destruct (TransformerBlock_call_shape b x None (Some c) n Hb Hc) as [Hl _].
  destruct (TransformerBlock_call b x None (Some c)) as [x1 c1]. simpl in *.
  rewrite IH by (try assumption; congruence). reflexivity.
Qed.

(** The loop with its indexed cache slots is [stack] on the slots from
    [e] on. *)
Lemma run_layers_stack (ls : list (TransformerBlock (F:=F))) mask :
  forall e x cache,
    x <> [] ->
    e + length ls <= length cache ->
    run_layers ls e x mask cache
    = Some ((stack ls x mask (drop e cache)).1,
            take e cache ++ map Some (stack ls x mask (drop e cache)).2
              ++ drop (e + length ls) cache).
Proof.
  induction ls as [|b ls IH]; intros e x cache Hx Hlen; simpl.
  - destruct (drop e cache); simpl; rewrite Nat.add_0_r, take_drop; reflexivity.
  - simpl in Hlen.
    destruct (lookup_lt_is_Some_2 cache e) as [c Hc]; [lia|].
    rewrite Hc, (drop_S _ _ _ Hc).
    destruct x as [|r x]; [congruence|].
    pose proof (length_TransformerBlock_call b (r :: x) mask c) as Hl1.
    destruct (TransformerBlock_call b (r :: x) mask c) as [x1 c1].
    rewrite IH
      by first [rewrite length_insert; lia
               | intros E; rewrite E in Hl1; discriminate].
    replace (S e + length ls) with (e + S (length ls)) by lia.
    rewrite drop_insert_lt by lia.
    destruct (stack ls x1 mask (drop (S e) cache)) as [y out]. simpl.
    f_equal. f_equal.
    rewrite (take_S_r _ _ (Some c1))
      by (apply list_lookup_insert_eq; eapply lookup_lt_Some; exact Hc).
    rewrite take_insert_ge by lia. rewrite <- app_assoc. cbn [app map].
    rewrite drop_insert_lt by lia. reflexivity.
Qed.

End StackDecomposition.

Section LlamaFacts.
Context {F : Type} {AF : Arith F} {AL : ArithLaws F}.

Lemma length_Embedding_call (e : Embedding (F:=F)) (x : list nat) :
  length (Embedding_call e x) = length x.
Proof. apply length_map. Qed.

Lemma Embedding_call_app (e : Embedding (F:=F)) (x1 x2 : list nat) :
  Embedding_call e (x1 ++ x2) = Embedding_call e x1 ++ Embedding_call e x2.
Proof. apply map_app. Qed.

(** A call without cache, and a call on a cache with an entry per
    layer, in terms of [stack]. *)
Lemma Llama_call_stack (m : Llama (F:=F)) (x : list nat) mask
    (cache : option (list (option KV))) :
  x <> [] ->
  match cache with Some c => length c = length (layers m) | None => True end ->
  let slots := match cache with
               | Some c => c
               | None => replicate (length (layers m)) None
               end in
  let st := stack (layers m) (Embedding_call (embed_tokens m) x)
              (causal_mask_for (length x)) slots in
  Llama_call m x mask cache
  = Some (Linear_call (lm_head m) (RMSNorm_call (norm m) st.1), map Some st.2).
Proof.
  intros Hx Hc. cbv zeta. unfold Llama_call.
  rewrite length_Embedding_call. fold (causal_mask_for (F:=F) (length x)).
  set (slots := match cache with
                | Some c => c
                | None => replicate (length (layers m)) None
                end).
  assert (Hlen : length slots = length (layers m)).
  { subst slots. destruct cache; [exact Hc | apply length_replicate]. }
  rewrite run_layers_stack
    by first [simpl; lia
             | intros E; apply (f_equal length) in E;
               rewrite length_Embedding_call in E; destruct x; [congruence | discriminate]].
  rewrite drop_0, take_0. simpl.
  rewrite drop_ge by lia. rewrite app_nil_r. reflexivity.
Qed.

Lemma stack_causal_mask_for (ls : list (TransformerBlock (F:=F))) (x : list (list F))
    (n : nat) :
  Forall (fun b => attn_wf (self_attn b)) ls -> 0 < n -> length x = n ->
  stack ls x (causal_mask_for n) (replicate (length ls) None)
  = stack ls x (Some (causal_mask n)) (replicate (length ls) None).
Proof.
  intros Hwf Hn Hx. unfold causal_mask_for.
  destruct (Nat.ltb_spec 1 n); [reflexivity|].
  assert (Hone : n = 1) by lia. subst n. rewrite Hone.
  symmetry. apply stack_causal_one; assumption.
Qed.

(** The stack on a sequence of at least two tokens, cut after its first
    [n] tokens. *)
Lemma Llama_stack_split (m : Llama (F:=F)) (p s : list nat) :
  model_wf m -> 0 < length p -> 1 < length p + length s ->
  let pre := stack (layers m) (Embedding_call (embed_tokens m) p)
               (causal_mask_for (length p)) (replicate (length (layers m)) None) in
  let suf := stack (layers m) (Embedding_call (embed_tokens m) s)
               (Some (drop (length p)
                        (causal_mask (length p + length s))))
               (map Some pre.2) in
  stack (layers m) (Embedding_call (embed_tokens m) (p ++ s))
    (causal_mask_for (length (p ++ s))) (replicate (length (layers m)) None)
  = (pre.1 ++ suf.1, suf.2).
Proof.
  intros Hwf Hp Hs. cbv zeta.
  rewrite (stack_causal_mask_for _ _ (length p))
    by (try exact Hwf; try exact Hp; apply length_Embedding_call).
  rewrite Embedding_call_app, length_app.
  unfold causal_mask_for.
  destruct (Nat.ltb_spec 1 (length p + length s)); [|lia].
  apply (stack_app (layers m) (length p) (length s) Hwf Hp);
    apply length_Embedding_call.
Qed.

(** A call of the stack on caches of [n] positions returns, for every
    layer, a cache of [n] positions more than the tokens it was given. *)
Lemma Llama_call_cache_growth (m : Llama (F:=F)) (x : list nat) mask
    (cs : list KV) (n : nat) :
  model_wf m ->
  Forall2 (fun b c => kv_shape (self_attn b) n c) (layers m) cs ->
  x <> [] ->
  exists logits cs',
    Llama_call m x mask (Some (map Some cs)) = Some (logits, map Some cs')
    /\ length logits = length x
    /\ Forall2 (fun b c => kv_shape (self_attn b) (n + length x) c) (layers m) cs'.
Proof.
  intros Hwf Hcs Hx.
  rewrite (Llama_call_stack m x mask (Some (map Some cs)) Hx)
    by (rewrite length_map; symmetry; eapply Forall2_length; exact Hcs).
  cbv zeta.
  destruct (stack_shape (layers m) (causal_mask_for (length x)) n Hwf
              (Embedding_call (embed_tokens m) x) (map Some cs)
              (Forall2_map_Some _ _ _ Hcs)) as [Hl Hs].
  rewrite length_Embedding_call in Hl, Hs.
  eexists _, _. split; [reflexivity|]. split; [|exact Hs].
  rewrite (proj1 (Linear_call_rows _ _)), length_RMSNorm_call. exact Hl.
Qed.

End LlamaFacts.

Section MainTheorems.
Context {F : Type} {AF : Arith F} {AL : ArithLaws F}.

(** C1: for a well-formed model and a token sequence of length at least
    two, one call on the whole sequence without cache returns the logits
    of the call on all but the last token followed by the logits of the
    call on the last token with the cache of that first call; so the
    final-position logits are the same (exactly, in any arithmetic
    satisfying [ArithLaws]), and so is the returned cache. *)
Theorem kv_cache_incremental_equivalence (m : Llama (F:=F)) (xs : list nat) :
  model_wf m ->
  2 <= length xs ->
  exists logits_full cache_full logits_pre cache_pre logits_step cache_step,
    Llama_call m xs None None = Some (logits_full, cache_full)
    /\ Llama_call m (removelast xs) None None = Some (logits_pre, cache_pre)
    /\ Llama_call m [List.last xs 0] None (Some cache_pre)
       = Some (logits_step, cache_step)
    /\ length logits_full = length xs
    /\ length logits_step = 1
    /\ List.last logits_full [] = List.last logits_step []
    /\ logits_full = logits_pre ++ logits_step
    /\ cache_full = cache_step.
Proof.
  intros Hwf Hlen.
  assert (Hne : xs <> []) by (destruct xs; [simpl in Hlen; lia | discriminate]).
  pose proof (app_removelast_last 0 Hne) as Hxs.
  set (p := removelast xs) in *. set (t := List.last xs 0) in *.
  assert (Hlx : length xs = length p + 1).
  { rewrite Hxs at 1. rewrite length_app. reflexivity. }
  assert (Hp : 0 < length p) by lia.
  set (pre := stack (layers m) (Embedding_call (embed_tokens m) p)
                (causal_mask_for (length p)) (replicate (length (layers m)) None)).
  set (suf := stack (layers m) (Embedding_call (embed_tokens m) [t]) None (map Some pre.2)).
  destruct (stack_shape (layers m) (causal_mask_for (length p)) 0 Hwf
              (Embedding_call (embed_tokens m) p) (replicate (length (layers m)) None)
              (Forall2_replicate_None _)) as [Hprel Hpres].
  fold pre in Hprel, Hpres. rewrite length_Embedding_call in Hprel, Hpres.
  destruct (stack_shape (layers m) None (0 + length p) Hwf
              (Embedding_call (embed_tokens m) [t]) (map Some pre.2)
              (Forall2_map_Some _ _ _ Hpres)) as [Hsufl _].
  fold suf in Hsufl. simpl in Hsufl.
  assert (Hfull : stack (layers m) (Embedding_call (embed_tokens m) xs)
                    (causal_mask_for (length xs)) (replicate (length (layers m)) None)
                  = (pre.1 ++ suf.1, suf.2)).
  { rewrite Hxs.
    rewrite (Llama_stack_split m p [t] Hwf Hp) by (simpl; lia).
    fold pre. simpl length.
    rewrite (stack_last_row (layers m) (length p) Hwf _ pre.2 Hpres) by reflexivity.
    reflexivity. }
  exists (Linear_call (lm_head m) (RMSNorm_call (norm m) (pre.1 ++ suf.1))),
         (map Some suf.2),
         (Linear_call (lm_head m) (RMSNorm_call (norm m) pre.1)),
         (map Some pre.2),
         (Linear_call (lm_head m) (RMSNorm_call (norm m) suf.1)),
         (map Some suf.2).
  assert (Hstep_len : length (Linear_call (lm_head m) (RMSNorm_call (norm m) suf.1)) = 1).
  { rewrite (proj1 (Linear_call_rows _ _)), length_RMSNorm_call. exact Hsufl. }
  split; [|split; [|split; [|split; [|split; [|split; [|split]]]]]].
  - rewrite (Llama_call_stack m xs None None Hne I). cbv zeta. rewrite Hfull. reflexivity.
  - rewrite (Llama_call_stack m p None None) by (try exact I; intros E; rewrite E in Hp; inversion Hp).
    reflexivity.
  - rewrite (Llama_call_stack m [t] None (Some (map Some pre.2))).
    + reflexivity.
    + discriminate.
    + rewrite length_map. symmetry. eapply Forall2_length. exact Hpres.
  - rewrite (proj1 (Linear_call_rows _ _)), length_RMSNorm_call, length_app.
    rewrite Hprel, Hsufl. symmetry. exact Hlx.
  - exact Hstep_len.
  - rewrite RMSNorm_call_app, Linear_call_app.
    destruct (Linear_call (lm_head m) (RMSNorm_call (norm m) suf.1)) as [|r [|r' l']];
      try discriminate.
    rewrite last_last. reflexivity.
  - rewrite RMSNorm_call_app, Linear_call_app. reflexivity.
  - reflexivity.
Qed.


(** C2: under the causal mask and without a prior cache, what is
    computed at position [i] does not depend on positions after [i]:
    two inputs that agree on positions [0..i] give the same attention
    output at position [i] (and at every earlier position), in one
    attention layer and through the whole stack, whatever their later
    positions hold. *)
Theorem causal_mask_hides_future (a : Attention (F:=F)) (h1 h2 : list (list F))
    (m : Llama (F:=F)) (x1 x2 : list nat) (i : nat) :
  attn_wf a -> model_wf m ->
  i < length h1 -> i < length h2 -> take (S i) h1 = take (S i) h2 ->
  1 < length x1 -> 1 < length x2 ->
  i < length x1 -> i < length x2 -> take (S i) x1 = take (S i) x2 ->
  (let o1 := (Attention_call a h1
                (Some (causal_mask (length h1))) None).1 in
   let o2 := (Attention_call a h2
                (Some (causal_mask (length h2))) None).1 in
   take (S i) o1 = take (S i) o2 /\ o1 !! i = o2 !! i /\ is_Some (o1 !! i))
  /\ exists l1 c1 l2 c2,
      Llama_call m x1 None None = Some (l1, c1)
      /\ Llama_call m x2 None None = Some (l2, c2)
      /\ take (S i) l1 = take (S i) l2
      /\ l1 !! i = l2 !! i /\ is_Some (l1 !! i).
Proof.
  intros Ha Hm Hi1 Hi2 Hh Hx1 Hx2 Hj1 Hj2 Hx.
  assert (Hlook : forall (A : Type) (l1 l2 : list A),
            take (S i) l1 = take (S i) l2 -> i < length l1 ->
            l1 !! i = l2 !! i /\ is_Some (l1 !! i)).
  { intros A l1 l2 Ht Hl. split; [|apply lookup_lt_is_Some_2; exact Hl].
    rewrite <- (lookup_take_lt l1 (S i) i), <- (lookup_take_lt l2 (S i) i) by lia.
    rewrite Ht. reflexivity. }
  split.
  - cbv zeta.
    assert (Hsplit : forall h : list (list F), i < length h ->
              take (S i) (Attention_call a h
                            (Some (causal_mask (length h))) None).1
              = (Attention_call a (take (S i) h)
                   (Some (causal_mask (S i))) None).1).
    { intros h Hhi.
      pose proof (Attention_call_app a (take (S i) h) (drop (S i) h) Ha) as Happ.
      rewrite take_drop, length_take, length_drop in Happ.
      replace (S i `min` length h) with (S i) in Happ by lia.
      replace (S i + (length h - S i)) with (length h) in Happ by lia.
      cbv zeta in Happ. rewrite Happ by lia. cbn [fst].
      apply take_app_length'.
      destruct (Attention_call_shape a (take (S i) h)
                  (Some (causal_mask (S i))) None 0 Ha eq_refl) as [Hl _].
      rewrite Hl, length_take. lia. }
    assert (Heq : take (S i) (Attention_call a h1
                     (Some (causal_mask (length h1))) None).1
                  = take (S i) (Attention_call a h2
                     (Some (causal_mask (length h2))) None).1).
    { rewrite !Hsplit by assumption. rewrite Hh. reflexivity. }
    split; [exact Heq|]. apply Hlook; [exact Heq|].
    destruct (Attention_call_shape a h1
                (Some (causal_mask (length h1))) None 0 Ha eq_refl) as [Hl _].
    rewrite Hl. exact Hi1.
  - set (st := fun x : list nat =>
                 stack (layers m) (Embedding_call (embed_tokens m) x)
                   (causal_mask_for (length x)) (replicate (length (layers m)) None)).
    set (out := fun x : list nat =>
                  Linear_call (lm_head m) (RMSNorm_call (norm m) (st x).1)).
    assert (Hsplit : forall x : list nat, 1 < length x -> i < length x ->
              take (S i) (out x)
              = Linear_call (lm_head m)
                  (RMSNorm_call (norm m)
                     (stack (layers m) (Embedding_call (embed_tokens m) (take (S i) x))
                        (causal_mask_for (S i))
                        (replicate (length (layers m)) None)).1)).
    { intros x Hx1' Hxi. subst out st. cbv beta.
      pose proof (Llama_stack_split m (take (S i) x) (drop (S i) x) Hm) as Happ.
      rewrite take_drop, length_take, length_drop in Happ.
      replace (S i `min` length x) with (S i) in Happ by lia.
      cbv zeta in Happ. rewrite Happ by lia. cbn [fst].
      rewrite RMSNorm_call_app, Linear_call_app.
      apply take_app_length'.
      rewrite (proj1 (Linear_call_rows _ _)), length_RMSNorm_call.
      destruct (stack_shape (layers m) (causal_mask_for (S i)) 0 Hm
                  (Embedding_call (embed_tokens m) (take (S i) x))
                  (replicate (length (layers m)) None)
                  (Forall2_replicate_None _)) as [Hl _].
      rewrite Hl, length_Embedding_call, length_take. lia. }
    exists (out x1), (map Some (st x1).2), (out x2), (map Some (st x2).2).
    assert (Heq : take (S i) (out x1) = take (S i) (out x2)).
    { rewrite !Hsplit by assumption. rewrite Hx. reflexivity. }
    split; [apply (Llama_call_stack m x1 None None); [intros E; rewrite E in Hj1; inversion Hj1 | exact I]|].
    split; [apply (Llama_call_stack m x2 None None); [intros E; rewrite E in Hj2; inversion Hj2 | exact I]|].
    split; [exact Heq|]. apply Hlook; [exact Heq|].
    subst out st. cbv beta.
    rewrite (proj1 (Linear_call_rows _ _)), length_RMSNorm_call.
    destruct (stack_shape (layers m) (causal_mask_for (length x1)) 0 Hm
                (Embedding_call (embed_tokens m) x1)
                (replicate (length (layers m)) None)
                (Forall2_replicate_None _)) as [Hl _].
    rewrite Hl, length_Embedding_call. exact Hj1.
Qed.


(** C3: the expansion of the key/value heads is a contiguous-block
    repeat.  With [r = repeats = num_attention_heads /
    num_key_value_heads], expanded head [g * r + j] is key/value head
    [g] for every [j < r]; so query head [h] is paired with key/value
    head [h / r]. *)
Theorem kv_heads_expand_in_blocks (a : Attention (F:=F)) (L d : nat)
    (t : list (list (list F))) (g j : nat) :
  attn_num_attention_heads a = attn_num_key_value_heads a * repeats a ->
  heads_shape (attn_num_key_value_heads a) L d t ->
  g < attn_num_key_value_heads a -> j < repeats a ->
  Attention_repeat a L t !! (g * repeats a + j) = t !! g
  /\ is_Some (t !! g)
  /\ length (Attention_repeat a L t) = attn_num_attention_heads a
  /\ forall h, h < attn_num_attention_heads a ->
       Attention_repeat a L t !! h = t !! (h / repeats a).
Proof.
  intros HH Ht Hg Hj.
  rewrite (Attention_repeat_block a L d t HH Ht).
  split; [apply lookup_block_repeat; exact Hj|].
  split; [apply lookup_lt_is_Some_2; rewrite (proj1 Ht); exact Hg|].
  split; [rewrite length_block_repeat, (proj1 Ht); symmetry; exact HH|].
  intros h Hh.
  rewrite (Nat.div_mod_eq h (repeats a)) at 1.
  rewrite (Nat.mul_comm (repeats a)).
  apply lookup_block_repeat. apply Nat.mod_upper_bound. lia.
Qed.

(** C4: an attention call on [L] rows with a prior cache entry of [n]
    positions rotates queries and keys with position offset [n], appends
    the new keys and values after the cached ones, and returns a cache
    entry of [n + L] positions; without a cache the offset is [0] and the
    returned entry has [L] positions.  With one input row the entry
    grows by exactly one position; it never gets shorter. *)
Theorem attention_cache_offset_and_growth (a : Attention (F:=F)) (x : list (list F))
    (mask : option (list (list F))) (cache : option KV) (n : nat) :
  attn_wf a ->
  match cache with Some c => kv_shape a n c | None => n = 0 end ->
  let q := (Attention_qkv a x).1.1 in
  let k := (Attention_qkv a x).1.2 in
  let v := (Attention_qkv a x).2 in
  let K := match cache with
           | Some c => concat_seq c.1 (RoPE_call (rope a) k n)
           | None => RoPE_call (rope a) k n
           end in
  let V := match cache with Some c => concat_seq c.2 v | None => v end in
  Attention_call a x mask cache
    = (Attention_attend a (length x) (RoPE_call (rope a) q n) K V mask, (K, V))
  /\ kv_shape a (n + length x) (K, V)
  /\ seq_len K = n + length x /\ seq_len V = n + length x
  /\ (length x = 1 -> seq_len K = n + 1)
  /\ n <= seq_len K.
Proof.
  intros Hwf Hc. cbv zeta.
  destruct (attn_wf_heads a Hwf) as (HH & Hd & Hdims).
  assert (Hcall : Attention_call a x mask cache
            = (Attention_attend a (length x)
                 (RoPE_call (rope a) (Attention_qkv a x).1.1 n)
                 match cache with
                 | Some c => concat_seq c.1 (RoPE_call (rope a) (Attention_qkv a x).1.2 n)
                 | None => RoPE_call (rope a) (Attention_qkv a x).1.2 n
                 end
                 match cache with
                 | Some c => concat_seq c.2 (Attention_qkv a x).2
                 | None => (Attention_qkv a x).2
                 end mask,
               (match cache with
                | Some c => concat_seq c.1 (RoPE_call (rope a) (Attention_qkv a x).1.2 n)
                | None => RoPE_call (rope a) (Attention_qkv a x).1.2 n
                end,
                match cache with
                | Some c => concat_seq c.2 (Attention_qkv a x).2
                | None => (Attention_qkv a x).2
                end))).
  { unfold Attention_call. destruct (Attention_qkv a x) as [[q k] v].
    destruct cache as [[kc vc]|]; cbn [fst snd].
    - rewrite (seq_len_heads (attn_num_attention_heads a) n (head_dim a) kc HH (proj1 Hc)).
      reflexivity.
    - subst n. reflexivity. }
  pose proof (Attention_call_shape a x mask cache n Hwf Hc) as [_ Hshape].
  rewrite Hcall in Hshape. cbn [snd] in Hshape.
  pose proof (seq_len_heads _ _ _ _ HH (proj1 Hshape)) as HK.
  pose proof (seq_len_heads _ _ _ _ HH (proj2 Hshape)) as HV.
  cbn [fst snd] in HK, HV.
  split; [exact Hcall|]. split; [exact Hshape|].
  split; [exact HK|]. split; [exact HV|].
  split; [intros Hone; rewrite HK, Hone; reflexivity | rewrite HK; lia].
Qed.

End MainTheorems.

(** ** The concrete arithmetic satisfies the laws; concrete runs *)

Lemma fixed_laws : ArithLaws fixed.
Proof.
  split.
  - intros [|z]; simpl; [reflexivity|]. f_equal. lia.
  - intros x. reflexivity.
  - intros x. reflexivity.
  - reflexivity.
  - intros [|z]; reflexivity.
Qed.

Lemma fixed_order : ArithOrder fixed.
Proof.
  split.
  - intros [|z]; simpl; [reflexivity | apply Z.ltb_irrefl].
  - intros [|x] [|y] [|z]; simpl; try congruence.
    rewrite !Z.ltb_lt. lia.
  - intros [|x] [|y] [|z]; simpl; try congruence.
    rewrite !Z.ltb_ge. lia.
Qed.

Lemma tiny_attention_wf : attn_wf tiny_attention.
Proof. unfold attn_wf. vm_compute. repeat split; lia. Qed.

Lemma tiny_weight_shape (r c : nat) : has_shape r c (tiny_weight r c).
Proof.
  unfold tiny_weight. split; [rewrite length_map, length_seq; reflexivity|].
  apply Forall_map, Forall_forall. intros i _. simpl.
  rewrite length_map, length_seq. reflexivity.
Qed.

Lemma tiny_weight_rows (r c : nat) : length (tiny_weight r c) = r.
Proof. apply tiny_weight_shape. Qed.

Lemma tiny_config_valid : config_valid tiny_args.
Proof. split; reflexivity. Qed.

Lemma tiny_model_built : Llama_init tiny_weight tiny_args = Some tiny_model.
Proof. vm_compute. reflexivity. Qed.

Lemma tiny_model_shaped : model_shaped tiny_args tiny_model.
Proof.
  apply (Llama_init_shaped tiny_weight);
    [exact tiny_config_valid | reflexivity | exact tiny_weight_shape
    | exact tiny_model_built].
Qed.

Lemma tiny_model_wf : model_wf tiny_model.
Proof. exact (model_shaped_wf tiny_args tiny_model tiny_model_shaped). Qed.

(** The small model on [[1; 2; 3]]: the last logits of the full run are
    those of the cached step, computed. *)
Example tiny_incremental_decoding_agrees :
  match Llama_call tiny_model [1; 2; 3] None None,
        Llama_call tiny_model [1; 2] None None with
  | Some (logits_full, cache_full), Some (_, cache_pre) =>
      match Llama_call tiny_model [3] None (Some cache_pre) with
      | Some (logits_step, cache_step) =>
          List.last logits_full [] = List.last logits_step []
          /\ cache_full = cache_step
          /\ length (List.last logits_full []) = 10
      | None => False
      end
  | _, _ => False
  end.
Proof. vm_compute. repeat split. Qed.

(** Changing the last token changes the last logits only. *)
Example tiny_future_token_is_hidden :
  match Llama_call tiny_model [1; 2; 3] None None,
        Llama_call tiny_model [1; 2; 7] None None with
  | Some (l1, _), Some (l2, _) =>
      take 2 l1 = take 2 l2 /\ l1 !! 2 <> l2 !! 2
  | _, _ => False
  end.
Proof. vm_compute. split; [reflexivity | discriminate]. Qed.

(** Two key/value heads expanded to four: [h0; h0; h1; h1]. *)
Example tiny_repeat_blocks :
  let t := Attention_kv_heads tiny_attention
             (Linear_call (k_proj tiny_attention) tiny_hidden) in
  Attention_repeat tiny_attention 3 t
  = [nth 0 t []; nth 0 t []; nth 1 t []; nth 1 t []]
  /\ nth 0 t [] <> nth 1 t [].
Proof. vm_compute. split; [reflexivity | discriminate]. Qed.

Example argmax_first_maximum :
  argmax [Fix 3; Fix 7; Fix 7; Fix 1] = 1 /\ argmax [Fix 5; Fix 5] = 0.
Proof. split; reflexivity. Qed.

(** Greedy generation from [[1; 2; 3]]: the cache holds 3 positions after
    the first step and one more after each further step. *)
Example tiny_generation_cache_lengths :
  let lengths n :=
    match generate_take (fun (k : unit) (_ : list fixed) => (0, k))
            (Llama_model tiny_model) (Fix 0) n (generate_init [1; 2; 3] tt) with
    | Some (_, st) =>
        match gen_cache st with
        | Some c => map (fun e => match e with
                                  | Some kv => (seq_len kv.1, seq_len kv.2)
                                  | None => (0, 0)
                                  end) c
        | None => []
        end
    | None => []
    end in
  lengths 1 = [(3, 3); (3, 3)] /\ lengths 2 = [(4, 4); (4, 4)]
  /\ lengths 3 = [(5, 5); (5, 5)] /\ lengths 4 = [(6, 6); (6, 6)].
Proof. vm_compute. repeat split. Qed.

(** *** The theorems at concrete inputs *)

Lemma kv_cache_incremental_equivalence_witness :
  model_wf tiny_model /\ 2 <= length [1; 2; 3]
  /\ exists logits_full cache_full logits_pre cache_pre logits_step cache_step,
      Llama_call tiny_model [1; 2; 3] None None = Some (logits_full, cache_full)
      /\ Llama_call tiny_model (removelast [1; 2; 3]) None None
         = Some (logits_pre, cache_pre)
      /\ Llama_call tiny_model [List.last [1; 2; 3] 0] None (Some cache_pre)
         = Some (logits_step, cache_step)
      /\ length logits_full = length [1; 2; 3]
      /\ length logits_step = 1
      /\ List.last logits_full [] = List.last logits_step []
      /\ logits_full = logits_pre ++ logits_step
      /\ cache_full = cache_step.
Proof.
  split; [exact tiny_model_wf|]. split; [simpl; lia|].
  apply (@kv_cache_incremental_equivalence fixed fixed_arith fixed_laws
           tiny_model [1; 2; 3] tiny_model_wf).
  simpl; lia.
Defined.

Lemma causal_mask_hides_future_witness :
  let h2 := take 2 tiny_hidden ++ [replicate 8 (Fix 700)] in
  let o1 := (Attention_call tiny_attention tiny_hidden
               (Some (causal_mask (length tiny_hidden))) None).1 in
  let o2 := (Attention_call tiny_attention h2
               (Some (causal_mask (length h2))) None).1 in
  take 2 tiny_hidden = take 2 h2
  /\ take 2 [1; 2; 3] = take 2 [1; 2; 7]
  /\ (take 2 o1 = take 2 o2 /\ o1 !! 1 = o2 !! 1 /\ is_Some (o1 !! 1))
  /\ exists l1 c1 l2 c2,
      Llama_call tiny_model [1; 2; 3] None None = Some (l1, c1)
      /\ Llama_call tiny_model [1; 2; 7] None None = Some (l2, c2)
      /\ take 2 l1 = take 2 l2
      /\ l1 !! 1 = l2 !! 1 /\ is_Some (l1 !! 1).
Proof.
  cbv zeta. split; [reflexivity|]. split; [reflexivity|].
  apply (@causal_mask_hides_future fixed fixed_arith fixed_laws
           tiny_attention tiny_hidden (take 2 tiny_hidden ++ [replicate 8 (Fix 700)])
           tiny_model [1; 2; 3] [1; 2; 7] 1 tiny_attention_wf tiny_model_wf);
    try reflexivity; simpl; lia.
Defined.

Lemma kv_heads_expand_in_blocks_witness :
  let t := Attention_kv_heads tiny_attention
             (Linear_call (k_proj tiny_attention) tiny_hidden) in
  attn_num_attention_heads tiny_attention
    = attn_num_key_value_heads tiny_attention * repeats tiny_attention
  /\ heads_shape (attn_num_key_value_heads tiny_attention) 3 2 t
  /\ Attention_repeat tiny_attention 3 t !! (1 * repeats tiny_attention + 1) = t !! 1
  /\ is_Some (t !! 1)
  /\ length (Attention_repeat tiny_attention 3 t) = attn_num_attention_heads tiny_attention
  /\ forall h, h < attn_num_attention_heads tiny_attention ->
       Attention_repeat tiny_attention 3 t !! h = t !! (h / repeats tiny_attention).
Proof.
  cbv zeta.
  assert (HH : attn_num_attention_heads tiny_attention
               = attn_num_key_value_heads tiny_attention * repeats tiny_attention)
    by reflexivity.
  assert (Hs : heads_shape (attn_num_key_value_heads tiny_attention) 3 2
                 (Attention_kv_heads tiny_attention
                    (Linear_call (k_proj tiny_attention) tiny_hidden)))
    by (vm_compute; split; [reflexivity | repeat constructor]).
  split; [exact HH|]. split; [exact Hs|].
  apply (kv_heads_expand_in_blocks tiny_attention 3 2 _ 1 1 HH Hs);
    vm_compute; lia.
Defined.

Lemma attention_cache_offset_and_growth_witness :
  let c := (Attention_call tiny_attention (take 2 tiny_hidden) None None).2 in
  let x := drop 2 tiny_hidden in
  kv_shape tiny_attention 2 c
  /\ seq_len (Attention_call tiny_attention x None (Some c)).2.1 = 2 + length x
  /\ (Attention_call tiny_attention x None (Some c)).2.1
     = concat_seq c.1
         (RoPE_call (rope tiny_attention) (Attention_qkv tiny_attention x).1.2 2).
Proof.
  cbv zeta.
  assert (Hc : kv_shape tiny_attention 2
                 (Attention_call tiny_attention (take 2 tiny_hidden) None None).2)
    by (vm_compute; repeat split; repeat constructor).
  split; [exact Hc|].
  destruct (@attention_cache_offset_and_growth fixed fixed_arith
              tiny_attention (drop 2 tiny_hidden) None
              (Some (Attention_call tiny_attention (take 2 tiny_hidden) None None).2)
              2 tiny_attention_wf Hc) as (Hcall & _ & HK & _).
  rewrite Hcall. split; [exact HK | reflexivity].
Defined.

Lemma sample_greedy_is_first_argmax_witness :
  is_zero (Fix 0) = true
  /\ [Fix 3; Fix 7; Fix 7; Fix 1] <> []
  /\ exists (i : nat) (v : fixed),
      [Fix 3; Fix 7; Fix 7; Fix 1] !! i = Some v
      /\ (forall j x, [Fix 3; Fix 7; Fix 7; Fix 1] !! j = Some x -> fltb v x = false)
      /\ (forall j x, j < i -> [Fix 3; Fix 7; Fix 7; Fix 1] !! j = Some x ->
                      fltb x v = true)
      /\ forall key' : unit,
           sample (fun k _ => (0, k)) (Fix 0) key' [Fix 3; Fix 7; Fix 7; Fix 1]
           = (i, key').
Proof.
  split; [reflexivity|]. split; [discriminate|].
  apply (@sample_greedy_is_first_argmax fixed fixed_arith unit (fun k _ => (0, k))
           fixed_order (Fix 0) tt [Fix 3; Fix 7; Fix 7; Fix 1]);
    [reflexivity | discriminate].
Defined.

(** ** The forward pass: shapes, cache slots and failures *)

Section ForwardFacts.
Context {F : Type} {AF : Arith F}.

Lemma run_layers_rows (ls : list (TransformerBlock (F:=F))) :
  forall e x mask cache y cache',
    run_layers ls e x mask cache = Some (y, cache') -> length y = length x.
Proof.
  induction ls as [|b ls IH]; intros e x mask cache y cache' Hr; simpl in Hr.
  - injection Hr as <- _. reflexivity.
  - destruct (cache !! e) as [c|]; [|discriminate].
    destruct x as [|r x]; [discriminate|].
    pose proof (length_TransformerBlock_call b (r :: x) mask c) as Hl.
    destruct (TransformerBlock_call b (r :: x) mask c) as [x1 c1]. simpl in Hl.
    apply IH in Hr. simpl. congruence.
Qed.

(** The loop raises [IndexError] when the slots run out before the
    layers do. *)
Lemma run_layers_short (ls : list (TransformerBlock (F:=F))) :
  forall e x mask cache,
    e <= length cache -> length cache < e + length ls ->
    run_layers ls e x mask cache = None.
Proof.
  induction ls as [|b ls IH]; intros e x mask cache He Hlen; simpl in *; [lia|].
  destruct (cache !! e) as [c|] eqn:Hc; [|reflexivity].
  apply lookup_lt_Some in Hc.
  destruct x as [|r x]; [reflexivity|].
  destruct (TransformerBlock_call b (r :: x) mask c) as [x1 c1].
  apply IH; rewrite length_insert; lia.
Qed.

(** On a non-empty sequence the loop returns when there is a slot for
    every layer. *)
Lemma run_layers_total (ls : list (TransformerBlock (F:=F))) :
  forall e x mask cache,
    x <> [] ->
    e + length ls <= length cache ->
    is_Some (run_layers ls e x mask cache).
Proof.
  induction ls as [|layer rest IH]; intros e x mask cache Hx Hlen; simpl.
  - eexists; reflexivity.
  - simpl in Hlen.
    destruct (lookup_lt_is_Some_2 cache e) as [c Hc]; [lia|].
    rewrite Hc. destruct x as [|r x]; [congruence|].
    pose proof (length_TransformerBlock_call layer (r :: x) mask c) as Hl.
    destruct (TransformerBlock_call layer (r :: x) mask c) as [x1 c1].
    apply IH; [intros E; rewrite E in Hl; discriminate | rewrite length_insert; lia].
Qed.

(** A call on a non-empty token list never fails on a cache with a slot
    per layer, and returns one of the same length. *)
Lemma Llama_call_total (m : Llama (F:=F)) x mask cache :
  x <> [] ->
  match cache with Some c => length (layers m) <= length c | None => True end ->
  exists logits cache',
    Llama_call m x mask cache = Some (logits, cache')
    /\ length cache' = match cache with
                       | Some c => length c
                       | None => length (layers m)
                       end.
Proof.
  intros Hx Hc. unfold Llama_call.
  set (c0 := match cache with
             | Some c => c
             | None => replicate (length (layers m)) None
             end).
  assert (Hlen : 0 + length (layers m) <= length c0).
  { subst c0. destruct cache; [exact Hc | rewrite length_replicate; lia]. }
  assert (Hemb : Embedding_call (embed_tokens m) x <> []).
  { intros E. apply (f_equal length) in E. rewrite length_Embedding_call in E.
    destruct x; [congruence | discriminate]. }
  match goal with
  | |- context [run_layers ?ls ?e ?x0 ?mk c0] =>
      destruct (run_layers_total ls e x0 mk c0 Hemb Hlen) as [[y c'] Hr];
      rewrite Hr; pose proof (run_layers_length _ _ _ _ _ _ _ Hr) as Hl
  end.
  eexists _, _. split; [reflexivity|].
  rewrite Hl. subst c0. destruct cache; [reflexivity | apply length_replicate].
Qed.

Lemma length_stack_entries (ls : list (TransformerBlock (F:=F))) :
  forall x mask cache,
    length ls <= length cache -> length (stack ls x mask cache).2 = length ls.
Proof.
  induction ls as [|b ls IH]; intros x mask cache Hle; [reflexivity|].
  destruct cache as [|s cache]; [simpl in Hle; lia|]. cbn [stack].
  destruct (TransformerBlock_call b x mask s) as [x1 c1].
  specialize (IH x1 mask cache ltac:(simpl in Hle; lia)).
  destruct (stack ls x1 mask cache) as [y out]. simpl in *. lia.
Qed.

Lemma Llama_call_rows (m : Llama (F:=F)) (x : list nat)
    (mask : option (list (list F))) (cache : option (list (option KV))) :
  match Llama_call m x mask cache with
  | Some (logits, _) =>
      length logits = length x
      /\ Forall (fun r => length r = length (weight (lm_head m))) logits
  | None => True
  end.
Proof.
  unfold Llama_call.
  destruct (run_layers _ _ _ _ _) as [[y c']|] eqn:Hr; [|exact I].
  apply run_layers_rows in Hr. rewrite length_Embedding_call in Hr.
  destruct (Linear_call_rows (lm_head m) (RMSNorm_call (norm m) y)) as [Hl Hw].
  split; [|exact Hw]. rewrite Hl, length_RMSNorm_call. exact Hr.
Qed.

(** X1: the logits of a call have one row per input token and one entry
    per row of the [lm_head] weight (the vocabulary), and the cache list
    returned has the length of the one given, or one slot per layer when
    none was given; whatever the cache entries and the mask argument. *)
Theorem Llama_call_logits_shape (m : Llama (F:=F)) (x : list nat)
    (mask : option (list (list F))) (cache : option (list (option KV))) :
  match Llama_call m x mask cache with
  | Some (logits, cache') =>
      length logits = length x
      /\ Forall (fun r => length r = length (weight (lm_head m))) logits
      /\ length cache' = match cache with
                         | Some c => length c
                         | None => length (layers m)
                         end
  | None => True
  end.
Proof.
  pose proof (Llama_call_rows m x mask cache) as Hrows.
  destruct (Llama_call m x mask cache) as [[logits cache']|] eqn:Hcall; [|exact I].
  destruct Hrows as [Hl Hw]. split; [exact Hl|]. split; [exact Hw|].
  unfold Llama_call in Hcall.
  destruct (run_layers _ _ _ _ _) as [[y c']|] eqn:Hr; [|discriminate].
  injection Hcall as _ <-. apply run_layers_length in Hr. rewrite Hr.
  destruct cache; [reflexivity | apply length_replicate].
Qed.

(** X2: a call with a cache list shorter than the number of layers
    raises ([cache[e]] is out of range at layer [len(cache)]), also
    when the list is empty and whatever the tokens. *)
Theorem Llama_call_short_cache_raises (m : Llama (F:=F)) (x : list nat)
    (mask : option (list (list F))) (c : list (option KV)) :
  length c < length (layers m) ->
  Llama_call m x mask (Some c) = None.
Proof.
  intros Hc. unfold Llama_call.
  rewrite run_layers_short; [reflexivity | lia | simpl; lia].
Qed.

(** X3: a call that returns has filled the slots of its layers and left
    every further slot of the cache list as it was; the list keeps its
    length. *)
Theorem Llama_call_keeps_spare_slots (m : Llama (F:=F)) (x : list nat)
    (mask : option (list (list F))) (c : list (option KV))
    (logits : list (list F)) (c' : list (option KV)) :
  Llama_call m x mask (Some c) = Some (logits, c') ->
  length (layers m) <= length c
  /\ length c' = length c
  /\ Forall (fun slot => is_Some slot) (take (length (layers m)) c')
  /\ drop (length (layers m)) c' = drop (length (layers m)) c.
Proof.
  intros Hcall.
  destruct (le_lt_dec (length (layers m)) (length c)) as [Hle|Hlt];
    [unfold Llama_call in Hcall
    |unfold Llama_call in Hcall;
     rewrite run_layers_short in Hcall by (simpl; lia); discriminate].
  destruct (layers m) as [|b ls] eqn:Hls.
  { simpl in Hcall. injection Hcall as _ <-.
    split; [simpl; lia|]. split; [reflexivity|]. split; [constructor | reflexivity]. }
  rewrite <- Hls in *.
  assert (Hemb : Embedding_call (embed_tokens m) x <> []).
  { intros E. rewrite E, Hls in Hcall. simpl in Hcall.
    destruct (c !! 0); discriminate. }
  rewrite run_layers_stack in Hcall by first [exact Hemb | simpl; lia].
  rewrite drop_0, take_0 in Hcall. cbn [app Nat.add] in Hcall.
  set (st := stack (layers m) _ _ c) in Hcall.
  assert (Hst : length st.2 = length (layers m))
    by (subst st; apply length_stack_entries; exact Hle).
  injection Hcall as _ <-.
  split; [exact Hle|]. split.
  { rewrite length_app, length_map, length_drop, Hst. lia. }
  split.
  - rewrite take_app_length' by (rewrite length_map; symmetry; exact Hst).
    apply Forall_map, Forall_forall. intros kv _. eexists; reflexivity.
  - rewrite drop_app_length' by (rewrite length_map; symmetry; exact Hst).
    reflexivity.
Qed.

(** With as many key/value heads as attention heads, [repeat] returns
    its argument. *)
Lemma block_repeat_one {A} (t : list A) : concat (map (replicate 1) t) = t.
Proof.
  induction t as [|x t IH]; [reflexivity|].
  cbn [map concat replicate app]. f_equal. exact IH.
Qed.

(** X4: multi-head attention proper.  When [num_key_value_heads] equals
    [num_attention_heads] (the default configuration), [repeats] is 1
    and the local function [repeat] is the identity on the keys and on
    the values. *)
Theorem Attention_repeat_identity (a : Attention (F:=F)) (L d : nat)
    (t : list (list (list F))) :
  attn_num_attention_heads a = attn_num_key_value_heads a ->
  repeats a = 1 ->
  heads_shape (attn_num_key_value_heads a) L d t ->
  Attention_repeat a L t = t.
Proof.
  intros HH Hr Ht.
  rewrite (Attention_repeat_block a L d t) by (try exact Ht; rewrite Hr; lia).
  rewrite Hr. apply block_repeat_one.
Qed.

Lemma concat_chunks {A} (n size : nat) : forall l : list A,
  length l = n * size -> concat (chunks n size l) = l.
Proof.
  induction n as [|n IH]; intros l Hl.
  - destruct l; [reflexivity | discriminate].
  - rewrite <- (take_drop size l) at 1.
    rewrite chunks_cons by (rewrite length_take; simpl in Hl; lia).
    cbn [concat]. rewrite IH by (rewrite length_drop; simpl in Hl; lia).
    apply take_drop.
Qed.

Lemma swap_axes_swap_axes {A} (n1 : nat) (t : list (list (list A))) :
  Forall (fun r => length r = n1) t ->
  swap_axes (length t) (swap_axes n1 t) = t.
Proof.
  intros Hall. unfold swap_axes.
  apply list_eq. intros i. rewrite list_lookup_fmap.
  destruct (t !! i) as [r|] eqn:Hi.
  - rewrite lookup_seq_lt by (eapply lookup_lt_Some; exact Hi). simpl. f_equal.
    assert (Hr : length r = n1)
      by (eapply (proj1 (Forall_lookup _ _) Hall); exact Hi).
    apply list_eq. intros h. rewrite !list_lookup_fmap.
    destruct (r !! h) as [v|] eqn:Hh.
    + rewrite lookup_seq_lt by (rewrite <- Hr; eapply lookup_lt_Some; exact Hh).
      simpl. f_equal.
      rewrite (nth_lookup_Some _ i [] (nth h r []))
        by (rewrite list_lookup_fmap, Hi; reflexivity).
      apply nth_lookup_Some. exact Hh.
    + rewrite lookup_seq_ge by (rewrite <- Hr; apply lookup_ge_None; exact Hh).
      reflexivity.
  - rewrite lookup_seq_ge by (apply lookup_ge_None; exact Hi). reflexivity.
Qed.

(** X5: splitting into heads and merging the heads are inverse.  On [L]
    rows of width [heads * d], the split of the queries
    ([reshape(B, L, heads, d).transpose(0, 2, 1, 3)]) followed by the
    merge applied to [v_hat] ([transpose(0, 2, 1, 3).reshape(B, L, -1)])
    gives the rows back; and the split has the shape [heads, L, d]. *)
Theorem heads_merge_inverts_split (heads d : nat) (x : list (list F)) :
  Forall (fun r => length r = heads * d) x ->
  let split := swap_axes heads (map (chunks heads d) x) in
  map (fun r => concat r) (swap_axes (length x) split) = x
  /\ heads_shape heads (length x) d split.
Proof.
  intros Hx. cbv zeta. split.
  - rewrite <- (length_map (chunks heads d) x) at 1.
    rewrite swap_axes_swap_axes
      by (apply Forall_map, Forall_forall; intros r _; apply length_chunks).
    rewrite map_map. rewrite <- (map_id x) at 2.
    apply map_ext_Forall. eapply Forall_impl; [exact Hx|].
    intros r Hr. simpl. apply concat_chunks. exact Hr.
  - split; [apply length_swap_axes|].
    unfold swap_axes. apply Forall_map, Forall_forall. intros h Hh. simpl.
    rewrite !length_map. split; [reflexivity|].
    apply elem_of_seq in Hh.
    apply Forall_map, Forall_map, Forall_forall. intros r Hr. simpl.
    assert (Hlen : length r = heads * d)
      by (eapply (proj1 (Forall_forall _ _) Hx); exact Hr).
    erewrite nth_lookup_Some; [|unfold chunks;
      rewrite list_lookup_fmap, lookup_seq_lt by lia; reflexivity].
    rewrite length_take, length_drop. simpl. nia.
Qed.

End ForwardFacts.

(** ** From the configuration to a run *)

Section BuiltModel.
Context {F : Type} {AF : Arith F} {AL : ArithLaws F}.
Variable initial_weight : nat -> nat -> list (list F).

(** X6: a configuration that satisfies the invariants gives a model that
    runs.  When [head_dim] is even and the weights have the shapes they
    are created with, the model built from a valid configuration has the
    shapes of that configuration and is well formed, and a call on any
    non-empty token list without cache returns one row of [vocab_size]
    logits per token and, for each of the [num_hidden_layers] layers,
    keys and values of shape [num_attention_heads, len(x), head_dim]. *)
Theorem valid_config_model_runs (a : ModelArgs (F:=F)) (m : Llama (F:=F))
    (x : list nat) :
  config_valid a ->
  Nat.even (hidden_size a / num_attention_heads a) = true ->
  (forall r c, has_shape r c (initial_weight r c)) ->
  Llama_init initial_weight a = Some m ->
  x <> [] ->
  model_shaped a m
  /\ model_wf m
  /\ exists logits cs,
       Llama_call m x None None = Some (logits, map Some cs)
       /\ logits <> []
       /\ length logits = length x
       /\ Forall (fun r => length r = vocab_size a) logits
       /\ length cs = num_hidden_layers a
       /\ Forall (fun c : KV =>
                    heads_shape (num_attention_heads a) (length x)
                      (hidden_size a / num_attention_heads a) c.1
                    /\ heads_shape (num_attention_heads a) (length x)
                         (hidden_size a / num_attention_heads a) c.2) cs.
Proof.
  intros Hv He Hw Hi Hx.
  pose proof (Llama_init_shaped initial_weight a m Hv He Hw Hi) as Hsh.
  pose proof (model_shaped_wf a m Hsh) as Hwf.
  split; [exact Hsh|]. split; [exact Hwf|].
  destruct Hsh as (_ & _ & Hn & Hls & _ & [Hhead _]).
  rewrite (Llama_call_stack m x None None Hx I). cbv zeta.
  destruct (stack_shape (layers m) (causal_mask_for (length x)) 0 Hwf
              (Embedding_call (embed_tokens m) x) (replicate (length (layers m)) None)
              (Forall2_replicate_None _)) as [Hl Hs].
  rewrite length_Embedding_call in Hl, Hs. simpl in Hs.
  eexists _, _. split; [reflexivity|].
  destruct (Linear_call_rows (lm_head m)
              (RMSNorm_call (norm m)
                 (stack (layers m) (Embedding_call (embed_tokens m) x)
                    (causal_mask_for (length x))
                    (replicate (length (layers m)) None)).1)) as [Hrows Hwidth].
  assert (Hlen : length (Linear_call (lm_head m)
                   (RMSNorm_call (norm m)
                      (stack (layers m) (Embedding_call (embed_tokens m) x)
                         (causal_mask_for (length x))
                         (replicate (length (layers m)) None)).1)) = length x)
    by (rewrite Hrows, length_RMSNorm_call; exact Hl).
  split.
  { intros E. rewrite E in Hlen. destruct x; [congruence | discriminate]. }
  split; [exact Hlen|].
  split.
  { eapply Forall_impl; [exact Hwidth|]. intros r Hr. simpl in Hr.
    rewrite Hr. exact Hhead. }
  split; [rewrite <- (Forall2_length _ _ _ Hs); exact Hn|].
  clear -Hs Hls. induction Hs as [|b c ls cs Hc _ IH]; [constructor|].
  inversion Hls as [|? ? Hb Hls']; subst. constructor; [|apply IH; exact Hls'].
  destruct Hb as ((_ & E2 & _ & _ & E5 & _) & _).
  unfold kv_shape in Hc. rewrite E2, E5 in Hc. exact Hc.
Qed.

End BuiltModel.

(** ** The generation loop: what the cache holds *)

Section GenerationRuns.
Context {F : Type} {AF : Arith F}.
Context {Key : Type}.
Variable categorical : Key -> list F -> nat * Key.

Lemma generate_take_S (model : Model) temp n (st0 : GenState (F:=F) (Key:=Key)) :
  generate_take categorical model temp (S n) st0
  = match generate_next categorical model temp st0 with
    | Yielded y1 st1 =>
        match generate_take categorical model temp n st1 with
        | Some (ys1, st2) => Some (y1 :: ys1, st2)
        | None => None
        end
    | _ => None
    end.
Proof. reflexivity. Qed.

(** The last of [n + 1] tokens is yielded by a step from the state after
    [n] tokens. *)
Lemma generate_take_last (model : Model) temp n :
  forall (st0 : GenState (F:=F) (Key:=Key)) ys st,
    generate_take categorical model temp (S n) st0 = Some (ys, st) ->
    exists ys0 st1 y,
      generate_take categorical model temp n st0 = Some (ys0, st1)
      /\ generate_next categorical model temp st1 = Yielded y st
      /\ ys = ys0 ++ [y].
Proof.
  induction n as [|n IH]; intros st0 ys st Ht; rewrite generate_take_S in Ht.
  - destruct (generate_next categorical model temp st0) as [y1 st1| |] eqn:E;
      try discriminate.
    simpl in Ht. injection Ht as <- <-.
    exists [], st0, y1. repeat split. exact E.
  - destruct (generate_next categorical model temp st0) as [y1 st1| |] eqn:E;
      try discriminate.
    destruct (generate_take categorical model temp (S n) st1) as [[ys1 st2]|] eqn:E1;
      [|discriminate].
    injection Ht as <- <-.
    destruct (IH _ _ _ E1) as (ys0 & st' & y & Ht' & Hn & ->).
    exists (y1 :: ys0), st', y. rewrite generate_take_S, E, Ht'.
    repeat split. exact Hn.
Qed.

Lemma generate_take_length (model : Model) temp n :
  forall (st0 : GenState (F:=F) (Key:=Key)) ys st,
    generate_take categorical model temp n st0 = Some (ys, st) -> length ys = n.
Proof.
  induction n as [|n IH]; intros st0 ys st Ht.
  - simpl in Ht. injection Ht as <- _. reflexivity.
  - rewrite generate_take_S in Ht.
    destruct (generate_next categorical model temp st0) as [y1 st1| |]; try discriminate.
    destruct (generate_take categorical model temp n st1) as [[ys1 st2]|] eqn:E1;
      [|discriminate].
    injection Ht as <- _. simpl. f_equal. eapply IH. exact E1.
Qed.

(** What a step that yields has done, and when a step yields. *)
Lemma generate_next_inv (model : Model) temp (st : GenState (F:=F) (Key:=Key)) y st' :
  generate_next categorical model temp st = Yielded y st' ->
  exists logits cache,
    model (gen_y st) (gen_cache st) = Some (logits, cache)
    /\ y = (sample categorical temp (gen_key st) (List.last logits [])).1
    /\ st' = {| gen_y := [y]; gen_cache := Some cache;
                gen_key := (sample categorical temp (gen_key st)
                              (List.last logits [])).2 |}.
Proof.
  unfold generate_next.
  destruct (model (gen_y st) (gen_cache st)) as [[logits cache]|]; [|discriminate].
  destruct (sample categorical temp (gen_key st) (List.last logits []))
    as [y1 key1] eqn:Es.
  intros [= <- <-]. exists logits, cache. rewrite Es. repeat split.
Qed.

Lemma generate_next_Yielded (model : Model) temp (st : GenState (F:=F) (Key:=Key))
    logits cache :
  model (gen_y st) (gen_cache st) = Some (logits, cache) ->
  generate_next categorical model temp st
  = Yielded (sample categorical temp (gen_key st) (List.last logits [])).1
      {| gen_y := [(sample categorical temp (gen_key st) (List.last logits [])).1];
         gen_cache := Some cache;
         gen_key := (sample categorical temp (gen_key st) (List.last logits [])).2 |}.
Proof.
  intros Hm. unfold generate_next. rewrite Hm.
  destruct (sample categorical temp (gen_key st) (List.last logits [])); reflexivity.
Qed.

(** A step of the generator never ends the iteration. *)
Lemma generate_next_not_stopped (model : Model (F:=F)) temp
    (st : GenState (F:=F) (Key:=Key)) :
  generate_next categorical model temp st <> Stopped.
Proof.
  unfold generate_next.
  destruct (model (gen_y st) (gen_cache st)) as [[logits cache]|]; [|discriminate].
  destruct (sample categorical temp (gen_key st) (List.last logits [])).
  discriminate.
Qed.

(** With a [Llama], a step on a non-empty [y], without cache or with the
    cache of an earlier step, yields. *)
Lemma generate_next_yields (m : Llama (F:=F)) temp (st : GenState (F:=F) (Key:=Key)) :
  gen_cache st = None \/ gen_running m st ->
  gen_y st <> [] ->
  exists logits cache,
    Llama_call m (gen_y st) None (gen_cache st) = Some (logits, cache)
    /\ length cache = length (layers m)
    /\ logits <> []
    /\ Forall (fun r => length r = length (weight (lm_head m))) logits
    /\ generate_next categorical (Llama_model m) temp st =
       Yielded (sample categorical temp (gen_key st) (List.last logits [])).1
         {| gen_y := [(sample categorical temp (gen_key st) (List.last logits [])).1];
            gen_cache := Some cache;
            gen_key := (sample categorical temp (gen_key st) (List.last logits [])).2 |}.
Proof.
  intros Hst Hy.
  destruct (Llama_call_total m (gen_y st) None (gen_cache st) Hy)
    as (logits & cache & Hcall & Hlen).
  { destruct Hst as [->|(y & c & _ & -> & Hc)]; [exact I | lia]. }
  pose proof (Llama_call_rows m (gen_y st) None (gen_cache st)) as Hrows.
  rewrite Hcall in Hrows. destruct Hrows as [Hl Hw].
  assert (Hne : logits <> []).
  { intros E. rewrite E in Hl. destruct (gen_y st); [congruence | discriminate]. }
  exists logits, cache. split; [exact Hcall|]. split.
  { rewrite Hlen. destruct Hst as [->|(y & c & _ & -> & Hc)]; [reflexivity | exact Hc]. }
  split; [exact Hne|]. split; [exact Hw|].
  apply generate_next_Yielded. exact Hcall.
Qed.

Lemma generate_take_runs (m : Llama (F:=F)) temp n :
  forall (st0 : GenState (F:=F) (Key:=Key)),
    gen_cache st0 = None \/ gen_running m st0 ->
    gen_y st0 <> [] ->
    exists ys st,
      generate_take categorical (Llama_model m) temp n st0 = Some (ys, st)
      /\ length ys = n
      /\ (n = 0 -> st = st0)
      /\ (0 < n -> gen_running m st /\ gen_y st = [List.last ys 0]).
Proof.
  induction n as [|n IH]; intros st0 Hst Hy0.
  - exists [], st0. simpl. repeat split; try reflexivity; lia.
  - destruct (IH st0 Hst Hy0) as (ys & st & Ht & Hlen & H0 & Hpos).
    assert (Hst' : (gen_cache st = None \/ gen_running m st) /\ gen_y st <> []).
    { destruct n.
      - rewrite (H0 eq_refl). split; assumption.
      - destruct (Hpos ltac:(lia)) as [Hrun Hy]. split; [right; exact Hrun|].
        rewrite Hy. discriminate. }
    destruct (generate_next_yields m temp st (proj1 Hst') (proj2 Hst'))
      as (logits & cache & Hc & Hl & _ & _ & Hn).
    eexists _, _. split; [eapply generate_take_snoc; eassumption|].
    split; [rewrite length_app; simpl; lia|].
    split; [discriminate|]. intros _. split.
    + eexists _, _. simpl. repeat split. exact Hl.
    + simpl. rewrite last_last. reflexivity.
Qed.

End GenerationRuns.

Section GenerationCache.
Context {F : Type} {AF : Arith F} {AL : ArithLaws F}.
Context {Key : Type}.
Variable categorical : Key -> list F -> nat * Key.

(** A call without cache returns an entry of [length x] positions for
    every layer. *)
Lemma Llama_call_fresh (m : Llama (F:=F)) (x : list nat) mask :
  model_wf m ->
  x <> [] ->
  exists logits cs,
    Llama_call m x mask None = Some (logits, map Some cs)
    /\ length logits = length x
    /\ Forall2 (fun b c => kv_shape (self_attn b) (length x) c) (layers m) cs.
Proof.
  intros Hwf Hx. rewrite (Llama_call_stack m x mask None Hx I). cbv zeta.
  destruct (stack_shape (layers m) (causal_mask_for (length x)) 0 Hwf
              (Embedding_call (embed_tokens m) x) (replicate (length (layers m)) None)
              (Forall2_replicate_None _)) as [Hl Hs].
  rewrite length_Embedding_call in Hl, Hs.
  eexists _, _. split; [reflexivity|]. split; [|exact Hs].
  rewrite (proj1 (Linear_call_rows _ _)), length_RMSNorm_call. exact Hl.
Qed.

(** The same of any call without cache that returns: on an empty token
    list only a model without layers does. *)
Lemma Llama_call_fresh_inv (m : Llama (F:=F)) (x : list nat) mask logits cache :
  model_wf m ->
  Llama_call m x mask None = Some (logits, cache) ->
  exists cs,
    cache = map Some cs
    /\ Forall2 (fun b c => kv_shape (self_attn b) (length x) c) (layers m) cs.
Proof.
  intros Hwf Hcall. destruct x as [|t x].
  - unfold Llama_call in Hcall. destruct (layers m) as [|b ls]; simpl in Hcall.
    + injection Hcall as _ <-. exists []. split; [reflexivity | constructor].
    + discriminate.
  - destruct (Llama_call_fresh m (t :: x) mask Hwf ltac:(discriminate))
      as (logits' & cs & Hc & _ & Hs).
    rewrite Hc in Hcall. injection Hcall as _ <-. exists cs. split; [reflexivity | exact Hs].
Qed.

(** X7: what the generator's cache holds.  With a well-formed model,
    after the generator has yielded [n + 1] tokens its cache has, for
    every layer, keys and values of [len(prompt) + n] positions (the
    prompt and all yielded tokens but the last), and [y] is the token
    yielded last. *)
Theorem generate_cache_positions (m : Llama (F:=F)) (temp : F)
    (prompt : list nat) (key : Key) (n : nat)
    (ys : list nat) (st : GenState (F:=F) (Key:=Key)) :
  model_wf m ->
  generate_take categorical (Llama_model m) temp (S n)
    (generate_init (F:=F) prompt key) = Some (ys, st) ->
  length ys = S n
  /\ gen_y st = [List.last ys 0]
  /\ exists cs,
       gen_cache st = Some (map Some cs)
       /\ Forall2 (fun b c => kv_shape (self_attn b) (length prompt + n) c)
            (layers m) cs.
Proof.
  intros Hwf. revert ys st.
  induction n as [|n IH]; intros ys st Ht;
    (split; [eapply generate_take_length; exact Ht|]);
    destruct (generate_take_last categorical _ _ _ _ _ _ Ht)
      as (ys0 & st1 & y & Ht0 & Hn & ->);
    rewrite last_last;
    apply generate_next_inv in Hn as (logits & cache & Hcall & Hy & ->);
    unfold Llama_model in Hcall.
  - simpl in Ht0. injection Ht0 as <- <-. simpl in Hcall.
    destruct (Llama_call_fresh_inv m prompt None _ _ Hwf Hcall) as (cs & -> & Hs).
    simpl. split; [reflexivity|].
    exists cs. split; [reflexivity|]. rewrite Nat.add_0_r. exact Hs.
  - destruct (IH _ _ Ht0) as (_ & Hy1 & cs0 & Hc0 & Hs0).
    rewrite Hy1, Hc0 in Hcall.
    destruct (Llama_call_cache_growth m [List.last ys0 0] None cs0 _ Hwf Hs0
                ltac:(discriminate))
      as (logits' & cs & Hc & _ & Hs).
    rewrite Hc in Hcall. injection Hcall as <- <-. simpl. split; [reflexivity|].
    exists cs. split; [reflexivity|].
    simpl in Hs. replace (length prompt + S n) with (length prompt + n + 1) by lia.
    exact Hs.
Qed.

(** One more token: the call on [p ++ [t]] without cache, from the call
    on [p] and the call on [t] with the cache of [p]. *)
Lemma Llama_call_snoc (m : Llama (F:=F)) (p : list nat) (t : nat) :
  model_wf m -> 0 < length p ->
  exists lp cp ls cs,
    Llama_call m p None None = Some (lp, map Some cp)
    /\ Llama_call m [t] None (Some (map Some cp)) = Some (ls, map Some cs)
    /\ length ls = 1
    /\ Llama_call m (p ++ [t]) None None = Some (lp ++ ls, map Some cs).
Proof.
  intros Hwf Hp.
  set (pre := stack (layers m) (Embedding_call (embed_tokens m) p)
                (causal_mask_for (length p)) (replicate (length (layers m)) None)).
  set (suf := stack (layers m) (Embedding_call (embed_tokens m) [t]) None (map Some pre.2)).
  destruct (stack_shape (layers m) (causal_mask_for (length p)) 0 Hwf
              (Embedding_call (embed_tokens m) p) (replicate (length (layers m)) None)
              (Forall2_replicate_None _)) as [Hprel Hpres].
  fold pre in Hprel, Hpres. rewrite length_Embedding_call in Hprel, Hpres.
  destruct (stack_shape (layers m) None (0 + length p) Hwf
              (Embedding_call (embed_tokens m) [t]) (map Some pre.2)
              (Forall2_map_Some _ _ _ Hpres)) as [Hsufl _].
  fold suf in Hsufl. simpl in Hsufl.
  assert (Hfull : stack (layers m) (Embedding_call (embed_tokens m) (p ++ [t]))
                    (causal_mask_for (length (p ++ [t])))
                    (replicate (length (layers m)) None)
                  = (pre.1 ++ suf.1, suf.2)).
  { rewrite (Llama_stack_split m p [t] Hwf Hp) by (simpl; lia).
    fold pre. simpl length.
    rewrite (stack_last_row (layers m) (length p) Hwf _ pre.2 Hpres) by reflexivity.
    reflexivity. }
  exists (Linear_call (lm_head m) (RMSNorm_call (norm m) pre.1)), pre.2,
         (Linear_call (lm_head m) (RMSNorm_call (norm m) suf.1)), suf.2.
  split; [|split; [|split]].
  - rewrite (Llama_call_stack m p None None)
      by (try exact I; intros E; rewrite E in Hp; inversion Hp).
    reflexivity.
  - rewrite (Llama_call_stack m [t] None (Some (map Some pre.2))).
    + reflexivity.
    + discriminate.
    + rewrite length_map. symmetry. eapply Forall2_length. exact Hpres.
  - rewrite (proj1 (Linear_call_rows _ _)), length_RMSNorm_call. exact Hsufl.
  - rewrite (Llama_call_stack m (p ++ [t]) None None)
      by (try exact I; intros E; apply app_eq_nil in E as [_ E]; discriminate).
    cbv zeta. rewrite Hfull.
    cbn [fst snd]. rewrite RMSNorm_call_app, Linear_call_app. reflexivity.
Qed.

(** X8: generation with the cache is generation by recomputation.  With
    a well-formed model and a prompt that is not empty, the step after
    [n] yielded tokens [ys] yields the token sampled from the last row of
    the logits of one call on the whole sequence [prompt ++ ys] without
    cache, and the cache it keeps is the cache of that call. *)
Theorem generate_agrees_with_full_call (m : Llama (F:=F)) (temp : F)
    (prompt : list nat) (key : Key) (n : nat)
    (ys : list nat) (st : GenState (F:=F) (Key:=Key)) :
  model_wf m -> prompt <> [] ->
  generate_take categorical (Llama_model m) temp n
    (generate_init (F:=F) prompt key) = Some (ys, st) ->
  exists logits cache,
    Llama_call m (prompt ++ ys) None None = Some (logits, cache)
    /\ length logits = length prompt + n
    /\ let s := sample categorical temp (gen_key st) (List.last logits []) in
       generate_next categorical (Llama_model m) temp st
       = Yielded s.1 {| gen_y := [s.1]; gen_cache := Some cache; gen_key := s.2 |}.
Proof.
  intros Hwf Hne. revert ys st.
  induction n as [|n IH]; intros ys st Ht.
  - simpl in Ht. injection Ht as <- <-. rewrite app_nil_r.
    destruct (Llama_call_fresh m prompt None Hwf Hne) as (logits & cs & Hc & Hl & _).
    exists logits, (map Some cs). split; [exact Hc|]. split; [lia|].
    cbv zeta. apply generate_next_Yielded. exact Hc.
  - destruct (generate_take_last categorical _ _ _ _ _ _ Ht)
      as (ys0 & st1 & y & Ht0 & Hn & ->).
    destruct (IH _ _ Ht0) as (logits0 & cache0 & Hc0 & Hl0 & Hstep).
    cbv zeta in Hstep. rewrite Hstep in Hn. injection Hn as <- <-.
    destruct (Llama_call_snoc m (prompt ++ ys0)
                (sample categorical temp (gen_key st1) (List.last logits0 [])).1 Hwf)
      as (lp & cp & ls & cs & Hp & Hs & Hls & Hfull).
    { rewrite length_app. destruct prompt; [congruence | simpl; lia]. }
    rewrite Hc0 in Hp. injection Hp as -> ->.
    exists (lp ++ ls), (map Some cs).
    rewrite <- app_assoc in Hfull. split; [exact Hfull|].
    split; [rewrite length_app; lia|].
    assert (Hlast : List.last (lp ++ ls) [] = List.last ls []).
    { destruct ls as [|r [|r' l']]; try discriminate. apply last_last. }
    cbv zeta. rewrite Hlast.
    apply generate_next_Yielded. exact Hs.
Qed.

End GenerationCache.

(** X9: greedy decoding does not look at the random source.  With
    [temp == 0], two runs of the generator on the same prompt with any
    two random sources, of any kind, yield the same tokens and keep the
    same cache, and each leaves its random source as it found it. *)
Theorem greedy_generation_ignores_random_source {F : Type} {AF : Arith F}
    {Key1 Key2 : Type}
    (categorical1 : Key1 -> list F -> nat * Key1)
    (categorical2 : Key2 -> list F -> nat * Key2)
    (model : Model (F:=F)) (temp : F) (prompt : list nat) (key1 : Key1) (key2 : Key2)
    (n : nat) (ys : list nat) (st : GenState (F:=F) (Key:=Key1)) :
  is_zero temp = true ->
  generate_take categorical1 model temp n (generate_init (F:=F) prompt key1)
    = Some (ys, st) ->
  gen_key st = key1
  /\ exists st',
       generate_take categorical2 model temp n (generate_init (F:=F) prompt key2)
         = Some (ys, st')
       /\ gen_y st' = gen_y st /\ gen_cache st' = gen_cache st
       /\ gen_key st' = key2.
Proof.
  intros Hz.
  generalize (generate_init (F:=F) prompt key1) (generate_init (F:=F) prompt key2)
             (eq_refl : gen_y (generate_init (F:=F) prompt key1)
                        = gen_y (generate_init (F:=F) prompt key2))
             (eq_refl : gen_cache (generate_init (F:=F) prompt key1)
                        = gen_cache (generate_init (F:=F) prompt key2))
             (eq_refl : gen_key (generate_init (F:=F) prompt key1) = key1)
             (eq_refl : gen_key (generate_init (F:=F) prompt key2) = key2).
  revert ys st. induction n as [|n IH]; intros ys st s1 s2 Hy Hc Hk1 Hk2 Ht.
  - simpl in Ht. injection Ht as <- <-. split; [exact Hk1|].
    exists s2. repeat split; auto.
  - rewrite generate_take_S in Ht. rewrite generate_take_S.
    unfold generate_next in *. rewrite <- Hy, <- Hc.
    destruct (model (gen_y s1) (gen_cache s1)) as [[logits cache]|]; [|discriminate].
    unfold sample in *. rewrite Hz in *.
    destruct (generate_take categorical1 model temp n _) as [[ys1 st2]|] eqn:E1;
      [|discriminate].
    injection Ht as <- <-.
    destruct (IH ys1 st2
                {| gen_y := [argmax (List.last logits [])];
                   gen_cache := Some cache; gen_key := gen_key s1 |}
                {| gen_y := [argmax (List.last logits [])];
                   gen_cache := Some cache; gen_key := gen_key s2 |}
                eq_refl eq_refl Hk1 Hk2 E1) as (Hk & st' & Ht' & Hy' & Hc' & Hk').
    split; [exact Hk|]. exists st'. rewrite Ht'. repeat split; assumption.
Qed.

(** ** Greedy tokens are vocabulary entries *)

Section GreedyTokens.
Context {F : Type} {AF : Arith F}.
Context {Key : Type}.
Variable categorical : Key -> list F -> nat * Key.

Lemma argmax_from_lt (l : list F) : forall best bv i,
  best < i -> argmax_from best bv i l < i + length l.
Proof.
  induction l as [|x l IH]; intros best bv i Hb; simpl; [lia|].
  destruct (fltb bv x).
  - specialize (IH i x (S i) ltac:(lia)). lia.
  - specialize (IH best bv (S i) ltac:(lia)). lia.
Qed.

Lemma argmax_lt (l : list F) : l <> [] -> argmax l < length l.
Proof.
  destruct l as [|x l]; [congruence|]. intros _. simpl.
  apply (argmax_from_lt l 0 x 1). lia.
Qed.

(** The tokens of a greedy run from a state with a non-empty [y]. *)
Lemma greedy_take_in_range (m : Llama (F:=F)) (temp : F) :
  is_zero temp = true ->
  0 < length (weight (lm_head m)) ->
  forall k (st0 : GenState (F:=F) (Key:=Key)) ys0 st1,
    gen_y st0 <> [] ->
    generate_take categorical (Llama_model m) temp k st0 = Some (ys0, st1) ->
    Forall (fun y => y < length (weight (lm_head m))) ys0.
Proof.
  intros Hz Hv. induction k as [|k IH]; intros st0 ys0 st1 Hy0 Ht.
  - simpl in Ht. injection Ht as <- _. constructor.
  - rewrite generate_take_S in Ht.
    destruct (generate_next categorical (Llama_model m) temp st0)
      as [y1 st2| |] eqn:En; try discriminate.
    destruct (generate_take categorical (Llama_model m) temp k st2)
      as [[ys1 st3]|] eqn:E1; [|discriminate].
    injection Ht as <- _.
    apply generate_next_inv in En as (logits & cache & Hcall & -> & ->).
    constructor; [|eapply IH; [|exact E1]; discriminate].
    unfold Llama_model in Hcall.
    pose proof (Llama_call_rows m (gen_y st0) None (gen_cache st0)) as Hrows.
    rewrite Hcall in Hrows. destruct Hrows as [Hl Hw].
    assert (Hne : logits <> []).
    { intros E. rewrite E in Hl. destruct (gen_y st0); [congruence | discriminate]. }
    assert (Hlast : length (List.last logits []) = length (weight (lm_head m))).
    { destruct (exists_last Hne) as (l' & r & ->).
      rewrite last_last. apply Forall_app in Hw as [_ Hr].
      inversion Hr; subst. assumption. }
    unfold sample. rewrite Hz. simpl. rewrite <- Hlast. apply argmax_lt.
    intros E. rewrite E in Hlast. simpl in Hlast. lia.
Qed.

(** X10: greedy decoding stays inside the vocabulary.  With [temp == 0],
    a prompt that is not empty and an [lm_head] with at least one row,
    every token the generator yields is smaller than the number of rows
    of [lm_head] (the vocabulary size), so it is a valid index for the
    next call. *)
Theorem greedy_tokens_in_vocabulary (m : Llama (F:=F)) (temp : F)
    (prompt : list nat) (key : Key) (n : nat)
    (ys : list nat) (st : GenState (F:=F) (Key:=Key)) :
  is_zero temp = true ->
  prompt <> [] ->
  0 < length (weight (lm_head m)) ->
  generate_take categorical (Llama_model m) temp n
    (generate_init (F:=F) prompt key) = Some (ys, st) ->
  Forall (fun y => y < length (weight (lm_head m))) ys.
Proof.
  intros Hz Hne Hv Ht.
  exact (greedy_take_in_range m temp Hz Hv n (generate_init prompt key) ys st Hne Ht).
Qed.

End GreedyTokens.

(** ** The generation loop never ends by itself *)

Section GenerationLoop.
Context {F : Type} {AF : Arith F}.
Context {Key : Type}.
Variable categorical : Key -> list F -> nat * Key.

(** C9 (as amended): the generation loop never stops by itself, and on
    a non-empty prompt it yields a token at every step.  Whatever the
    model callable, a step of the generator never ends the iteration: it
    yields, or an exception propagates (that of the model call, among
    others).  With a [Llama] whose parameters have the shapes of a
    configuration that runs, a non-empty vocabulary and a non-empty
    prompt, for every [n] the generator yields [n] tokens; it starts
    with [y] the whole prompt and no cache; after the first [yield] it
    holds exactly the token it yielded last and the cache the last model
    call returned; and its next step calls the model on these, samples
    from the logits of the last position (a row of [vocab_size]
    entries), yields that token and keeps the returned cache. *)
Theorem generate_never_stops (a : ModelArgs (F:=F)) (m : Llama (F:=F)) (temp : F)
    (prompt : list nat) (key : Key) (n : nat) :
  model_shaped a m ->
  0 < vocab_size a ->
  prompt <> [] ->
  (forall (model : Model) (temp : F) (st : GenState (F:=F) (Key:=Key)),
     generate_next categorical model temp st <> Stopped
     /\ (model (gen_y st) (gen_cache st) = None ->
         generate_next categorical model temp st = Raised))
  /\ gen_y (generate_init (F:=F) prompt key) = prompt
  /\ gen_cache (generate_init (F:=F) prompt key) = None
  /\ exists ys st,
      generate_take categorical (Llama_model m) temp n
        (generate_init (F:=F) prompt key) = Some (ys, st)
      /\ length ys = n
      /\ (n = 0 -> st = generate_init (F:=F) prompt key)
      /\ (0 < n -> exists c, gen_y st = [List.last ys 0] /\ gen_cache st = Some c
                              /\ length c = length (layers m))
      /\ exists logits cache,
          Llama_call m (gen_y st) None (gen_cache st) = Some (logits, cache)
          /\ length (List.last logits []) = vocab_size a
          /\ List.last logits [] <> []
          /\ let y := (sample categorical temp (gen_key st) (List.last logits [])).1 in
             let st' := {| gen_y := [y]; gen_cache := Some cache;
                           gen_key := (sample categorical temp (gen_key st)
                                         (List.last logits [])).2 |} in
             generate_next categorical (Llama_model m) temp st = Yielded y st'
             /\ generate_take categorical (Llama_model m) temp (S n)
                  (generate_init (F:=F) prompt key)
                = Some (ys ++ [y], st').
Proof.
  intros Hsh Hv Hne. split.
  { intros model temp' st. split; [apply generate_next_not_stopped|].
    intros Hm. unfold generate_next. rewrite Hm. reflexivity. }
  split; [reflexivity|]. split; [reflexivity|].
  destruct (generate_take_runs categorical m temp n (generate_init prompt key))
    as (ys & st & Ht & Hlen & H0 & Hpos); [left; reflexivity | exact Hne|].
  exists ys, st. split; [exact Ht|]. split; [exact Hlen|]. split; [exact H0|].
  split.
  { intros Hn. destruct (Hpos Hn) as [(y & c & Hy & Hc & Hl) Hlast].
    exists c. repeat split; assumption. }
  assert (Hst' : (gen_cache st = None \/ gen_running m st) /\ gen_y st <> []).
  { destruct n.
    - rewrite (H0 eq_refl). split; [left; reflexivity | exact Hne].
    - destruct (Hpos ltac:(lia)) as [Hrun Hy]. split; [right; exact Hrun|].
      rewrite Hy. discriminate. }
  destruct (generate_next_yields categorical m temp st (proj1 Hst') (proj2 Hst'))
    as (logits & cache & Hc & Hl & Hrows & Hw & Hn).
  exists logits, cache. split; [exact Hc|].
  assert (Hlast : length (List.last logits []) = vocab_size a).
  { destruct Hsh as (_ & _ & _ & _ & _ & [Hhead _]).
    destruct (exists_last Hrows) as (l' & r & ->).
    rewrite last_last. apply Forall_app in Hw as [_ Hr].
    inversion Hr; subst. congruence. }
  split; [exact Hlast|]. split.
  { intros E. rewrite E in Hlast. simpl in Hlast. lia. }
  cbv zeta. split; [exact Hn|]. eapply generate_take_snoc; eassumption.
Qed.

End GenerationLoop.

(** ** [chat_completions]: the token loops *)

Section CompletionFacts.
Context {F : Type} {AF : Arith F}.
Context {Key : Type}.
Variable categorical : Key -> list F -> nat * Key.
Variable decode : list nat -> String.string.

Lemma collect_tokens_eq (model : Model (F:=F)) temp eos max_tokens
    (st : GenState (F:=F) (Key:=Key)) tokens :
  collect_tokens categorical model temp eos max_tokens st tokens
  = match generate_next categorical model temp st with
    | Raised => None
    | Stopped => Some (tokens, st)
    | Yielded token st' =>
        match max_tokens with
        | 0 => Some (tokens, st')
        | S remaining =>
            if token =? eos then Some (tokens, st')
            else collect_tokens categorical model temp eos remaining st' (tokens ++ [token])
        end
    end.
Proof. destruct max_tokens; reflexivity. Qed.

Lemma event_generator_eq (model : Model (F:=F)) temp eos max_tokens
    (st : GenState (F:=F) (Key:=Key)) :
  event_generator categorical decode model temp eos max_tokens st
  = match generate_next categorical model temp st with
    | Raised => ([], None)
    | Stopped => ([], Some st)
    | Yielded token st' =>
        match max_tokens with
        | 0 => ([], Some st')
        | S remaining =>
            if token =? eos then ([], Some st')
            else
              let '(rest, final) :=
                event_generator categorical decode model temp eos remaining st' in
              (decode [token] :: rest, final)
        end
    end.
Proof. destruct max_tokens; reflexivity. Qed.

Lemma collect_tokens_ends (model : Model (F:=F)) temp eos max_tokens :
  forall (st : GenState (F:=F) (Key:=Key)) acc out st',
    collect_tokens categorical model temp eos max_tokens st acc = Some (out, st') ->
    exists ys, out = acc ++ ys /\ loop_ends categorical model temp eos max_tokens st ys st'.
Proof.
  induction max_tokens as [|r IH]; intros st acc out st' Hc;
    rewrite collect_tokens_eq in Hc;
    pose proof (generate_next_not_stopped categorical model temp st) as Hns;
    destruct (generate_next categorical model temp st) as [token st1| |] eqn:En;
    try discriminate; try congruence.
  - injection Hc as <- <-. exists []. rewrite app_nil_r. split; [reflexivity|].
    split; [simpl; lia|]. split; [constructor|].
    exists token. split; [|simpl; lia].
    rewrite generate_take_S, En. reflexivity.
  - destruct (Nat.eqb_spec token eos) as [->|Hne].
    + injection Hc as <- <-. exists []. rewrite app_nil_r. split; [reflexivity|].
      split; [simpl; lia|]. split; [constructor|].
      exists eos. split; [|reflexivity].
      rewrite generate_take_S, En. reflexivity.
    + destruct (IH _ _ _ _ Hc) as (ys & -> & Hlen & Hall & y & Ht & Hy).
      exists (token :: ys). rewrite <- app_assoc. split; [reflexivity|].
      split; [simpl; lia|]. split; [constructor; assumption|].
      exists y. split; [|intros Hlt; apply Hy; simpl in Hlt; lia].
      cbn [length]. rewrite generate_take_S, En, Ht. reflexivity.
Qed.

Lemma collect_tokens_complete (model : Model (F:=F)) temp eos max_tokens :
  forall (st : GenState (F:=F) (Key:=Key)) acc ys st',
    loop_ends categorical model temp eos max_tokens st ys st' ->
    collect_tokens categorical model temp eos max_tokens st acc = Some (acc ++ ys, st').
Proof.
  induction max_tokens as [|r IH]; intros st acc ys st' (Hlen & Hall & y & Ht & Hy);
    rewrite collect_tokens_eq; rewrite generate_take_S in Ht;
    destruct (generate_next categorical model temp st) as [token st1| |];
    try discriminate;
    destruct (generate_take categorical model temp (length ys) st1)
      as [[ys1 st2]|] eqn:E1; try discriminate;
    injection Ht as Hys <-.
  - destruct ys as [|t ys]; [|simpl in Hlen; lia].
    simpl in E1. injection E1 as <- <-. rewrite app_nil_r. reflexivity.
  - destruct ys as [|t ys].
    + simpl in E1. injection E1 as <- <-. simpl in Hys. injection Hys as ->.
      rewrite Hy by (simpl; lia). rewrite Nat.eqb_refl, app_nil_r. reflexivity.
    + simpl in Hys. injection Hys as -> ->.
      inversion Hall as [|? ? Ht0 Hall']; subst.
      destruct (Nat.eqb_spec t eos) as [|_]; [contradiction|].
      rewrite (IH st1 (acc ++ [t]) ys st2).
      * rewrite <- app_assoc. reflexivity.
      * split; [simpl in Hlen; lia|]. split; [exact Hall'|].
        exists y. split; [exact E1 | intros Hlt; apply Hy; simpl; lia].
Qed.

(** X11: the tokens of a completion.  The loop over
    [zip(generate(...), range(max_tokens))] returns [tokens] exactly when
    [tokens] are the first tokens the generator yields, there are at
    most [max_tokens] of them, none is the end-of-sequence token, and the
    token [y] yielded after them is the end-of-sequence token unless
    [max_tokens] tokens were kept.  The generator has then been asked
    [len(tokens) + 1] times: the token [y] was computed and dropped, also
    when the range was exhausted. *)
Theorem completion_tokens_spec (model : Model (F:=F)) (temp : F) (eos max_tokens : nat)
    (prompt : list nat) (key : Key) (tokens : list nat)
    (st' : GenState (F:=F) (Key:=Key)) :
  collect_tokens categorical model temp eos max_tokens
    (generate_init (F:=F) prompt key) [] = Some (tokens, st')
  <-> (length tokens <= max_tokens
       /\ Forall (fun t => t <> eos) tokens
       /\ exists y,
            generate_take categorical model temp (S (length tokens))
              (generate_init (F:=F) prompt key) = Some (tokens ++ [y], st')
            /\ (length tokens < max_tokens -> y = eos)).
Proof.
  split.
  - intros Hc. destruct (collect_tokens_ends _ _ _ _ _ _ _ _ Hc) as (ys & -> & Hends).
    exact Hends.
  - intros Hends.
    exact (collect_tokens_complete model temp eos max_tokens _ [] tokens st' Hends).
Qed.

(** The chunks the streaming branch has sent are the decodings, one by
    one, of the tokens the other branch collects. *)
Lemma event_generator_collect (model : Model (F:=F)) temp eos max_tokens :
  forall (st : GenState (F:=F) (Key:=Key)) acc,
    match collect_tokens categorical model temp eos max_tokens st acc with
    | Some (out, st') =>
        exists ys, out = acc ++ ys
          /\ event_generator categorical decode model temp eos max_tokens st
             = (map (fun t => decode [t]) ys, Some st')
    | None =>
        exists ys st1,
          generate_take categorical model temp (length ys) st = Some (ys, st1)
          /\ length ys <= max_tokens
          /\ generate_next categorical model temp st1 = Raised
          /\ event_generator categorical decode model temp eos max_tokens st
             = (map (fun t => decode [t]) ys, None)
    end.
Proof.
  induction max_tokens as [|r IH]; intros st acc;
    rewrite collect_tokens_eq, event_generator_eq;
    pose proof (generate_next_not_stopped categorical model temp st) as Hns;
    destruct (generate_next categorical model temp st) as [token st1| |] eqn:En;
    try congruence;
    try (exists [], st; repeat split; [simpl; lia | exact En]).
  - exists []. rewrite app_nil_r. split; reflexivity.
  - destruct (Nat.eqb_spec token eos) as [->|Hne].
    + exists []. rewrite app_nil_r. split; reflexivity.
    + specialize (IH st1 (acc ++ [token])).
      destruct (collect_tokens categorical model temp eos r st1 (acc ++ [token]))
        as [[out st']|].
      * destruct IH as (ys & -> & ->). exists (token :: ys).
        rewrite <- app_assoc. split; reflexivity.
      * destruct IH as (ys & st2 & Ht & Hlen & Hr & ->).
        exists (token :: ys), st2. cbn [length map].
        rewrite generate_take_S, En, Ht. repeat split; [lia | exact Hr].
Qed.

(** X12: streaming and non-streaming responses carry the same tokens.
    When the non-streaming loop returns [tokens], the streaming loop
    sends one chunk per token, the decoding of that token alone, in
    order, and leaves the generator in the same state.  When the model
    call raises, the non-streaming branch has no response at all, and
    the streaming branch has already sent the chunks of the tokens
    yielded before. *)
Theorem stream_matches_completion (model : Model (F:=F)) (temp : F)
    (eos max_tokens : nat) (prompt : list nat) (key : Key) :
  match collect_tokens categorical model temp eos max_tokens
          (generate_init (F:=F) prompt key) [] with
  | Some (tokens, st') =>
      event_generator categorical decode model temp eos max_tokens
        (generate_init (F:=F) prompt key)
      = (map (fun t => decode [t]) tokens, Some st')
  | None =>
      chat_completion categorical decode model temp eos max_tokens prompt key = None
      /\ exists ys st1,
           generate_take categorical model temp (length ys)
             (generate_init (F:=F) prompt key) = Some (ys, st1)
           /\ length ys <= max_tokens
           /\ generate_next categorical model temp st1 = Raised
           /\ event_generator categorical decode model temp eos max_tokens
                (generate_init (F:=F) prompt key)
              = (map (fun t => decode [t]) ys, None)
  end.
Proof.
  pose proof (event_generator_collect model temp eos max_tokens
                (generate_init (F:=F) prompt key) []) as Hev.
  unfold chat_completion.
  destruct (collect_tokens categorical model temp eos max_tokens
              (generate_init (F:=F) prompt key) []) as [[tokens st']|].
  - destruct Hev as (ys & Hys & ->). simpl in Hys. subst ys. reflexivity.
  - split; [reflexivity | exact Hev].
Qed.

(** X13: with a [Llama] whose parameters have the shapes of a
    configuration that runs, a non-empty vocabulary and a non-empty
    prompt, the non-streaming branch has a response: the loop ends after
    at most [max_tokens + 1] model calls.  The message is the decoding of
    the collected tokens, none of which is the end-of-sequence token; the
    usage counts the prompt, the collected tokens (at most [max_tokens])
    and their sum; and with [temp == 0] every collected token is a
    vocabulary entry. *)
Theorem chat_completion_responds (a : ModelArgs (F:=F)) (m : Llama (F:=F)) (temp : F)
    (eos max_tokens : nat) (prompt : list nat) (key : Key) :
  model_shaped a m ->
  0 < vocab_size a ->
  prompt <> [] ->
  exists tokens st',
    collect_tokens categorical (Llama_model m) temp eos max_tokens
      (generate_init (F:=F) prompt key) [] = Some (tokens, st')
    /\ length tokens <= max_tokens
    /\ Forall (fun t => t <> eos) tokens
    /\ (is_zero temp = true -> Forall (fun t => t < vocab_size a) tokens)
    /\ chat_completion categorical decode (Llama_model m) temp eos max_tokens prompt key
       = Some {| message_content := decode tokens;
                 usage := {| prompt_tokens := length prompt;
                             completion_tokens := length tokens;
                             total_tokens := length prompt + length tokens |} |}.
Proof.
  intros Hsh Hv Hne.
  assert (Hrun : forall r (st : GenState (F:=F) (Key:=Key)) acc,
            gen_cache st = None \/ gen_running m st -> gen_y st <> [] ->
            exists out st',
              collect_tokens categorical (Llama_model m) temp eos r st acc
              = Some (out, st')).
  { induction r as [|r IH]; intros st acc Hst Hy; rewrite collect_tokens_eq;
      destruct (generate_next_yields categorical m temp st Hst Hy)
        as (logits & cache & _ & Hl & _ & _ & ->).
    - eexists _, _. reflexivity.
    - destruct (_ =? eos); [eexists _, _; reflexivity|].
      apply IH; [|discriminate]. right. eexists _, _. simpl. repeat split. exact Hl. }
  destruct (Hrun max_tokens (generate_init (F:=F) prompt key) []
              (or_introl eq_refl) Hne) as (tokens & st' & Hc).
  exists tokens, st'. split; [exact Hc|].
  destruct (collect_tokens_ends _ _ _ _ _ _ _ _ Hc)
    as (ys & Hys & Hlen & Hall & y & Ht & _).
  simpl in Hys. subst ys. split; [exact Hlen|]. split; [exact Hall|].
  split.
  { intros Hz. destruct Hsh as (_ & _ & _ & _ & _ & [Hhead _]).
    rewrite <- Hhead. rewrite <- Hhead in Hv.
    pose proof (greedy_take_in_range categorical m temp Hz Hv _
                  (generate_init prompt key) _ _ Hne Ht) as Hin.
    apply Forall_app in Hin as [Hin _]. exact Hin. }
  unfold chat_completion. rewrite Hc. reflexivity.
Qed.

End CompletionFacts.

(** ** [convert_chat] *)

Lemma append_empty_r (s : String.string) :
  String.append s String.EmptyString = s.
Proof. induction s as [|c s IH]; [reflexivity|]. simpl. rewrite IH. reflexivity. Qed.

Lemma append_assoc (a b c : String.string) :
  String.append (String.append a b) c = String.append a (String.append b c).
Proof. induction a as [|x a IH]; [reflexivity|]. simpl. rewrite IH. reflexivity. Qed.

(** An iteration of the loop appends the text of its message. *)
Lemma convert_chat_line_prompt (system user assistant prompt : String.string)
    (line : CompletionRequestMessage) :
  convert_chat_line system user assistant prompt line
  = String.append prompt
      (convert_chat_line system user assistant String.EmptyString line).
Proof.
  unfold convert_chat_line.
  destruct (String.eqb (role line) "system"%string),
    (String.eqb (role line) "user"%string),
    (String.eqb (role line) "assistant"%string); simpl;
    rewrite ?append_assoc, ?append_empty_r; reflexivity.
Qed.

Lemma convert_chat_line_appends (prompt : String.string) (line : CompletionRequestMessage) :
  convert_chat_line String.EmptyString "### Instruction: "%string "### Response: "%string
    prompt line
  = String.append prompt (chat_line line).
Proof. apply convert_chat_line_prompt. Qed.

Lemma convert_chat_fold (messages : list CompletionRequestMessage) :
  forall prompt,
    fold_left (convert_chat_line String.EmptyString "### Instruction: "%string "### Response: "%string)
      messages prompt
    = String.append prompt (String.concat String.EmptyString (map chat_line messages)).
Proof.
  induction messages as [|line rest IH]; intros prompt.
  - simpl. rewrite append_empty_r. reflexivity.
  - cbn [fold_left map]. rewrite IH, convert_chat_line_appends, append_assoc.
    f_equal. destruct rest as [|l2 rest'].
    + simpl. rewrite append_empty_r. reflexivity.
    + reflexivity.
Qed.

(** X14: the prompt in closed form.  [convert_chat] returns the texts of
    the messages, in order, followed by ["### Response:"] (the header
    without its trailing blank).  A message contributes its content and
    a newline, behind ["### Instruction: "] for the role [user], behind
    ["### Response: "] for [assistant] and behind nothing for [system];
    a message of any other role contributes nothing. *)
Theorem convert_chat_closed_form (messages : list CompletionRequestMessage) :
  convert_chat messages
  = String.append (String.concat String.EmptyString (map chat_line messages))
      "### Response:"%string
  /\ forall line,
       chat_line line
       = if String.eqb (role line) "system"%string
         then String.append (content line) newline
         else if String.eqb (role line) "user"%string
         then String.append "### Instruction: "%string (String.append (content line) newline)
         else if String.eqb (role line) "assistant"%string
         then String.append "### Response: "%string (String.append (content line) newline)
         else String.EmptyString.
Proof.
  split.
  - unfold convert_chat. rewrite convert_chat_fold. reflexivity.
  - intros line. unfold chat_line, convert_chat_line.
    destruct (String.eqb_spec (role line) "system"%string) as [->|_]; [reflexivity|].
    destruct (String.eqb_spec (role line) "user"%string) as [->|_]; [reflexivity|].
    destruct (String.eqb (role line) "assistant"%string); reflexivity.
Qed.

(** X15: the prompt does not tell the messages apart.  A user message
    whose content carries a newline and the response header reads as a
    user message followed by an assistant message; a system message that
    starts with the instruction header reads as a user message; and a
    message of an unknown role leaves no trace. *)
Theorem convert_chat_not_injective (a b r : String.string)
    (pre post : list CompletionRequestMessage) :
  convert_chat
    (pre ++ [{| role := "user"%string;
                content := String.append a
                             (String.append newline (String.append "### Response: "%string b)) |}]
         ++ post)
  = convert_chat
      (pre ++ [{| role := "user"%string; content := a |};
               {| role := "assistant"%string; content := b |}] ++ post)
  /\ convert_chat
       (pre ++ [{| role := "system"%string; content := String.append "### Instruction: "%string a |}]
            ++ post)
     = convert_chat (pre ++ [{| role := "user"%string; content := a |}] ++ post)
  /\ (String.eqb r "system"%string = false -> String.eqb r "user"%string = false ->
      String.eqb r "assistant"%string = false ->
      convert_chat (pre ++ [{| role := r; content := a |}] ++ post)
      = convert_chat (pre ++ post)).
Proof.
  unfold convert_chat. rewrite !convert_chat_fold, !map_app.
  assert (Hcat : forall x y : list String.string,
            String.concat String.EmptyString (x ++ y)
            = String.append (String.concat String.EmptyString x)
                            (String.concat String.EmptyString y)).
  { induction x as [|s x IH]; intros y; [reflexivity|].
    destruct x as [|s2 x].
    - destruct y; simpl; rewrite ?append_empty_r; reflexivity.
    - change (String.concat String.EmptyString ((s :: s2 :: x) ++ y))
        with (String.append s (String.concat String.EmptyString ((s2 :: x) ++ y))).
      rewrite IH. cbn [String.concat]. rewrite ?append_assoc. reflexivity. }
  assert (Huser : forall c, chat_line {| role := "user"%string; content := c |}
            = String.append "### Instruction: "%string (String.append c newline))
    by reflexivity.
  assert (Hassistant : forall c, chat_line {| role := "assistant"%string; content := c |}
            = String.append "### Response: "%string (String.append c newline))
    by reflexivity.
  assert (Hsystem : forall c, chat_line {| role := "system"%string; content := c |}
            = String.append c newline)
    by reflexivity.
  assert (Hother : String.eqb r "system"%string = false ->
            String.eqb r "user"%string = false ->
            String.eqb r "assistant"%string = false ->
            chat_line {| role := r; content := a |} = String.EmptyString).
  { intros Hs Hu Ha. unfold chat_line, convert_chat_line. cbn [role content].
    rewrite Hs, Hu, Ha. reflexivity. }
  rewrite !Hcat. cbn [map].
  change (String.concat String.EmptyString
            [chat_line {| role := "user"%string; content := a |};
             chat_line {| role := "assistant"%string; content := b |}])
    with (String.append (chat_line {| role := "user"%string; content := a |})
            (chat_line {| role := "assistant"%string; content := b |})).
  assert (Hone : forall x, String.concat String.EmptyString [x] = x) by reflexivity.
  rewrite !Hone, !Huser, Hassistant, Hsystem.
  split; [|split].
  - rewrite !append_assoc. reflexivity.
  - rewrite !append_assoc. reflexivity.
  - intros Hs Hu Ha. rewrite (Hother Hs Hu Ha). reflexivity.
Qed.

(** ** The turnstile: holders, releases and progress *)

(** What a step of request [i] does to the system: it replaces the
    request's record and changes at most one lock, which the request
    then holds exactly when the lock is taken. *)
Lemma exec_shape s i c s' :
  turnstile_inv s -> exec s i c = Some s' ->
  exists t t' lk,
    threads s !! i = Some t /\ s' = update s lk i t'
    /\ height (code t') (release_outer_lock (frame t'))
       < height (code t) (release_outer_lock (frame t))
    /\ forall l,
         match lk with
         | Some (l', b) =>
             if decide (l = l')
             then holds (frame t) l = negb b /\ holds (frame t') l = b
                  /\ locked s l = negb b
             else holds (frame t') l = holds (frame t) l
         | None => holds (frame t') l = holds (frame t) l
         end.
Proof.
  intros Hinv Hex. unfold exec in Hex.
  destruct (threads s !! i) as [t|] eqn:Ht; [|discriminate].
  pose proof Hinv as [Hloc Hlocks].
  destruct (Hloc i t Ht) as (pt & Hcode & Hholds & Hflag).
  rewrite Hcode in Hex.
  pose proof (Hholds llama_outer_lock) as Hho.
  pose proof (Hholds llama_inner_lock) as Hhi.
  destruct pt as [| | |e|e| | | |[|e]|[|e]|[e|]]; simpl in Hflag, Hho, Hhi;
    try (pose proof (Hflag _ eq_refl) as Hfl; rewrite Hfl in Hex);
    cbn in Hex; destruct c as [|e'|[|e']]; try discriminate;
    try (destruct (locked s _) eqn:Hlk; cbn in Hex; try discriminate);
    injection Hex as <-;
    try (destruct (Hlocks llama_outer_lock i t Ht Hho) as [Hl _]; congruence);
    try (destruct (Hlocks llama_inner_lock i t Ht Hhi) as [Hl _]; congruence);
    (eexists t, _, _; split; [reflexivity|]; split; [reflexivity|];
     split; [rewrite Hcode; cbn; rewrite ?Hfl; cbn; lia|];
     intros []; simpl; repeat split; congruence).
Qed.

Lemma holder_init n l : lock_has_holder (init n) l.
Proof. intros Hl. destruct l; discriminate. Qed.

Lemma holder_step s i c s' :
  turnstile_inv s -> (forall l, lock_has_holder s l) ->
  exec s i c = Some s' -> forall l, lock_has_holder s' l.
Proof.
  intros Hinv Hhold Hex l.
  destruct (exec_shape s i c s' Hinv Hex) as (t & t' & lk & Ht & -> & _ & Hkind).
  intros Hl. rewrite locked_update in Hl. specialize (Hkind l).
  assert (Hi : <[i:=t']> (threads s) !! i = Some t')
    by (apply list_lookup_insert_eq; eapply lookup_lt_Some; exact Ht).
  assert (Hkeep : holds (frame t') l = holds (frame t) l -> locked s l = true ->
            exists j tj, threads (update s lk i t') !! j = Some tj
                         /\ holds (frame tj) l = true).
  { intros Heq Hlocked. destruct (Hhold l Hlocked) as (j & tj & Hj & Hh).
    rewrite threads_update.
    destruct (decide (j = i)) as [->|Hne].
    - exists i, t'. split; [exact Hi|]. rewrite Ht in Hj. injection Hj as <-. congruence.
    - exists j, tj. split; [|exact Hh].
      rewrite list_lookup_insert_ne by congruence. exact Hj. }
  destruct lk as [[l' b]|]; [destruct (decide (l = l')) as [->|Hdiff]|].
  - subst b. destruct Hkind as (_ & Hnew & _).
    exists i, t'. rewrite threads_update. split; [exact Hi | exact Hnew].
  - apply Hkeep; assumption.
  - apply Hkeep; assumption.
Qed.

Lemma reachable_holder n s : reachable n s -> forall l, lock_has_holder s l.
Proof.
  induction 1 as [|s i c s' Hr IH Hex]; [intros l; apply holder_init|].
  eapply holder_step; [eapply reachable_inv; exact Hr | exact IH | exact Hex].
Qed.

(** A request that has left the generator holds nothing. *)
Lemma exited_holds_nothing t pt l :
  thread_at t pt -> exited t -> holds (frame t) l = false.
Proof.
  intros (Hcode & Hholds & _) He. unfold exited in He. rewrite Hcode in He.
  rewrite Hholds.
  destruct pt as [| | |e|e| | | |[|e]|[|e]|[e|]]; cbn in He; try contradiction;
    destruct l; reflexivity.
Qed.

(** Once every request has left the generator, no lock is taken. *)
Lemma all_exited_locks_free (n : nat) (s : System) :
  reachable n s ->
  (forall i t, threads s !! i = Some t -> exited t) ->
  forall l, locked s l = false.
Proof.
  intros Hr Hall l. destruct (locked s l) eqn:Hl; [|reflexivity].
  destruct (reachable_holder n s Hr l Hl) as (i & t & Ht & Hh).
  destruct (proj1 (reachable_inv n s Hr) i t Ht) as (pt & Hat).
  rewrite (exited_holds_nothing t pt l Hat (Hall i t Ht)) in Hh. discriminate.
Qed.

(** X16: no lock outlives the requests.  In every reachable state a lock
    that is taken is held by a request that is still inside
    [get_llama_model]; once every request has left the generator, both
    locks are free again. *)
Theorem turnstile_no_lock_leak (n : nat) (s : System) :
  reachable n s ->
  (forall l, locked s l = true ->
     exists i t, threads s !! i = Some t /\ holds (frame t) l = true /\ ~ exited t)
  /\ ((forall i t, threads s !! i = Some t -> exited t) ->
      outer_locked s = false /\ inner_locked s = false).
Proof.
  intros Hr. pose proof (reachable_inv n s Hr) as [Hloc _].
  assert (Hheld : forall l, locked s l = true ->
            exists i t, threads s !! i = Some t /\ holds (frame t) l = true
                        /\ ~ exited t).
  { intros l Hl. destruct (reachable_holder n s Hr l Hl) as (i & t & Ht & Hh).
    exists i, t. split; [exact Ht|]. split; [exact Hh|]. intros He.
    destruct (Hloc i t Ht) as (pt & Hat).
    rewrite (exited_holds_nothing t pt l Hat He) in Hh. discriminate. }
  split; [exact Hheld|]. intros Hall.
  split; [exact (all_exited_locks_free n s Hr Hall llama_outer_lock)
         | exact (all_exited_locks_free n s Hr Hall llama_inner_lock)].
Qed.

(** X17: [release()] is only ever called on a lock that is taken, by the
    request that holds it: in every reachable state a request whose next
    operation is [l.release()] holds [l], and its step releases the lock
    and continues without [RuntimeError]. *)
Theorem turnstile_release_never_raises (n : nat) (s : System) (i : nat) (t : Thread)
    (l : lock) (k : option exn -> prog unit) :
  reachable n s ->
  threads s !! i = Some t ->
  code t = Release l k ->
  holds (frame t) l = true /\ locked s l = true
  /\ exists s' t',
       exec s i Go = Some s' /\ threads s' !! i = Some t'
       /\ code t' = k None /\ holds (frame t') l = false /\ locked s' l = false.
Proof.
  intros Hr Ht Hk. pose proof (reachable_inv n s Hr) as [Hloc Hlocks].
  destruct (Hloc i t Ht) as (pt & Hcode & Hholds & _).
  assert (Hh : holds (frame t) l = true).
  { rewrite Hholds. rewrite Hk in Hcode.
    destruct pt as [| | |e|e| | | |[|e]|[|e]|[e|]]; cbn in Hcode; try discriminate;
      injection Hcode as -> _; reflexivity. }
  destruct (Hlocks l i t Ht Hh) as [Hl _].
  split; [exact Hh|]. split; [exact Hl|].
  unfold exec. rewrite Ht, Hk, Hl.
  eexists _, _. split; [reflexivity|].
  rewrite threads_update, locked_update.
  split; [apply list_lookup_insert_eq; eapply lookup_lt_Some; exact Ht|].
  split; [reflexivity|]. split.
  - destruct l; reflexivity.
  - destruct (decide (l = l)); [reflexivity | congruence].
Qed.

(** A request that is inside the generator and not about to acquire a
    lock can take a step. *)
Lemma thread_can_move s i t pt :
  threads s !! i = Some t -> thread_at t pt -> ~ exited t ->
  (forall l k, code t <> Acquire l k) ->
  exists c s', plain c /\ exec s i c = Some s'.
Proof.
  intros Ht (Hcode & _ & _) Hne Hacq. unfold exited in Hne. unfold exec. rewrite Ht.
  rewrite Hcode in *.
  destruct pt as [| | |e|e| | | |[|e]|[|e]|[e|]]; cbn in *;
    try (destruct Hne; exact I);
    try (exfalso; eapply Hacq; reflexivity);
    try (exists Go; cbn; destruct (locked s _); eexists; (split; [exact I | reflexivity]));
    try (exists Go; cbn; eexists; split; [exact I | reflexivity]).
  exists (Resume Next). cbn. eexists. split; [exact I | reflexivity].
Qed.

(** No deadlock: while some request is inside [get_llama_model], some
    request can take a step without any exception being raised into it. *)
Lemma some_request_can_move (n : nat) (s : System) :
  reachable n s ->
  (exists i t, threads s !! i = Some t /\ ~ exited t) ->
  exists j c s', plain c /\ exec s j c = Some s'.
Proof.
  intros Hr (i & t & Ht & Hne).
  pose proof (reachable_inv n s Hr) as [Hloc Hlocks].
  pose proof (reachable_holder n s Hr) as Hhold.
  assert (Hinner : forall j tj, threads s !! j = Some tj ->
            holds (frame tj) llama_inner_lock = true ->
            exists c s', plain c /\ exec s j c = Some s').
  { intros j tj Hj Hh. destruct (Hloc j tj Hj) as (pt & Hat).
    apply (thread_can_move s j tj pt Hj Hat).
    - intros He. rewrite (exited_holds_nothing tj pt _ Hat He) in Hh. discriminate.
    - intros l k Hk. destruct (thread_at_position tj pt Hat) as (_ & _ & Hacq).
      destruct Hat as (_ & Hholds & _). rewrite Hholds in Hh.
      destruct (Hacq l k Hk) as [[-> _]|[-> _]]; discriminate. }
  assert (Hwait : forall j tj k, threads s !! j = Some tj ->
            code tj = Acquire llama_inner_lock k ->
            exists j' c s', plain c /\ exec s j' c = Some s').
  { intros j tj k Hj Hk.
    destruct (locked s llama_inner_lock) eqn:Hl.
    - destruct (Hhold llama_inner_lock Hl) as (j' & tj' & Hj' & Hh').
      exists j'. eapply Hinner; eassumption.
    - exists j, Go. unfold exec. rewrite Hj, Hk, Hl. eexists. split; [exact I | reflexivity]. }
  assert (Houter : forall j tj, threads s !! j = Some tj ->
            holds (frame tj) llama_outer_lock = true ->
            exists j' c s', plain c /\ exec s j' c = Some s').
  { intros j tj Hj Hh. destruct (Hloc j tj Hj) as (pt & Hat).
    destruct (code tj) as [a|e|l k|l k|b k|k|k] eqn:Hc;
      try (exists j; apply (thread_can_move s j tj pt Hj Hat);
           [ intros He; rewrite (exited_holds_nothing tj pt _ Hat He) in Hh; discriminate
           | intros l' k' Hk'; congruence ]).
    destruct (thread_at_position tj pt Hat) as (_ & _ & Hacq).
    destruct (Hacq l k Hc) as [[-> ->]|[-> ->]].
    - destruct Hat as (_ & Hholds & _). rewrite Hholds in Hh. discriminate.
    - eapply Hwait; eassumption. }
  destruct (Hloc i t Ht) as (pt & Hat).
  destruct (code t) as [a|e|l k|l k|b k|k|k] eqn:Hc;
    try (exists i; apply (thread_can_move s i t pt Ht Hat);
         [ exact Hne | intros l' k' Hk'; congruence ]).
  destruct l.
  - destruct (locked s llama_outer_lock) eqn:Hl.
    + destruct (Hhold llama_outer_lock Hl) as (j' & tj' & Hj' & Hh').
      eapply Houter; eassumption.
    + exists i, Go. unfold exec. rewrite Ht, Hc, Hl. eexists. split; [exact I | reflexivity].
  - eapply Hwait; eassumption.
Qed.

Lemma list_sum_insert {A} (f : A -> nat) (ts : list A) : forall i t t',
  ts !! i = Some t ->
  list_sum (map f (<[i:=t']> ts)) + f t = list_sum (map f ts) + f t'.
Proof.
  induction ts as [|x ts IH]; intros i t t' Hi; [discriminate|].
  destruct i as [|i]; simpl in *.
  - injection Hi as ->. lia.
  - specialize (IH i t t' Hi). lia.
Qed.

(** Every step uses up some of the work that is left. *)
Lemma exec_work_left s i c s' :
  turnstile_inv s -> exec s i c = Some s' -> work_left s' < work_left s.
Proof.
  intros Hinv Hex.
  destruct (exec_shape s i c s' Hinv Hex) as (t & t' & lk & Ht & -> & Hlt & _).
  unfold work_left. rewrite threads_update.
  pose proof (list_sum_insert (fun t => height (code t) (release_outer_lock (frame t)))
                (threads s) i t t' Ht).
  simpl in *. lia.
Qed.

Lemma all_exited_dec (ts : list Thread) :
  (forall i t, ts !! i = Some t -> exited t)
  \/ (exists i t, ts !! i = Some t /\ ~ exited t).
Proof.
  induction ts as [|x ts [IH|(i & t & Hi & Hne)]].
  - left. intros i t Hi. discriminate.
  - assert (Hx : exited x \/ ~ exited x)
      by (unfold exited; destruct (code x); auto).
    destruct Hx as [Hx|Hx].
    + left. intros [|i] t Hi; simpl in Hi; [injection Hi as <-; exact Hx|].
      eapply IH; exact Hi.
    + right. exists 0, x. split; [reflexivity | exact Hx].
  - right. exists (S i), t. split; [exact Hi | exact Hne].
Qed.

(** X18: every request can always be served.  From every reachable state
    of the turnstile there is a schedule, without any exception raised
    into a request, after which every request has left
    [get_llama_model] and both locks are free; it has at most as many
    steps as there is work left, which is at most 8 per request.  So the
    two locks can never deadlock. *)
Theorem turnstile_can_always_finish (n : nat) (s : System) :
  reachable n s ->
  work_left s <= 8 * n
  /\ exists sched s',
       plain_schedule sched /\ length sched <= work_left s
       /\ exec_all s sched = Some s'
       /\ (forall i t, threads s' !! i = Some t -> exited t)
       /\ outer_locked s' = false /\ inner_locked s' = false.
Proof.
  intros Hr. split.
  - induction Hr as [|s i c s' Hr IH Hex].
    + unfold work_left, init. cbn [threads].
      assert (H8 : height get_llama_model false = 8) by reflexivity.
      clear -H8. induction n as [|n IH]; [simpl; lia|].
      cbn [replicate map code frame frame0 release_outer_lock]. rewrite H8.
      change (list_sum (8 :: ?l)) with (8 + list_sum l). lia.
    + pose proof (exec_work_left s i c s' (reachable_inv n s Hr) Hex). lia.
  - remember (work_left s) as w eqn:Hw.
    assert (Hle : work_left s <= w) by lia. clear Hw.
    revert s Hr Hle. induction w as [|w IH]; intros s Hr Hle.
    + destruct (all_exited_dec (threads s)) as [Hall|Hsome].
      * exists [], s. split; [constructor|]. split; [simpl; lia|].
        split; [reflexivity|]. split; [exact Hall|].
        split; [exact (all_exited_locks_free n s Hr Hall llama_outer_lock)
               | exact (all_exited_locks_free n s Hr Hall llama_inner_lock)].
      * destruct (some_request_can_move n s Hr Hsome) as (j & c & s1 & _ & Hex).
        pose proof (exec_work_left s j c s1 (reachable_inv n s Hr) Hex). lia.
    + destruct (all_exited_dec (threads s)) as [Hall|Hsome].
      * exists [], s. split; [constructor|]. split; [simpl; lia|].
        split; [reflexivity|]. split; [exact Hall|].
        split; [exact (all_exited_locks_free n s Hr Hall llama_outer_lock)
               | exact (all_exited_locks_free n s Hr Hall llama_inner_lock)].
      * destruct (some_request_can_move n s Hr Hsome) as (j & c & s1 & Hc & Hex).
        pose proof (exec_work_left s j c s1 (reachable_inv n s Hr) Hex) as Hlt.
        destruct (IH s1 (reachable_step n s j c s1 Hr Hex) ltac:(lia))
          as (sched & s' & Hplain & Hlen & Hrun & Hdone).
        exists ((j, c) :: sched), s'.
        split; [constructor; [exact Hc | exact Hplain]|].
        split; [simpl; lia|].
        split; [simpl; rewrite Hex; exact Hrun | exact Hdone].
Qed.

(** ** The added theorems at concrete inputs *)

Lemma turnstile_releasing_reachable : reachable 3 turnstile_releasing.
Proof.
  apply (exec_all_reachable 3 [(0, Go); (0, Go); (0, Go)] (init 3));
    [apply reachable_init | vm_compute; reflexivity].
Qed.

Lemma turnstile_finished_reachable : reachable 2 turnstile_finished.
Proof.
  apply (exec_all_reachable 2 turnstile_full_schedule (init 2));
    [apply reachable_init | vm_compute; reflexivity].
Qed.

Lemma turnstile_finished_exited i t :
  threads turnstile_finished !! i = Some t -> exited t.
Proof.
  destruct i as [|[|i]]; intros Ht; vm_compute in Ht; try discriminate;
    injection Ht as <-; exact I.
Qed.

Lemma Llama_call_short_cache_raises_witness :
  length [None : option (KV (F:=fixed))] < length (layers tiny_model)
  /\ Llama_call tiny_model [1; 2] None (Some [None]) = None.
Proof.
  assert (Hlen : length [None : option (KV (F:=fixed))] < length (layers tiny_model))
    by (vm_compute; lia).
  split; [exact Hlen|].
  exact (Llama_call_short_cache_raises tiny_model [1; 2] None [None] Hlen).
Defined.

Lemma Llama_call_keeps_spare_slots_witness :
  match Llama_call tiny_model [1; 2] None (Some [None; None; None]) with
  | Some (_, c') =>
      length c' = 3
      /\ Forall (fun slot => is_Some slot) (take (length (layers tiny_model)) c')
      /\ drop (length (layers tiny_model)) c' = [None]
  | None => False
  end.
Proof.
  destruct (Llama_call tiny_model [1; 2] None (Some [None; None; None]))
    as [[logits c']|] eqn:Hcall.
  - destruct (Llama_call_keeps_spare_slots tiny_model [1; 2] None [None; None; None]
                logits c' Hcall) as (_ & Hlen & Hfilled & Hspare).
    split; [exact Hlen|]. split; [exact Hfilled | exact Hspare].
  - vm_compute in Hcall. discriminate.
Defined.

Lemma mha_heads_shape :
  heads_shape (attn_num_key_value_heads mha_attention) 3 2
    (Attention_kv_heads mha_attention (Linear_call (k_proj mha_attention) tiny_hidden)).
Proof. vm_compute. split; [reflexivity|]. repeat constructor. Qed.

Lemma Attention_repeat_identity_witness :
  let t := Attention_kv_heads mha_attention
             (Linear_call (k_proj mha_attention) tiny_hidden) in
  attn_num_attention_heads mha_attention = attn_num_key_value_heads mha_attention
  /\ repeats mha_attention = 1
  /\ Attention_repeat mha_attention 3 t = t.
Proof.
  cbv zeta. split; [reflexivity|]. split; [reflexivity|].
  exact (Attention_repeat_identity mha_attention 3 2 _ eq_refl eq_refl mha_heads_shape).
Defined.

Lemma tiny_query_rows :
  Forall (fun r : list fixed => length r = 4 * 2)
    (Linear_call (q_proj tiny_attention) tiny_hidden).
Proof. vm_compute. repeat constructor. Qed.

Lemma heads_merge_inverts_split_witness :
  let q := Linear_call (q_proj tiny_attention) tiny_hidden in
  let split := swap_axes 4 (map (chunks 4 2) q) in
  map (fun r => concat r) (swap_axes (length q) split) = q
  /\ heads_shape 4 (length q) 2 split.
Proof.
  exact (heads_merge_inverts_split 4 2
           (Linear_call (q_proj tiny_attention) tiny_hidden) tiny_query_rows).
Defined.

Lemma valid_config_model_runs_witness :
  config_valid tiny_args
  /\ Nat.even (hidden_size tiny_args / num_attention_heads tiny_args) = true
  /\ model_shaped tiny_args tiny_model
  /\ model_wf tiny_model
  /\ exists logits cs,
       Llama_call tiny_model [1; 2; 3] None None = Some (logits, map Some cs)
       /\ logits <> []
       /\ length logits = 3
       /\ Forall (fun r => length r = 10) logits
       /\ length cs = 2
       /\ Forall (fun c : KV (F:=fixed) =>
                    heads_shape 4 3 2 c.1 /\ heads_shape 4 3 2 c.2) cs.
Proof.
  split; [exact tiny_config_valid|]. split; [reflexivity|].
  exact (valid_config_model_runs tiny_weight tiny_args tiny_model [1; 2; 3]
           tiny_config_valid eq_refl tiny_weight_shape tiny_model_built
           ltac:(discriminate)).
Defined.

Lemma generate_cache_positions_witness :
  exists ys st,
    generate_take tiny_categorical (Llama_model tiny_model) (Fix 0) 3
      (generate_init [1; 2; 3] tt) = Some (ys, st)
    /\ length ys = 3
    /\ gen_y st = [List.last ys 0]
    /\ exists cs,
         gen_cache st = Some (map Some cs)
         /\ Forall2 (fun b c => kv_shape (self_attn b) (3 + 2) c) (layers tiny_model) cs.
Proof.
  destruct (generate_take_runs tiny_categorical tiny_model (Fix 0) 3
              (generate_init [1; 2; 3] tt) (or_introl eq_refl)
              ltac:(discriminate))
    as (ys & st & Ht & _).
  exists ys, st. split; [exact Ht|].
  exact (generate_cache_positions tiny_categorical tiny_model (Fix 0) [1; 2; 3] tt 2
           ys st tiny_model_wf Ht).
Defined.

Lemma generate_agrees_with_full_call_witness :
  exists ys st logits cache,
    generate_take tiny_categorical (Llama_model tiny_model) (Fix 0) 2
      (generate_init [1; 2; 3] tt) = Some (ys, st)
    /\ Llama_call tiny_model ([1; 2; 3] ++ ys) None None = Some (logits, cache)
    /\ length logits = 3 + 2
    /\ generate_next tiny_categorical (Llama_model tiny_model) (Fix 0) st
       = Yielded (sample tiny_categorical (Fix 0) (gen_key st) (List.last logits [])).1
           {| gen_y := [(sample tiny_categorical (Fix 0) (gen_key st)
                           (List.last logits [])).1];
              gen_cache := Some cache;
              gen_key := (sample tiny_categorical (Fix 0) (gen_key st)
                            (List.last logits [])).2 |}.
Proof.
  destruct (generate_take_runs tiny_categorical tiny_model (Fix 0) 2
              (generate_init [1; 2; 3] tt) (or_introl eq_refl)
              ltac:(discriminate))
    as (ys & st & Ht & _).
  destruct (@generate_agrees_with_full_call fixed fixed_arith fixed_laws unit
              tiny_categorical tiny_model (Fix 0) [1; 2; 3] tt 2 ys st
              tiny_model_wf ltac:(discriminate) Ht)
    as (logits & cache & Hcall & Hlen & Hstep).
  exists ys, st, logits, cache. repeat split; assumption.
Defined.

Lemma greedy_generation_ignores_random_source_witness :
  is_zero (Fix 0) = true
  /\ exists ys st st',
       generate_take tiny_categorical (Llama_model tiny_model) (Fix 0) 3
         (generate_init [1; 2; 3] tt) = Some (ys, st)
       /\ generate_take counting_categorical (Llama_model tiny_model) (Fix 0) 3
            (generate_init [1; 2; 3] 7) = Some (ys, st')
       /\ gen_cache st' = gen_cache st /\ gen_key st' = 7.
Proof.
  assert (Hz : is_zero (Fix 0) = true) by reflexivity.
  split; [exact Hz|].
  destruct (generate_take_runs tiny_categorical tiny_model (Fix 0) 3
              (generate_init [1; 2; 3] tt) (or_introl eq_refl)
              ltac:(discriminate))
    as (ys & st & Ht & _).
  destruct (greedy_generation_ignores_random_source tiny_categorical
              counting_categorical (Llama_model tiny_model) (Fix 0) [1; 2; 3] tt 7
              3 ys st Hz Ht) as (_ & st' & Ht' & _ & Hc & Hk).
  exists ys, st, st'. repeat split; assumption.
Defined.

Lemma greedy_tokens_in_vocabulary_witness :
  is_zero (Fix 0) = true
  /\ 0 < length (weight (lm_head tiny_model))
  /\ exists ys st,
       generate_take tiny_categorical (Llama_model tiny_model) (Fix 0) 4
         (generate_init [1; 2; 3] tt) = Some (ys, st)
       /\ Forall (fun y => y < length (weight (lm_head tiny_model))) ys.
Proof.
  assert (Hv : 0 < length (weight (lm_head tiny_model))) by (vm_compute; lia).
  assert (Hz : is_zero (Fix 0) = true) by reflexivity.
  split; [exact Hz|]. split; [exact Hv|].
  destruct (generate_take_runs tiny_categorical tiny_model (Fix 0) 4
              (generate_init [1; 2; 3] tt) (or_introl eq_refl)
              ltac:(discriminate))
    as (ys & st & Ht & _).
  exists ys, st. split; [exact Ht|].
  exact (greedy_tokens_in_vocabulary tiny_categorical tiny_model (Fix 0) [1; 2; 3] tt 4
           ys st Hz ltac:(discriminate) Hv Ht).
Defined.

Lemma turnstile_no_lock_leak_witness :
  reachable 2 turnstile_finished
  /\ outer_locked turnstile_finished = false
  /\ inner_locked turnstile_finished = false.
Proof.
  split; [exact turnstile_finished_reachable|].
  exact (proj2 (turnstile_no_lock_leak 2 turnstile_finished turnstile_finished_reachable)
           turnstile_finished_exited).
Defined.

Lemma turnstile_release_never_raises_witness :
  reachable 3 turnstile_releasing
  /\ exists s',
       exec turnstile_releasing 0 Go = Some s'
       /\ locked s' llama_outer_lock = false.
Proof.
  split; [exact turnstile_releasing_reachable|].
  edestruct (turnstile_release_never_raises 3 turnstile_releasing 0)
    as (_ & _ & s' & t' & Hex & _ & _ & _ & Hfree).
  - exact turnstile_releasing_reachable.
  - reflexivity.
  - cbv. reflexivity.
  - exists s'. split; [exact Hex | exact Hfree].
Defined.

Lemma turnstile_can_always_finish_witness :
  reachable 3 turnstile_demo
  /\ exists sched s',
       plain_schedule sched
       /\ exec_all turnstile_demo sched = Some s'
       /\ (forall i t, threads s' !! i = Some t -> exited t)
       /\ outer_locked s' = false /\ inner_locked s' = false.
Proof.
  split; [exact turnstile_demo_reachable|].
  destruct (turnstile_can_always_finish 3 turnstile_demo turnstile_demo_reachable)
    as (_ & sched & s' & Hplain & _ & Hrun & Hdone).
  exists sched, s'. split; [exact Hplain|]. split; [exact Hrun | exact Hdone].
Defined.

Lemma generate_never_stops_witness :
  model_shaped tiny_args tiny_model
  /\ 0 < vocab_size tiny_args
  /\ exists ys st,
       generate_take tiny_categorical (Llama_model tiny_model) (Fix 0) 3
         (generate_init [1; 2; 3] tt) = Some (ys, st)
       /\ length ys = 3
       /\ exists logits cache,
            Llama_call tiny_model (gen_y st) None (gen_cache st) = Some (logits, cache)
            /\ length (List.last logits []) = 10.
Proof.
  assert (Hv : 0 < vocab_size tiny_args) by (simpl; lia).
  split; [exact tiny_model_shaped|]. split; [exact Hv|].
  destruct (generate_never_stops tiny_categorical tiny_args tiny_model (Fix 0)
              [1; 2; 3] tt 3 tiny_model_shaped Hv ltac:(discriminate))
    as (_ & _ & _ & ys & st & Ht & Hlen & _ & _ & logits & cache & Hc & Hrow & _).
  exists ys, st. split; [exact Ht|]. split; [exact Hlen|].
  exists logits, cache. split; [exact Hc | exact Hrow].
Defined.

(** C9 (counterexample): on the empty prompt the first step of the
    generator raises, with a model that has the shapes of a valid
    configuration and a non-empty vocabulary, so no token is yielded. *)
Lemma generate_raises_on_empty_prompt :
  model_shaped tiny_args tiny_model
  /\ 0 < vocab_size tiny_args
  /\ generate_next tiny_categorical (Llama_model tiny_model) (Fix 0)
       (generate_init [] tt) = Raised
  /\ generate_take tiny_categorical (Llama_model tiny_model) (Fix 0) 1
       (generate_init [] tt) = None.
Proof.
  split; [exact tiny_model_shaped|]. split; [simpl; lia|].
  split; vm_compute; reflexivity.
Qed.

Lemma chat_completion_responds_witness :
  model_shaped tiny_args tiny_model
  /\ 0 < vocab_size tiny_args
  /\ exists tokens st',
       collect_tokens tiny_categorical (Llama_model tiny_model) (Fix 0) 9 4
         (generate_init [1; 2; 3] tt) [] = Some (tokens, st')
       /\ length tokens <= 4
       /\ Forall (fun t => t <> 9) tokens
       /\ Forall (fun t => t < 10) tokens
       /\ chat_completion tiny_categorical tiny_decode (Llama_model tiny_model)
            (Fix 0) 9 4 [1; 2; 3] tt
          = Some {| message_content := tiny_decode tokens;
                    usage := {| prompt_tokens := 3;
                                completion_tokens := length tokens;
                                total_tokens := 3 + length tokens |} |}.
Proof.
  assert (Hv : 0 < vocab_size tiny_args) by (simpl; lia).
  assert (Hz : is_zero (Fix 0) = true) by reflexivity.
  split; [exact tiny_model_shaped|]. split; [exact Hv|].
  destruct (chat_completion_responds tiny_categorical tiny_decode tiny_args tiny_model
              (Fix 0) 9 4 [1; 2; 3] tt tiny_model_shaped Hv ltac:(discriminate))
    as (tokens & st' & Hc & Hlen & Hall & Hin & Hresp).
  exists tokens, st'. split; [exact Hc|]. split; [exact Hlen|].
  split; [exact Hall|]. split; [exact (Hin Hz) | exact Hresp].
Defined.
